(** * ai-caller: the retry ladder, the status ingress, the queue processor
      and the media bridge

    A shallow embedding of [outgoing-call.js] (retry scheduling, the
    [/call-status] handler, the [/outbound-call] ingress and the media-stream
    listeners), of the queue processor ([processCallQueue]) and of the
    [callDataDb.js] helpers they share.

    JavaScript [Date] values are their time value: milliseconds since the
    epoch, as [Z].  The time zone of the process is a parameter, as it is
    for the engine.  Every [await] of the source (and every read of the
    clock) is one command of a small program monad, so that a handler can
    be run to completion or interleaved with another one at its
    suspension points.

    Assumptions of the model: every database statement executes (the
    [catch] blocks for database errors are left out); a notification
    never fails the operation that sends it; the clock moves only when a
    handler sleeps or between requests; the carrier and the agent
    provider answer as the [Host] says. *)

From Stdlib Require Import Ascii String.
From stdpp Require Import gmap strings list pretty sorting.

Local Open Scope Z_scope.

(** ** ECMAScript time values *)

Module JsDate.

Definition msPerSecond : Z := 1000.
Definition msPerMinute : Z := 60000.
Definition msPerHour : Z := 3600000.
Definition msPerDay : Z := 86400000.

Definition Day (t : Z) : Z := t `div` msPerDay.
Definition TimeWithinDay (t : Z) : Z := t `mod` msPerDay.

Definition HourFromTime (t : Z) : Z := (t `div` msPerHour) `mod` 24.
Definition SecFromTime (t : Z) : Z := (t `div` msPerSecond) `mod` 60.
Definition msFromTime (t : Z) : Z := t `mod` msPerSecond.

Definition DaysInYear (y : Z) : Z :=
  if negb (y `mod` 4 =? 0) then 365
  else if negb (y `mod` 100 =? 0) then 366
  else if negb (y `mod` 400 =? 0) then 365
  else 366.

Definition DayFromYear (y : Z) : Z :=
  365 * (y - 1970) + (y - 1969) `div` 4 - (y - 1901) `div` 100
  + (y - 1601) `div` 400.

(** The largest [y] with [DayFromYear y <= Day t]: a first guess from the
    mean length of a Gregorian year, corrected by at most one. *)
Definition YearFromTime (t : Z) : Z :=
  let d := Day t in
  let c := 1970 + (d * 400) `div` 146097 in
  if DayFromYear (c + 1) <=? d then c + 1
  else if DayFromYear c <=? d then c
  else c - 1.

Definition leapOfYear (y : Z) : Z := if DaysInYear y =? 365 then 0 else 1.
Definition InLeapYear (t : Z) : Z := leapOfYear (YearFromTime t).
Definition DayWithinYear (t : Z) : Z := Day t - DayFromYear (YearFromTime t).

(** Day number, within its year, of the first day of month [m] (0-based). *)
Definition monthStart (leap m : Z) : Z :=
  match m with
  | 0 => 0
  | 1 => 31
  | 2 => 59 + leap
  | 3 => 90 + leap
  | 4 => 120 + leap
  | 5 => 151 + leap
  | 6 => 181 + leap
  | 7 => 212 + leap
  | 8 => 243 + leap
  | 9 => 273 + leap
  | 10 => 304 + leap
  | _ => 334 + leap
  end.

Definition MonthFromTime (t : Z) : Z :=
  let d := DayWithinYear t in
  let l := InLeapYear t in
  if d <? 31 then 0
  else if d <? 59 + l then 1
  else if d <? 90 + l then 2
  else if d <? 120 + l then 3
  else if d <? 151 + l then 4
  else if d <? 181 + l then 5
  else if d <? 212 + l then 6
  else if d <? 243 + l then 7
  else if d <? 273 + l then 8
  else if d <? 304 + l then 9
  else if d <? 334 + l then 10
  else 11.

Definition DateFromTime (t : Z) : Z :=
  DayWithinYear t - monthStart (InLeapYear t) (MonthFromTime t) + 1.

Definition MakeTime (hour min sec ms : Z) : Z :=
  hour * msPerHour + min * msPerMinute + sec * msPerSecond + ms.

(** [MakeDay]: the day of the first of the month, plus [date - 1]; months
    and dates out of range carry over. *)
Definition MakeDay (year month date : Z) : Z :=
  let ym := year + month `div` 12 in
  let mn := month `mod` 12 in
  DayFromYear ym + monthStart (leapOfYear ym) mn + date - 1.

Definition MakeDate (day time : Z) : Z := day * msPerDay + time.

(** The host's zone: [LocalTZA t isUTC] is the offset in force at the UTC
    instant [t] ([isUTC = true]) or at the local time [t]. *)
Record Zone : Type := { LocalTZA : Z → bool → Z }.

Definition LocalTime (z : Zone) (t : Z) : Z := t + LocalTZA z t true.
Definition UTC (z : Zone) (t : Z) : Z := t - LocalTZA z t false.

Definition fixedZone (offset : Z) : Zone := {| LocalTZA := λ _ _, offset |}.
Definition utcZone : Zone := fixedZone 0.
(** Central European Time, the offset of Europe/Rome outside daylight
    saving time (on 2025-03-14, for one). *)
Definition cetZone : Zone := fixedZone msPerHour.

(** Europe/Rome as it runs through 2025: summer time from 2025-03-30
    01:00 UTC (02:00 local becomes 03:00) to 2025-10-26 01:00 UTC (03:00
    local becomes 02:00).  A local time that is skipped or repeated is
    read with the offset in force before the change. *)
Definition summer_2025_start : Z := 1743296400000.
Definition summer_2025_end : Z := 1761440400000.

Definition rome2025Zone : Zone :=
  {| LocalTZA t isUTC :=
       if isUTC then
         if (summer_2025_start <=? t) && (t <? summer_2025_end)
         then 2 * msPerHour else msPerHour
       else
         if (summer_2025_start + 2 * msPerHour <=? t)
            && (t <? summer_2025_end + 2 * msPerHour)
         then 2 * msPerHour else msPerHour |}.

(** [Date.prototype.getDate], [setHours(h, m, s, ms)] and [setDate(d)]. *)
Definition getDate (z : Zone) (t : Z) : Z := DateFromTime (LocalTime z t).

Definition setHours (z : Zone) (t : Z) (hour min sec ms : Z) : Z :=
  UTC z (MakeDate (Day (LocalTime z t)) (MakeTime hour min sec ms)).

Definition setDate (z : Zone) (t : Z) (date : Z) : Z :=
  let lt := LocalTime z t in
  UTC z (MakeDate (MakeDay (YearFromTime lt) (MonthFromTime lt) date)
                  (TimeWithinDay lt)).

(** [Date.UTC(year, month - 1, day, h, m, s)], with the month written 1-12. *)
Definition utcDate (year month day hour min sec : Z) : Z :=
  MakeDate (MakeDay year (month - 1) day) (MakeTime hour min sec 0).

End JsDate.

Import JsDate.

(** The [next_time] branch of [scheduleRetry]:
<<
      const now = new Date();
      let target = new Date(now);
      target.setHours(scheduleConfig.hour, 0, 0, 0);
      if (now >= target) { target.setDate(target.getDate() + 1); }
>>
*)
Definition next_time (z : Zone) (hour : Z) (now : Z) : Z :=
  let target := setHours z now hour 0 0 0 in
  if now >=? target then setDate z target (getDate z target + 1) else target.



(** The wall clock shows exactly H:00:00.000. *)
Definition on_the_hour (z : Zone) (H : Z) (u : Z) : Prop :=
  TimeWithinDay (LocalTime z u) = H * msPerHour.


(** ** JavaScript values *)

Definition truthy (v : option string) : bool :=
  match v with
  | Some s => negb (String.eqb s "")
  | None => false
  end.

(** [a || b] on values that are strings, [null] or [undefined]. *)
Definition js_or (a b : option string) : option string :=
  if truthy a then a else b.

(** [v || null] and [v || ''] at the end of a chain of alternatives. *)
Definition or_null (v : option string) : option string :=
  if truthy v then v else None.
Definition or_empty (v : option string) : string :=
  if truthy v then default "" v else "".

Definition lower_ascii (c : ascii) : ascii :=
  let n := nat_of_ascii c in
  if ((65 <=? n) && (n <=? 90))%nat then ascii_of_nat (n + 32) else c.

Fixpoint toLowerCase (s : string) : string :=
  match s with
  | EmptyString => EmptyString
  | String c s' => String (lower_ascii c) (toLowerCase s')
  end.

(** [list.includes(v)]; an [undefined] value is in no list of strings. *)
Definition includes (l : list string) (v : option string) : bool :=
  match v with
  | Some s => existsb (String.eqb s) l
  | None => false
  end.

(** [a === 'text'] for a value that may be missing. *)
Definition is_string (v : option string) (s : string) : bool :=
  match v with
  | Some s' => String.eqb s' s
  | None => false
  end.

(** A call that either returns or throws an error with a message. *)
Inductive Outcome (A : Type) : Type :=
| returned (a : A)
| thrown (message : string).
Arguments returned {A} a.
Arguments thrown {A} message.

(** ** Tables and objects *)

(** The carrier's call-creation options ([call_options_json], kept as the
    object it serializes). *)
Module CallOptions.
Record t : Type := {
  from : string;
  to : string;
  url : string;
  timeout : Z;
  timeLimit : Z;
  statusCallback : string;
  statusCallbackEvent : list string;
  machineDetection : string;
  asyncAmd : bool;
  asyncAmdStatusCallback : string
}.
End CallOptions.

(** A row of [call_queue].  Instants stored as ISO-8601 text are kept as
    time values; [sequence] is a ghost field, not a column: it names the
    retry sequence the row belongs to, and no code reads it. *)
Module Queue.
Record row : Type := {
  queue_id : Z;
  contact_id : string;
  phone_number : string;
  first_name : option string;
  full_name : option string;
  email : option string;
  full_address : option string;
  retry_stage : Z;
  status : string;
  scheduled_at : Z;
  first_attempt_timestamp : option Z;
  last_attempt_at : option Z;
  last_error : option string;
  call_options_json : CallOptions.t;
  initial_signed_url : option string;
  sequence : nat
}.

Definition with_queue_id (id : Z) (r : row) : row :=
  {| queue_id := id; contact_id := contact_id r; phone_number := phone_number r;
     first_name := first_name r; full_name := full_name r; email := email r;
     full_address := full_address r; retry_stage := retry_stage r;
     status := status r; scheduled_at := scheduled_at r;
     first_attempt_timestamp := first_attempt_timestamp r;
     last_attempt_at := last_attempt_at r; last_error := last_error r;
     call_options_json := call_options_json r;
     initial_signed_url := initial_signed_url r; sequence := sequence r |}.

(** [SET status = ?, last_attempt_at = ?] and [SET status = ?, last_error = ?]. *)
Definition with_attempt (st : string) (at_ : Z) (r : row) : row :=
  {| queue_id := queue_id r; contact_id := contact_id r; phone_number := phone_number r;
     first_name := first_name r; full_name := full_name r; email := email r;
     full_address := full_address r; retry_stage := retry_stage r;
     status := st; scheduled_at := scheduled_at r;
     first_attempt_timestamp := first_attempt_timestamp r;
     last_attempt_at := Some at_; last_error := last_error r;
     call_options_json := call_options_json r;
     initial_signed_url := initial_signed_url r; sequence := sequence r |}.

Definition with_error (st : string) (err : string) (r : row) : row :=
  {| queue_id := queue_id r; contact_id := contact_id r; phone_number := phone_number r;
     first_name := first_name r; full_name := full_name r; email := email r;
     full_address := full_address r; retry_stage := retry_stage r;
     status := st; scheduled_at := scheduled_at r;
     first_attempt_timestamp := first_attempt_timestamp r;
     last_attempt_at := last_attempt_at r; last_error := Some err;
     call_options_json := call_options_json r;
     initial_signed_url := initial_signed_url r; sequence := sequence r |}.
End Queue.

(** A row of [calls], keyed by [callSid].  [retry_count] and
    [retry_scheduled] are [INTEGER DEFAULT 0]; [sequence] is ghost. *)
Module Calls.
Record row : Type := {
  phone : option string;
  contactId : option string;
  retry_count : Z;
  status : option string;
  created_at : option Z;
  signedUrl : option string;
  fullName : option string;
  firstName : option string;
  email : option string;
  answeredBy : option string;
  conversationId : option string;
  full_address : option string;
  first_attempt_timestamp : option Z;
  retry_scheduled : Z;
  sequence : nat
}.

Definition with_answeredBy (v : option string) (r : row) : row :=
  {| phone := phone r; contactId := contactId r; retry_count := retry_count r;
     status := status r; created_at := created_at r; signedUrl := signedUrl r;
     fullName := fullName r; firstName := firstName r; email := email r;
     answeredBy := v; conversationId := conversationId r;
     full_address := full_address r;
     first_attempt_timestamp := first_attempt_timestamp r;
     retry_scheduled := retry_scheduled r; sequence := sequence r |}.

Definition with_conversationId (v : option string) (r : row) : row :=
  {| phone := phone r; contactId := contactId r; retry_count := retry_count r;
     status := status r; created_at := created_at r; signedUrl := signedUrl r;
     fullName := fullName r; firstName := firstName r; email := email r;
     answeredBy := answeredBy r; conversationId := v;
     full_address := full_address r;
     first_attempt_timestamp := first_attempt_timestamp r;
     retry_scheduled := retry_scheduled r; sequence := sequence r |}.

Definition with_retry_scheduled (v : Z) (r : row) : row :=
  {| phone := phone r; contactId := contactId r; retry_count := retry_count r;
     status := status r; created_at := created_at r; signedUrl := signedUrl r;
     fullName := fullName r; firstName := firstName r; email := email r;
     answeredBy := answeredBy r; conversationId := conversationId r;
     full_address := full_address r;
     first_attempt_timestamp := first_attempt_timestamp r;
     retry_scheduled := v; sequence := sequence r |}.
End Calls.

(** The JavaScript object handed around as "call data": the row returned
    by [getCallData], the literal passed to [setCallData], the argument of
    [scheduleRetry].  A missing (or [null]) property is [None]. *)
Module CallData.
Record t : Type := {
  to : option string;
  phone : option string;
  contactId : option string;
  contact_id : option string;
  retry_count : option Z;
  status : option string;
  created_at : option Z;
  signedUrl : option string;
  fullName : option string;
  full_name : option string;
  firstName : option string;
  first_name : option string;
  email : option string;
  answeredBy : option string;
  conversationId : option string;
  first_attempt_timestamp : option Z;
  full_address : option string;
  address : option string;
  retry_scheduled : option Z;
  sequence : nat
}.

(** The object [getCallData] returns for a row: one property per column. *)
Definition of_row (r : Calls.row) : t :=
  {| to := None; phone := Calls.phone r; contactId := Calls.contactId r;
     contact_id := None; retry_count := Some (Calls.retry_count r);
     status := Calls.status r; created_at := Calls.created_at r;
     signedUrl := Calls.signedUrl r; fullName := Calls.fullName r;
     full_name := None; firstName := Calls.firstName r; first_name := None;
     email := Calls.email r; answeredBy := Calls.answeredBy r;
     conversationId := Calls.conversationId r;
     first_attempt_timestamp := Calls.first_attempt_timestamp r;
     full_address := Calls.full_address r; address := None;
     retry_scheduled := Some (Calls.retry_scheduled r);
     sequence := Calls.sequence r |}.

(** The row [setCallData] writes: [to] is stored as [phone], the columns
    the object does not give take their defaults. *)
Definition to_row (d : t) : Calls.row :=
  {| Calls.phone := match to d with Some v => Some v | None => phone d end;
     Calls.contactId := contactId d;
     Calls.retry_count := default 0 (retry_count d);
     Calls.status := status d; Calls.created_at := created_at d;
     Calls.signedUrl := signedUrl d; Calls.fullName := fullName d;
     Calls.firstName := firstName d; Calls.email := email d;
     Calls.answeredBy := answeredBy d;
     Calls.conversationId := conversationId d;
     Calls.full_address := full_address d;
     Calls.first_attempt_timestamp := first_attempt_timestamp d;
     Calls.retry_scheduled := default 0 (retry_scheduled d);
     Calls.sequence := sequence d |}.
End CallData.

(** The objects [updateCallData] is called with. *)
Inductive Patch : Type :=
| patch_answeredBy (v : string)
| patch_retry_scheduled (v : Z)
| patch_conversationId (v : option string).

Definition apply_patch (p : Patch) (r : Calls.row) : Calls.row :=
  match p with
  | patch_answeredBy v => Calls.with_answeredBy (Some v) r
  | patch_retry_scheduled v => Calls.with_retry_scheduled v r
  | patch_conversationId v => Calls.with_conversationId v r
  end.

(** Modelled from the spec: the notifier sink.  [slack/notifications.js] is
    not among the sources; the specification has it fire and forget:
    sending an event never fails the operation that sends it and touches
    nothing in the store.  [sendNonFatalSlackNotification] and
    [sendPositiveSlackNotification] are kept by the title they are called
    with. *)
Inductive Notification : Type :=
| NonFatal (title : string)
| Positive (title : string).

(** ** Effects *)

(** One command per awaited operation (and per clock read). *)
Inductive Cmd : Type :=
| DbGetCall (callSid : string)
| DbReplaceCall (callSid : string) (r : Calls.row)
| DbUpdateCall (callSid : string) (p : Patch)
| DbInsertQueue (r : Queue.row)
| DbSelectDue (now : Z) (limit : Z)
| DbMarkProcessing (queue_id : Z) (now : Z)
| DbMarkFailed (queue_id : Z) (message : string)
| DbDeleteQueue (queue_id : Z)
| Clock
| Sleep (ms : Z)
| TwilioCreate (options : CallOptions.t)
| TwilioFetch (callSid : string)
| TwilioComplete (callSid : string)
| TwilioListActive
| SignedUrl
| Slack (n : Notification)
| FreshSequence.

Definition answer (c : Cmd) : Type :=
  match c with
  | DbGetCall _ => option Calls.row
  | DbInsertQueue _ => Z
  | DbSelectDue _ _ => list Queue.row
  | DbMarkProcessing _ _ => Z
  | Clock => Z
  | TwilioCreate _ => Outcome string
  | TwilioFetch _ => Outcome string
  | TwilioComplete _ => Outcome unit
  | TwilioListActive => Outcome Z
  | SignedUrl => Outcome string
  | FreshSequence => nat
  | _ => unit
  end.

(** The host: configuration, the time zone of the process, and what the
    carrier and the agent provider answer; an answer may depend on how
    many commands ran before ([nat]). *)
Record Host : Type := {
  tz : Zone;
  PUBLIC_URL : string;
  routePrefix : string;
  OUTGOING_TWILIO_PHONE_NUMBER : string;
  MAX_ACTIVE : Z;
  encodeURIComponent : string → string;
  twilio_create : nat → CallOptions.t → Outcome string;
  twilio_fetch : nat → string → Outcome string;
  twilio_complete : nat → string → Outcome unit;
  twilio_active : nat → Outcome Z;
  signed_url : nat → Outcome string
}.

(** The store, the clock and the history of commands. *)
Record World : Type := {
  call_queue : list Queue.row;
  last_queue_id : Z;
  calls : gmap string Calls.row;
  clock : Z;
  trace : list Cmd;
  next_sequence : nat
}.

Definition empty_world (t : Z) : World :=
  {| call_queue := []; last_queue_id := 0; calls := ∅; clock := t;
     trace := []; next_sequence := 0 |}.

Definition set_queue (q : list Queue.row) (w : World) : World :=
  {| call_queue := q; last_queue_id := last_queue_id w; calls := calls w;
     clock := clock w; trace := trace w; next_sequence := next_sequence w |}.
Definition set_calls (m : gmap string Calls.row) (w : World) : World :=
  {| call_queue := call_queue w; last_queue_id := last_queue_id w; calls := m;
     clock := clock w; trace := trace w; next_sequence := next_sequence w |}.
Definition set_clock (t : Z) (w : World) : World :=
  {| call_queue := call_queue w; last_queue_id := last_queue_id w;
     calls := calls w; clock := t; trace := trace w;
     next_sequence := next_sequence w |}.
Definition log (c : Cmd) (w : World) : World :=
  {| call_queue := call_queue w; last_queue_id := last_queue_id w;
     calls := calls w; clock := clock w; trace := trace w ++ [c];
     next_sequence := next_sequence w |}.

(** [INSERT INTO call_queue]: [queue_id] is [AUTOINCREMENT]. *)
Definition insert_queue (r : Queue.row) (w : World) : World :=
  {| call_queue := call_queue w ++ [Queue.with_queue_id (last_queue_id w + 1) r];
     last_queue_id := last_queue_id w + 1; calls := calls w; clock := clock w;
     trace := trace w; next_sequence := next_sequence w |}.

Definition take_sequence (w : World) : World :=
  {| call_queue := call_queue w; last_queue_id := last_queue_id w;
     calls := calls w; clock := clock w; trace := trace w;
     next_sequence := S (next_sequence w) |}.

(** [WHERE status = 'pending' AND scheduled_at <= ? ORDER BY scheduled_at ASC
    LIMIT ?]; ties keep the insertion order. *)
Fixpoint insert_by_scheduled_at (r : Queue.row) (l : list Queue.row) : list Queue.row :=
  match l with
  | [] => [r]
  | x :: l' =>
      if Queue.scheduled_at r <=? Queue.scheduled_at x then r :: l
      else x :: insert_by_scheduled_at r l'
  end.

Definition is_due (now : Z) (r : Queue.row) : bool :=
  String.eqb (Queue.status r) "pending" && (Queue.scheduled_at r <=? now).

Definition select_due (now limit : Z) (q : list Queue.row) : list Queue.row :=
  take (Z.to_nat limit) (foldr insert_by_scheduled_at [] (filter (λ r, is_due now r = true) q)).

(** [UPDATE call_queue SET ... WHERE queue_id = ? AND status = 'pending']. *)
Definition claims (id : Z) (r : Queue.row) : bool :=
  (Queue.queue_id r =? id) && String.eqb (Queue.status r) "pending".

Definition mark_processing (id now : Z) (q : list Queue.row) : list Queue.row :=
  map (λ r, if claims id r then Queue.with_attempt "processing" now r else r) q.

Definition mark_failed (id : Z) (message : string) (q : list Queue.row) : list Queue.row :=
  map (λ r, if Queue.queue_id r =? id then Queue.with_error "failed" message r else r) q.

Definition delete_queue (id : Z) (q : list Queue.row) : list Queue.row :=
  filter (λ r, Queue.queue_id r ≠ id) q.

(** What one command does to the world, and what it answers.  Database
    statements always execute; the carrier and the agent provider answer
    as the host says. *)
Definition exec (h : Host) (c : Cmd) (w0 : World) : World * answer c :=
  let n := length (trace w0) in
  let w := log c w0 in
  match c as c' return World * answer c' with
  | DbGetCall sid => (w, calls w !! sid)
  | DbReplaceCall sid r => (set_calls (<[sid := r]> (calls w)) w, ())
  | DbUpdateCall sid p => (set_calls (alter (apply_patch p) sid (calls w)) w, ())
  | DbInsertQueue r => (insert_queue r w, last_queue_id w + 1)
  | DbSelectDue now limit => (w, select_due now limit (call_queue w))
  | DbMarkProcessing id now =>
      (set_queue (mark_processing id now (call_queue w)) w,
       Z.of_nat (length (filter (λ r, claims id r = true) (call_queue w))))
  | DbMarkFailed id message => (set_queue (mark_failed id message (call_queue w)) w, ())
  | DbDeleteQueue id => (set_queue (delete_queue id (call_queue w)) w, ())
  | Clock => (w, clock w)
  | Sleep ms => (set_clock (clock w + ms) w, ())
  | TwilioCreate options => (w, twilio_create h n options)
  | TwilioFetch sid => (w, twilio_fetch h n sid)
  | TwilioComplete sid => (w, twilio_complete h n sid)
  | TwilioListActive => (w, twilio_active h n)
  | SignedUrl => (w, signed_url h n)
  | Slack _ => (w, ())
  | FreshSequence => (take_sequence w, next_sequence w)
  end.

(** Programs: a result, or a command and what to do with its answer. *)
Inductive prog (A : Type) : Type :=
| Ret (a : A)
| Vis (c : Cmd) (k : answer c → prog A).
Arguments Ret {A} a.
Arguments Vis {A} c k.

Fixpoint bind {A B : Type} (p : prog A) (f : A → prog B) : prog B :=
  match p with
  | Ret a => f a
  | Vis c k => Vis c (λ x, bind (k x) f)
  end.

Declare Scope prog_scope.
Delimit Scope prog_scope with prog.
Bind Scope prog_scope with prog.
Notation "x ← y ; z" := (bind y (λ x : _, z))
  (at level 20, y at level 100, z at level 200, only parsing) : prog_scope.
Notation "x ;; z" := (bind x (λ _, z))
  (at level 100, z at level 200, only parsing, right associativity) : prog_scope.
Local Open Scope prog_scope.

Definition perform (c : Cmd) : prog (answer c) := Vis c Ret.

(** The commands, with the types of their answers spelled out. *)
Definition dbGetCall (callSid : string) : prog (option Calls.row) :=
  perform (DbGetCall callSid).
Definition dbReplaceCall (callSid : string) (r : Calls.row) : prog unit :=
  perform (DbReplaceCall callSid r).
Definition dbUpdateCall (callSid : string) (p : Patch) : prog unit :=
  perform (DbUpdateCall callSid p).
Definition dbInsertQueue (r : Queue.row) : prog Z := perform (DbInsertQueue r).
Definition dbSelectDue (now limit : Z) : prog (list Queue.row) :=
  perform (DbSelectDue now limit).
Definition dbMarkProcessing (queue_id now : Z) : prog Z :=
  perform (DbMarkProcessing queue_id now).
Definition dbMarkFailed (queue_id : Z) (message : string) : prog unit :=
  perform (DbMarkFailed queue_id message).
Definition dbDeleteQueue (queue_id : Z) : prog unit := perform (DbDeleteQueue queue_id).
Definition newDate : prog Z := perform Clock.
Definition sleep (ms : Z) : prog unit := perform (Sleep ms).
Definition twilioCreate (options : CallOptions.t) : prog (Outcome string) :=
  perform (TwilioCreate options).
Definition twilioFetch (callSid : string) : prog (Outcome string) :=
  perform (TwilioFetch callSid).
Definition twilioComplete (callSid : string) : prog (Outcome unit) :=
  perform (TwilioComplete callSid).
Definition twilioListActive : prog (Outcome Z) := perform TwilioListActive.
Definition fetchSignedUrl : prog (Outcome string) := perform SignedUrl.
Definition slack (n : Notification) : prog unit := perform (Slack n).
Definition freshSequence : prog nat := perform FreshSequence.

(** Running a program to its end, with nothing else in between. *)
Fixpoint run {A : Type} (h : Host) (p : prog A) (w : World) : World * A :=
  match p with
  | Ret a => (w, a)
  | Vis c k => run h (k (exec h c w).2) (exec h c w).1
  end.

(** One command of a program; the rest stays suspended. *)
Definition step {A : Type} (h : Host) (p : prog A) (w : World) : World * prog A :=
  match p with
  | Ret a => (w, Ret a)
  | Vis c k => ((exec h c w).1, k (exec h c w).2)
  end.

(** Two requests in flight: the schedule says whose command runs next
    ([true] for the first). *)
Fixpoint interleave {A B : Type} (h : Host) (schedule : list bool)
    (p : prog A) (q : prog B) (w : World) : World * prog A * prog B :=
  match schedule with
  | [] => (w, p, q)
  | true :: s => interleave h s (step h p w).2 q (step h p w).1
  | false :: s => interleave h s p (step h q w).2 (step h q w).1
  end.

Definition finished {A : Type} (p : prog A) : option A :=
  match p with
  | Ret a => Some a
  | Vis _ _ => None
  end.

(** What a history shows: the notifications sent, the calls created, the
    lookups of a call-id. *)
Definition notifications (tr : list Cmd) : list Notification :=
  omap (λ c, match c with Slack n => Some n | _ => None end) tr.

Definition calls_created (tr : list Cmd) : list CallOptions.t :=
  omap (λ c, match c with TwilioCreate o => Some o | _ => None end) tr.

Definition queue_inserts (tr : list Cmd) : list Queue.row :=
  omap (λ c, match c with DbInsertQueue r => Some r | _ => None end) tr.

(** ** callDataDb.js *)

Definition getCallData (callSid : option string) : prog (option CallData.t) :=
  if truthy callSid then
    row ← dbGetCall (default "" callSid);
    Ret (CallData.of_row <$> row)
  else Ret None.

Definition setCallData (callSid : option string) (data : CallData.t) : prog unit :=
  if truthy callSid then
    dbReplaceCall (default "" callSid) (CallData.to_row data)
  else Ret ().

Definition updateCallData (callSid : option string) (dataToUpdate : Patch) : prog unit :=
  if truthy callSid then dbUpdateCall (default "" callSid) dataToUpdate
  else Ret ().

(** ** outgoing-call.js: scheduleRetry *)

Definition MAX_TOTAL_ATTEMPTS : Z := 10.

Inductive ScheduleConfig : Type :=
| immediate
| delay (hours : Z)
| next_time_at (hour : Z).

Definition RETRY_SCHEDULE : list ScheduleConfig :=
  [ immediate; delay 1; immediate; next_time_at 9; immediate;
    next_time_at 14; immediate; next_time_at 19; immediate ].

(** [RETRY_SCHEDULE[i] || { type: 'immediate' }] *)
Definition schedule_config (i : Z) : ScheduleConfig :=
  if i <? 0 then immediate else default immediate (RETRY_SCHEDULE !! Z.to_nat i).

Record RetryOptions : Type := {
  reason : option string;
  forceImmediate : bool
}.

(** The instant the retry is scheduled at; the clock is read in the branch
    taken, as in the source. *)
Definition scheduled_at_base (z : Zone) (options : RetryOptions)
    (scheduleConfig : ScheduleConfig) : prog Z :=
  _ ← newDate;
  if forceImmediate options then newDate
  else match scheduleConfig with
       | immediate => newDate
       | delay hours =>
           let delayMs := hours * 60 * 60 * 1000 in
           now ← newDate; Ret (now + delayMs)
       | next_time_at hour =>
           now ← newDate; Ret (next_time z hour now)
       end.

Definition outbound_twiml_url (h : Host) (query : string) : string :=
  PUBLIC_URL h +:+ routePrefix h +:+ "/outbound-call-twiml?" +:+ query.

Definition call_status_url (h : Host) : string :=
  PUBLIC_URL h +:+ routePrefix h +:+ "/call-status".

Definition call_options (h : Host) (to url : string) : CallOptions.t :=
  {| CallOptions.from := OUTGOING_TWILIO_PHONE_NUMBER h;
     CallOptions.to := to;
     CallOptions.url := url;
     CallOptions.timeout := 25;
     CallOptions.timeLimit := 900;
     CallOptions.statusCallback := call_status_url h;
     CallOptions.statusCallbackEvent := ["initiated"; "ringing"; "answered"; "completed"];
     CallOptions.machineDetection := "Enable";
     CallOptions.asyncAmd := true;
     CallOptions.asyncAmdStatusCallback := call_status_url h |}.

Definition scheduleRetry (h : Host) (callDataForRetryLogic : CallData.t)
    (failedCallSid : option string) (options : RetryOptions) : prog unit :=
  let call := callDataForRetryLogic in
  let currentAttemptNumber := default 0 (CallData.retry_count call) in
  firstAttemptTimestamp ←
    match CallData.first_attempt_timestamp call with
    | Some t => Ret t
    | None => newDate
    end;
  if currentAttemptNumber >=? MAX_TOTAL_ATTEMPTS - 1 then
    slack (NonFatal "Outgoing Call: Max Attempts Reached")
  else
    let nextAttemptNumberForDB := currentAttemptNumber + 1 in
    let scheduleConfig := schedule_config (nextAttemptNumberForDB - 1) in
    scheduled_at ← scheduled_at_base (tz h) options scheduleConfig;
    let safeTo := or_null (js_or (CallData.phone call) (CallData.to call)) in
    let safeContactId :=
      or_null (js_or (CallData.contactId call) (CallData.contact_id call)) in
    let safeFirstName :=
      or_empty (js_or (CallData.firstName call) (CallData.first_name call)) in
    let safeFullName :=
      or_empty (js_or (CallData.fullName call) (CallData.full_name call)) in
    let safeEmail := or_empty (CallData.email call) in
    let safeAddress :=
      or_empty (js_or (CallData.full_address call) (CallData.address call)) in
    if negb (truthy safeTo) || negb (truthy safeContactId) then
      slack (NonFatal "Outgoing Call: Retry Scheduling Skipped - Missing Data")
    else
      let enc := encodeURIComponent h in
      let to := default "" safeTo in
      let contactId := default "" safeContactId in
      let twimlUrl :=
        outbound_twiml_url h
          ("firstName=" +:+ enc safeFirstName +:+ "&fullName=" +:+ enc safeFullName
           +:+ "&email=" +:+ enc safeEmail +:+ "&phone=" +:+ enc to
           +:+ "&contactId=" +:+ enc contactId
           +:+ "&full_address=" +:+ enc safeAddress) in
      _ ← dbInsertQueue (
        {| Queue.queue_id := 0;
           Queue.contact_id := contactId;
           Queue.phone_number := to;
           Queue.first_name := Some safeFirstName;
           Queue.full_name := Some safeFullName;
           Queue.email := Some safeEmail;
           Queue.full_address := Some safeAddress;
           Queue.retry_stage := nextAttemptNumberForDB;
           Queue.status := "pending";
           Queue.scheduled_at := scheduled_at;
           Queue.first_attempt_timestamp := Some firstAttemptTimestamp;
           Queue.last_attempt_at := None;
           Queue.last_error := None;
           Queue.call_options_json := call_options h to twimlUrl;
           Queue.initial_signed_url := CallData.signedUrl call;
           Queue.sequence := CallData.sequence call |});
      Ret ().

(** ** outgoing-call.js: POST /call-status *)

Record StatusRequest : Type := {
  CallSid : option string;
  CallStatus : option string;
  AnsweredBy : option string;
  To : option string
}.

Record Reply : Type := { code : Z; body : string }.

Definition machineDetectionStatuses : list string :=
  [ "machine_start"; "fax"; "machine_beep"; "machine_end_silence";
    "machine_end_other"; "machine_end_beep" ].

(** [v && machineDetectionStatuses.includes(String(v).toLowerCase())] *)
Definition is_machine (v : option string) : bool :=
  truthy v && includes machineDetectionStatuses (toLowerCase <$> v).

Definition isMachineDetected (req : StatusRequest) (call : CallData.t) : bool :=
  is_machine (AnsweredBy req) || is_machine (CallData.answeredBy call).

Definition isRetryableFailure (req : StatusRequest) (call : CallData.t) : bool :=
  (includes ["completed"; "canceled"] (CallStatus req) && isMachineDetected req call)
  || is_string (CallStatus req) "no-answer"
  || is_string (CallStatus req) "busy"
  || is_string (CallStatus req) "failed".

Definition terminal_statuses : list string := ["completed"; "canceled"; "failed"].

(** [AnsweredBy !== currentAnsweredBy] *)
Definition differs (a b : option string) : bool :=
  match a, b with
  | Some x, Some y => negb (String.eqb x y)
  | None, None => false
  | _, _ => true
  end.

Definition failed_to_end_call : Notification :=
  NonFatal "Outgoing Call: Failed to End Call After Machine Detection".

(** The [try] block of the machine-detected branch: set the flag, then ask
    the carrier to end the call unless it already ended; an error of the
    carrier is reported and swallowed. *)
Definition end_call_after_machine_detection (callSid : option string) : prog unit :=
  updateCallData callSid (patch_retry_scheduled 1);;
  currentCallState ← twilioFetch (default "" callSid);
  match currentCallState with
  | thrown _ => slack failed_to_end_call
  | returned st =>
      if negb (includes terminal_statuses (Some st)) then
        r ← twilioComplete (default "" callSid);
        match r with
        | thrown _ => slack failed_to_end_call
        | returned _ => Ret ()
        end
      else Ret ()
  end.

(** The classification of the callback is persisted when it is new.  (The
    source also stores it in the local [call] object, which nothing reads
    afterwards.) *)
Definition record_answeredBy (req : StatusRequest) (call : CallData.t) : prog unit :=
  if truthy (AnsweredBy req) && differs (AnsweredBy req) (CallData.answeredBy call)
  then updateCallData (CallSid req) (patch_answeredBy (default "" (AnsweredBy req)))
  else Ret ().

(** The handler once the row is found. *)
Definition handle_status (h : Host) (req : StatusRequest) (call : CallData.t) : prog Reply :=
  if negb (default 0 (CallData.retry_scheduled call) =? 0) then
    Ret {| code := 200; body := "OK. Retry already handled." |}
  else
    let machine := isMachineDetected req call in
    record_answeredBy req call;;
    if machine && negb (includes terminal_statuses (CallStatus req)) then
      end_call_after_machine_detection (CallSid req);;
      scheduleRetry h call (CallSid req)
        {| reason := Some "machine_detected"; forceImmediate := false |};;
      Ret {| code := 200; body := "OK. Machine detected, call ended, retry scheduled." |}
    else if isRetryableFailure req call then
      updateCallData (CallSid req) (patch_retry_scheduled 1);;
      scheduleRetry h call (CallSid req)
        {| reason := Some "retryable_failure"; forceImmediate := false |};;
      Ret {| code := 200; body := "OK. Retryable failure, retry scheduled." |}
    else if is_string (CallStatus req) "completed" && negb machine then
      slack (Positive "Outgoing Call: Successful Human Connection");;
      Ret {| code := 200; body := "OK. Human answered, no retry." |}
    else if includes ["completed"; "canceled"] (CallStatus req) && negb machine then
      Ret {| code := 200; body := "OK. Call ended, no retry." |}
    else Ret {| code := 200; body := "OK" |}.

Definition call_status (h : Host) (req : StatusRequest) : prog Reply :=
  call ← getCallData (CallSid req);
  match call with
  | Some call => handle_status h req call
  | None =>
      sleep 2000;;
      call ← getCallData (CallSid req);
      match call with
      | Some call => handle_status h req call
      | None =>
          slack (NonFatal "Outgoing Call: Status Data Missing");;
          Ret {| code := 200;
                 body := "OK. No call data found in calls table after retry." |}
      end
  end.

(** ** outgoing-call.js: POST /outbound-call *)

(** The request body, with the synonyms the handler accepts. *)
Module Body.
Record t : Type := {
  phone : option string;
  phoneNumber : option string;
  phone_number : option string;
  Phone : option string;
  contact_id : option string;
  contactId : option string;
  id : option string;
  Id : option string;
  first_name : option string;
  firstName : option string;
  FirstName : option string;
  last_name : option string;
  lastName : option string;
  LastName : option string;
  full_name : option string;
  fullName : option string;
  name : option string;
  Name : option string;
  email : option string;
  Email : option string;
  full_address : option string;
  fullAddress : option string;
  address : option string
}.
End Body.

Inductive OutboundReply : Type :=
| Accepted (queueId : Z)
| BadRequest (error : string)
| ServerError (error : string).

Fixpoint drop_chars (n : nat) (s : string) : string :=
  match n, s with
  | O, _ => s
  | S n', String _ s' => drop_chars n' s'
  | S _, EmptyString => EmptyString
  end.

Definition is_space (c : ascii) : bool :=
  let n := nat_of_ascii c in ((9 <=? n) && (n <=? 13) || (n =? 32))%nat.

Fixpoint trim_start (s : string) : string :=
  match s with
  | String c s' => if is_space c then trim_start s' else s
  | EmptyString => EmptyString
  end.

Definition trim (s : string) : string :=
  String.rev (trim_start (String.rev (trim_start s))).

(** [s.split(" ").slice(1).join(" ")]: what follows the first space. *)
Fixpoint after_first_space (s : string) : string :=
  match s with
  | String c s' => if Ascii.eqb c " " then s' else after_first_space s'
  | EmptyString => EmptyString
  end.

Definition derivedLastName (lastName fullName firstName : option string) : string :=
  if truthy lastName then default "" lastName
  else if truthy fullName && truthy firstName
          && String.prefix (default "" firstName) (default "" fullName)
  then trim (drop_chars (String.length (default "" firstName)) (default "" fullName))
  else if truthy fullName then trim (after_first_space (default "" fullName))
  else "".

(** [getSignedUrl]: a refusal of the provider is reported, then thrown. *)
Definition getSignedUrl : prog (Outcome string) :=
  r ← fetchSignedUrl;
  match r with
  | returned u => Ret (returned u)
  | thrown m =>
      slack (NonFatal "ElevenLabs Signed URL Failure");; Ret (thrown m)
  end.

Definition outbound_call (h : Host) (b : Body.t) : prog OutboundReply :=
  let toPhoneValue :=
    js_or (js_or (js_or (Body.phone b) (Body.phoneNumber b)) (Body.phone_number b))
          (Body.Phone b) in
  let contactId :=
    js_or (js_or (js_or (js_or (Body.contact_id b) (Body.contactId b))
                        (Body.contact_id b)) (Body.id b)) (Body.Id b) in
  let firstName :=
    js_or (js_or (js_or (Body.first_name b) (Body.firstName b)) (Body.first_name b))
          (Body.FirstName b) in
  let lastName := js_or (js_or (Body.last_name b) (Body.lastName b)) (Body.LastName b) in
  let fullName :=
    js_or (js_or (js_or (js_or (Body.full_name b) (Body.fullName b))
                        (Body.full_name b)) (Body.name b)) (Body.Name b) in
  let emailValue := js_or (Body.email b) (Body.Email b) in
  let address :=
    or_empty (js_or (js_or (js_or (Body.full_address b) (Body.full_address b))
                           (Body.fullAddress b)) (Body.address b)) in
  if negb (truthy toPhoneValue) || negb (truthy contactId) then
    slack (NonFatal "Outbound Call: Missing Parameters");;
    Ret (BadRequest "phone and contactId are required")
  else
    signedUrl ← getSignedUrl;
    match signedUrl with
    | thrown message =>
        slack (NonFatal "Outbound Call: Initial Queuing Failed");;
        Ret (ServerError message)
    | returned signedUrl =>
        let enc := encodeURIComponent h in
        let to := default "" toPhoneValue in
        let url :=
          outbound_twiml_url h
            ("firstName=" +:+ enc (or_empty firstName)
             +:+ "&lastName=" +:+ enc (derivedLastName lastName fullName firstName)
             +:+ "&fullName=" +:+ enc (or_empty fullName)
             +:+ "&email=" +:+ enc (or_empty emailValue)
             +:+ "&phone=" +:+ enc to
             +:+ "&contactId=" +:+ enc (default "" contactId)
             +:+ "&full_address=" +:+ enc address) in
        scheduled_at ← newDate;
        firstAttemptTimestamp ← newDate;
        sequence ← freshSequence;
        lastID ← dbInsertQueue
          {| Queue.queue_id := 0;
             Queue.contact_id := default "" contactId;
             Queue.phone_number := to;
             Queue.first_name := firstName;
             Queue.full_name := fullName;
             Queue.email := emailValue;
             Queue.full_address := Some address;
             Queue.retry_stage := 0;
             Queue.status := "pending";
             Queue.scheduled_at := scheduled_at;
             Queue.first_attempt_timestamp := Some firstAttemptTimestamp;
             Queue.last_attempt_at := None;
             Queue.last_error := None;
             Queue.call_options_json := call_options h to url;
             Queue.initial_signed_url := Some signedUrl;
             Queue.sequence := sequence |};
        slack (Positive "Outgoing Call Successfully Queued");;
        Ret (Accepted lastID)
    end.

(** ** The queue processor *)

(** [callError.message || 'Unknown call initiation error'] *)
Definition error_message (message : string) : string :=
  if String.eqb message "" then "Unknown call initiation error" else message.

Definition countActiveTwilioCalls (h : Host) : prog Z :=
  r ← twilioListActive;
  match r with
  | returned n => Ret n
  | thrown _ => Ret (MAX_ACTIVE h)
  end.

(** The body of the loop over the selected jobs.  The result of the
    guarded [UPDATE] (its count of changed rows) is not looked at. *)
Definition process_job (callJob : Queue.row) : prog unit :=
  now ← newDate;
  _ ← dbMarkProcessing (Queue.queue_id callJob) now;
  callRecord ← twilioCreate (Queue.call_options_json callJob);
  match callRecord with
  | thrown message => dbMarkFailed (Queue.queue_id callJob) (error_message message)
  | returned sid =>
      created_at ← newDate;
      setCallData (Some sid)
        {| CallData.to := Some (Queue.phone_number callJob);
           CallData.phone := None;
           CallData.contactId := Some (Queue.contact_id callJob);
           CallData.contact_id := None;
           CallData.retry_count := Some (Queue.retry_stage callJob);
           CallData.status := Some "initiated";
           CallData.created_at := Some created_at;
           CallData.signedUrl := Queue.initial_signed_url callJob;
           CallData.fullName := Queue.full_name callJob;
           CallData.full_name := None;
           CallData.firstName := Queue.first_name callJob;
           CallData.first_name := None;
           CallData.email := Queue.email callJob;
           CallData.answeredBy := None;
           CallData.conversationId := None;
           CallData.first_attempt_timestamp := Queue.first_attempt_timestamp callJob;
           CallData.full_address := Queue.full_address callJob;
           CallData.address := None;
           CallData.retry_scheduled := None;
           CallData.sequence := Queue.sequence callJob |};;
      verifyCallData ← getCallData (Some sid);
      match verifyCallData with
      | None =>
          slack (NonFatal "Queue Processor: Critical - Failed to Store Call Data");;
          dbMarkFailed (Queue.queue_id callJob)
            ("Call data verification failed - unable to retrieve stored data for SID "
             +:+ sid)
      | Some _ => dbDeleteQueue (Queue.queue_id callJob)
      end
  end.

Fixpoint for_each {A : Type} (l : list A) (body : A → prog unit) : prog unit :=
  match l with
  | [] => Ret ()
  | x :: l' => body x;; for_each l' body
  end.

Definition processCallQueue (h : Host) : prog unit :=
  currentActiveCalls ← countActiveTwilioCalls h;
  let availableSlots := MAX_ACTIVE h - currentActiveCalls in
  if availableSlots <=? 0 then Ret ()
  else
    now ← newDate;
    pendingCalls ← dbSelectDue now availableSlots;
    for_each pendingCalls process_job.

(** ** The service as a whole *)

(** What can happen to the service: a request on one of the two HTTP
    routes, a tick of the queue processor, or time passing.  Each is run
    to its end before the next begins. *)
Inductive Action : Type :=
| act_outbound_call (b : Body.t)
| act_call_status (req : StatusRequest)
| act_tick
| act_elapse (ms : Z).

Definition act (h : Host) (a : Action) (w : World) : World :=
  match a with
  | act_outbound_call b => (run h (outbound_call h b) w).1
  | act_call_status req => (run h (call_status h req) w).1
  | act_tick => (run h (processCallQueue h) w).1
  | act_elapse ms => set_clock (clock w + Z.max 0 ms) w
  end.

Inductive reachable (h : Host) : World → Prop :=
| reach_start t : reachable h (empty_world t)
| reach_act w a : reachable h w → reachable h (act h a w).


(** ** The media bridge (WS /outbound-media-stream) *)

Module Bridge.

Inductive ReadyState : Type := CONNECTING | OPEN | CLOSING | CLOSED.

Definition is_open (s : option ReadyState) : bool :=
  match s with
  | Some OPEN => true
  | _ => false
  end.

Inductive frame : Type :=
| conversation_initiation_client_data
| user_audio (payload : string)
| pong (event_id : string)
| media (streamSid payload : string)
| clear (streamSid : string).

(** What a handler does to the outside. *)
Inductive effect : Type :=
| to_agent (f : frame)
| to_carrier (f : frame)
| close_agent
| close_carrier
| notify (n : Notification).

(** [connectionState], the carrier socket [ws] and what was done so far.
    [elevenLabsWs] is [None] until [setupElevenLabs] creates the socket. *)
Record state : Type := {
  streamSid : option string;
  callSid : option string;
  elevenLabsWs : option ReadyState;
  ws : ReadyState;
  effects : list effect
}.

Definition initial : state :=
  {| streamSid := None; callSid := None; elevenLabsWs := None; ws := OPEN;
     effects := [] |}.

Inductive event : Type :=
| carrier_start (streamSid callSid : string) (signedUrl : Outcome string)
| carrier_media (payload : string)
| carrier_stop
| carrier_other
| carrier_close
| carrier_error
| agent_open
| agent_audio (payload : option string)
| agent_interruption
| agent_ping (event_id : option string)
| agent_error
| agent_close (code : Z).

Definition emit (es : list effect) (s : state) : state :=
  {| streamSid := streamSid s; callSid := callSid s;
     elevenLabsWs := elevenLabsWs s; ws := ws s; effects := effects s ++ es |}.

Definition set_agent (a : option ReadyState) (s : state) : state :=
  {| streamSid := streamSid s; callSid := callSid s; elevenLabsWs := a;
     ws := ws s; effects := effects s |}.

Definition set_ws (r : ReadyState) (s : state) : state :=
  {| streamSid := streamSid s; callSid := callSid s;
     elevenLabsWs := elevenLabsWs s; ws := r; effects := effects s |}.

(** [connectionState.elevenLabsWs.close()] on an open socket. *)
Definition close_elevenLabsWs (s : state) : state :=
  emit [close_agent] (set_agent (Some CLOSING) s).

(** The listeners, by the event they are registered for. *)
Definition handle (s : state) (e : event) : state :=
  match e with
  | carrier_start sid csid signedUrl =>
      let s := {| streamSid := Some sid; callSid := Some csid;
                  elevenLabsWs := elevenLabsWs s; ws := ws s;
                  effects := effects s |} in
      let s := emit [notify (Positive "Twilio: Media Stream Started")] s in
      match signedUrl with
      | returned _ => set_agent (Some CONNECTING) s
      | thrown _ => emit [notify (NonFatal "ElevenLabs: Setup Error")] s
      end
  | carrier_media payload =>
      if is_open (elevenLabsWs s) then emit [to_agent (user_audio payload)] s else s
  | carrier_stop =>
      if is_open (elevenLabsWs s) then close_elevenLabsWs s else s
  | carrier_other => s
  | carrier_close =>
      let s := set_ws CLOSED s in
      if is_open (elevenLabsWs s) then close_elevenLabsWs s else s
  | carrier_error => emit [notify (NonFatal "WebSocket: Error")] s
  | agent_open =>
      let s := set_agent (Some OPEN) s in
      emit [ notify (Positive "ElevenLabs: WebSocket Connection Established");
             to_agent conversation_initiation_client_data ] s
  | agent_audio payload =>
      match streamSid s, payload with
      | Some sid, Some p =>
          if truthy (Some sid) && truthy (Some p) then
            match ws s with
            | OPEN => emit [to_carrier (media sid p)] s
            | _ => s
            end
          else s
      | _, _ => s
      end
  | agent_interruption =>
      match streamSid s with
      | Some sid => if truthy (Some sid) then emit [to_carrier (clear sid)] s else s
      | None => s
      end
  | agent_ping event_id =>
      match event_id with
      | Some i =>
          if truthy (Some i) && is_open (elevenLabsWs s)
          then emit [to_agent (pong i)] s else s
      | None => s
      end
  | agent_error => emit [notify (NonFatal "ElevenLabs: WebSocket Error")] s
  | agent_close code =>
      let s := set_agent (Some CLOSED) s in
      if negb (code =? 1000)
      then emit [notify (NonFatal "ElevenLabs: WebSocket Unexpected Close")] s
      else s
  end.

Definition handle_all (s : state) (es : list event) : state := foldl handle s es.

(** The carrier socket has been closed, or told to close. *)
Definition carrier_closed (before after : state) : Prop :=
  ws after = CLOSING ∨ ws after = CLOSED ∨
  close_carrier ∈ drop (length (effects before)) (effects after).

Definition agent_closed (before after : state) : Prop :=
  close_agent ∈ drop (length (effects before)) (effects after).

End Bridge.

(** ** Vocabulary of the properties *)

(** Nothing of the store, the clock or the counters differs. *)
Definition same_store (w w' : World) : Prop :=
  call_queue w' = call_queue w ∧ calls w' = calls w
  ∧ last_queue_id w' = last_queue_id w ∧ clock w' = clock w
  ∧ next_sequence w' = next_sequence w.

(** The clock read [scheduleRetry] makes when the call data carries no
    first-attempt timestamp. *)
Definition timestamp_read (call : CallData.t) : list Cmd :=
  match CallData.first_attempt_timestamp call with
  | Some _ => []
  | None => [Clock]
  end.

(** The call data names a destination and a contact. *)
Definition has_destination (call : CallData.t) : bool :=
  truthy (CallData.phone call) || truthy (CallData.to call).
Definition has_contact (call : CallData.t) : bool :=
  truthy (CallData.contactId call) || truthy (CallData.contact_id call).

Definition attempt_of (call : CallData.t) : Z := default 0 (CallData.retry_count call).

(** The instant [scheduleRetry] computes for the retry that follows
    attempt [i], read off the code's table. *)
Definition retry_instant (z : Zone) (options : RetryOptions) (i now : Z) : Z :=
  if forceImmediate options then now
  else match schedule_config i with
       | immediate => now
       | delay hours => now + hours * 60 * 60 * 1000
       | next_time_at hour => next_time z hour now
       end.

(** [r] is the row [scheduleRetry] inserts for [call] at time [now]. *)
Definition is_retry_row (h : Host) (call : CallData.t) (options : RetryOptions)
    (now : Z) (r : Queue.row) : Prop :=
  Queue.retry_stage r = attempt_of call + 1
  ∧ Queue.status r = "pending"
  ∧ Queue.scheduled_at r = retry_instant (tz h) options (attempt_of call) now
  ∧ Queue.first_attempt_timestamp r
    = Some (default now (CallData.first_attempt_timestamp call))
  ∧ Queue.sequence r = CallData.sequence call
  ∧ Some (Queue.phone_number r) = js_or (CallData.phone call) (CallData.to call)
  ∧ Some (Queue.contact_id r) = js_or (CallData.contactId call) (CallData.contact_id call).

(** The rows one call of [scheduleRetry] adds: one when the ladder is not
    exhausted and the call data names a phone and a contact, else none. *)
Definition retries_scheduled (h : Host) (call : CallData.t) (options : RetryOptions)
    (now : Z) (new : list Queue.row) : Prop :=
  if (attempt_of call <? MAX_TOTAL_ATTEMPTS - 1)
     && has_destination call && has_contact call
  then ∃ r, new = [r] ∧ is_retry_row h call options now r
  else new = [].

(** The table [calls] once [record_answeredBy] has run. *)
Definition answeredBy_recorded (req : StatusRequest) (call : CallData.t)
    (sid : string) (m : gmap string Calls.row) : gmap string Calls.row :=
  if truthy (AnsweredBy req) && differs (AnsweredBy req) (CallData.answeredBy call)
  then alter (apply_patch (patch_answeredBy (default "" (AnsweredBy req)))) sid m
  else m.

(** ** Invariants of the store *)

Definition stage_ok (r : Queue.row) : Prop :=
  0 ≤ Queue.retry_stage r ≤ MAX_TOTAL_ATTEMPTS - 1.
Definition count_ok (r : Calls.row) : Prop :=
  0 ≤ Calls.retry_count r ≤ MAX_TOTAL_ATTEMPTS - 1.

(** A record of sequence [s] carries the timestamp [F s] of its sequence;
    sequences are numbered below [n]. *)
Definition stamped (F : nat → Z) (n : nat) (s : nat) (t : option Z) : Prop :=
  t = Some (F s) ∧ (s < n)%nat.

Definition queue_row_ok (F : nat → Z) (n : nat) (r : Queue.row) : Prop :=
  stage_ok r ∧ stamped F n (Queue.sequence r) (Queue.first_attempt_timestamp r).
Definition call_row_ok (F : nat → Z) (n : nat) (r : Calls.row) : Prop :=
  count_ok r ∧ stamped F n (Calls.sequence r) (Calls.first_attempt_timestamp r).
Definition call_data_ok (F : nat → Z) (n : nat) (call : CallData.t) : Prop :=
  (∃ c, CallData.retry_count call = Some c ∧ 0 ≤ c ≤ MAX_TOTAL_ATTEMPTS - 1)
  ∧ stamped F n (CallData.sequence call) (CallData.first_attempt_timestamp call).

(** The rows of [calls] ever written by [setCallData]. *)
Definition call_writes (tr : list Cmd) : list Calls.row :=
  omap (λ c, match c with DbReplaceCall _ r => Some r | _ => None end) tr.

(** Every row in the tables, and every row ever written, is in order. *)
Definition consistent (F : nat → Z) (w : World) : Prop :=
  Forall (queue_row_ok F (next_sequence w)) (call_queue w)
  ∧ map_Forall (λ _, call_row_ok F (next_sequence w)) (calls w)
  ∧ Forall (queue_row_ok F (next_sequence w)) (queue_inserts (trace w))
  ∧ Forall (call_row_ok F (next_sequence w)) (call_writes (trace w)).

(** A command writes rows that are in order, and starts no sequence. *)
Definition cmd_ok (F : nat → Z) (n : nat) (c : Cmd) : Prop :=
  match c with
  | DbInsertQueue r => queue_row_ok F n r
  | DbReplaceCall _ r => call_row_ok F n r
  | FreshSequence => False
  | _ => True
  end.

(** What a consistent store answers. *)
Definition answer_ok (F : nat → Z) (n : nat) (c : Cmd) : answer c → Prop :=
  match c with
  | DbGetCall _ => λ x, ∀ r, x = Some r → call_row_ok F n r
  | DbSelectDue _ _ => λ x, Forall (queue_row_ok F n) x
  | _ => λ _, True
  end.

(** A program issues only such commands, whatever a consistent store
    answers, and ends with a result in [Q]. *)
Fixpoint safe {A : Type} (F : nat → Z) (n : nat) (Q : A → Prop) (p : prog A) : Prop :=
  match p with
  | Ret a => Q a
  | Vis c k => cmd_ok F n c ∧ ∀ x, answer_ok F n c x → safe F n Q (k x)
  end.

(** ** Concrete hosts and stores for the examples *)

(** A host in Rome's winter time whose carrier accepts every call, naming
    it after the number of commands run so far, and reports every call as
    still in progress. *)
Definition demo_host : Host :=
  {| tz := cetZone;
     PUBLIC_URL := "https://caller.example";
     routePrefix := "/outgoing";
     OUTGOING_TWILIO_PHONE_NUMBER := "+390200000000";
     MAX_ACTIVE := 3;
     encodeURIComponent := λ s, s;
     twilio_create := λ n _, returned ("CA" +:+ pretty n);
     twilio_fetch := λ _ _, returned "in-progress";
     twilio_complete := λ _ _, returned ();
     twilio_active := λ _, returned 0;
     signed_url := λ _, returned "wss://agent.example/signed" |}.

(** The row the queue processor writes for a first attempt to Mario. *)
Definition mario_row (attempt : Z) : Calls.row :=
  {| Calls.phone := Some "+390123456789";
     Calls.contactId := Some "c1";
     Calls.retry_count := attempt;
     Calls.status := Some "initiated";
     Calls.created_at := Some (utcDate 2025 3 14 10 0 0);
     Calls.signedUrl := Some "wss://agent.example/signed";
     Calls.fullName := Some "Mario Rossi";
     Calls.firstName := Some "Mario";
     Calls.email := Some "m@x";
     Calls.answeredBy := None;
     Calls.conversationId := None;
     Calls.full_address := Some "";
     Calls.first_attempt_timestamp := Some (utcDate 2025 3 14 10 0 0);
     Calls.retry_scheduled := 0;
     Calls.sequence := 0 |}.

(** A store that tracks one call, [CA1], and has an empty queue. *)
Definition one_call_world (attempt : Z) : World :=
  {| call_queue := []; last_queue_id := 1;
     calls := {[ "CA1" := mario_row attempt ]};
     clock := utcDate 2025 3 14 10 15 0; trace := []; next_sequence := 1 |}.

Definition status_callback (status : string) (answeredBy : option string) : StatusRequest :=
  {| CallSid := Some "CA1"; CallStatus := Some status; AnsweredBy := answeredBy;
     To := Some "+390123456789" |}.

Definition mario_body : Body.t :=
  {| Body.phone := Some "+390123456789"; Body.phoneNumber := None;
     Body.phone_number := None; Body.Phone := None;
     Body.contact_id := Some "c1"; Body.contactId := None; Body.id := None;
     Body.Id := None; Body.first_name := Some "Mario"; Body.firstName := None;
     Body.FirstName := None; Body.last_name := None; Body.lastName := None;
     Body.LastName := None; Body.full_name := Some "Mario Rossi";
     Body.fullName := None; Body.name := None; Body.Name := None;
     Body.email := Some "m@x"; Body.Email := None; Body.full_address := None;
     Body.fullAddress := None; Body.address := None |}.

(** Two callbacks for [CA1] that arrive together when voicemail picks up:
    the carrier's status callback for the ended call, and its
    asynchronous answering-machine callback, which carries no status. *)
Definition completed_by_machine : StatusRequest :=
  status_callback "completed" (Some "machine_start").
Definition amd_callback : StatusRequest :=
  {| CallSid := Some "CA1"; CallStatus := None;
     AnsweredBy := Some "machine_start"; To := None |}.

(** Both handlers look the row up before either writes the flag; then the
    first runs to its end, then the second. *)
Definition both_read_first : list bool :=
  [true; false] ++ replicate 5 true ++ replicate 7 false.

(** The store after Mario's call was requested: one pending entry, due. *)
Definition one_job_world : World :=
  act demo_host (act_outbound_call mario_body)
    (empty_world (utcDate 2025 3 14 10 0 0)).

(** Two runs of the queue processor that overlap: both select the due
    entries before either marks one; then the first run initiates the
    call, then the second. *)
Definition both_select_first : list bool :=
  replicate 3 true ++ replicate 3 false ++ replicate 7 true ++ replicate 7 false.

(** Mario's first call is requested, initiated, and fails; a minute later
    the queue processor runs again. *)
Definition mario_fails_once : World :=
  act demo_host act_tick
    (act demo_host (act_elapse 60000)
       (act demo_host
          (act_call_status
             {| CallSid := Some "CA11"; CallStatus := Some "failed";
                AnsweredBy := None; To := Some "+390123456789" |})
          (act demo_host act_tick one_job_world))).

(** ** What a program issues, whatever it is answered *)

(** Every command the program can issue is in [P] and every result it can
    end with is in [Q], whatever the store, the carrier and the other
    requests in flight make of its commands. *)
Fixpoint emits {A : Type} (P : Cmd → Prop) (Q : A → Prop) (p : prog A) : Prop :=
  match p with
  | Ret a => Q a
  | Vis c k => P c ∧ ∀ x, emits P Q (k x)
  end.

(** The commands a run adds to the history. *)
Definition issued {A : Type} (h : Host) (p : prog A) (w : World) : list Cmd :=
  drop (length (trace w)) (trace (run h p w).1).

(** The commands of the status handler: it reads and patches [calls],
    appends to [call_queue], asks the carrier about a call and to end it. *)
Definition status_command (c : Cmd) : Prop :=
  match c with
  | DbGetCall _ | DbUpdateCall _ _ | DbInsertQueue _ | Clock | Sleep _
  | TwilioFetch _ | TwilioComplete _ | Slack _ => True
  | _ => False
  end.

(** The commands of the queue processor. *)
Definition processor_command (c : Cmd) : Prop :=
  match c with
  | TwilioListActive | Clock | DbSelectDue _ _ | DbMarkProcessing _ _
  | TwilioCreate _ | DbReplaceCall _ _ | DbGetCall _ | DbMarkFailed _ _
  | DbDeleteQueue _ | Slack _ => True
  | _ => False
  end.

(** The commands of the ingress. *)
Definition ingress_command (c : Cmd) : Prop :=
  match c with
  | SignedUrl | Clock | FreshSequence | DbInsertQueue _ | Slack _ => True
  | _ => False
  end.

(** The slots a run of the queue processor finds free: the cap minus the
    calls the carrier lists as active, none when the listing fails. *)
Definition available_slots (h : Host) (w : World) : Z :=
  MAX_ACTIVE h
  - match twilio_active h (length (trace w)) with
    | returned n => n
    | thrown _ => MAX_ACTIVE h
    end.

(** Earlier or at the same time in the schedule. *)
Definition not_after (a b : Queue.row) : Prop :=
  Queue.scheduled_at a ≤ Queue.scheduled_at b.

(** The row [process_job] writes for a job once the carrier has named the
    call. *)
Definition initiated_row (callJob : Queue.row) (created_at : Z) : Calls.row :=
  {| Calls.phone := Some (Queue.phone_number callJob);
     Calls.contactId := Some (Queue.contact_id callJob);
     Calls.retry_count := Queue.retry_stage callJob;
     Calls.status := Some "initiated";
     Calls.created_at := Some created_at;
     Calls.signedUrl := Queue.initial_signed_url callJob;
     Calls.fullName := Queue.full_name callJob;
     Calls.firstName := Queue.first_name callJob;
     Calls.email := Queue.email callJob;
     Calls.answeredBy := None;
     Calls.conversationId := None;
     Calls.full_address := Queue.full_address callJob;
     Calls.first_attempt_timestamp := Queue.first_attempt_timestamp callJob;
     Calls.retry_scheduled := 0;
     Calls.sequence := Queue.sequence callJob |}.

(** No entry with this queue id is waiting to be picked up. *)
Definition settled (id : Z) (w : World) : Prop :=
  ∀ r, r ∈ call_queue w → Queue.queue_id r = id → Queue.status r ≠ "pending".



(** Lookups and patches of [calls], and events: the commands of a
    callback that schedules nothing. *)
Definition quiet_command (c : Cmd) : Prop :=
  match c with
  | DbGetCall _ | DbUpdateCall _ _ | Slack _ => True
  | _ => False
  end.

(** What a run asks of the carrier, in order. *)
Definition is_carrier_command (c : Cmd) : bool :=
  match c with
  | TwilioCreate _ | TwilioFetch _ | TwilioComplete _ | TwilioListActive => true
  | _ => false
  end.

Definition carrier_commands (tr : list Cmd) : list Cmd :=
  filter (λ c, is_carrier_command c = true) tr.

(** ** Well-formed rows and calls *)

(** The parameters every call is to be created with: from the service's
    number to some destination, ringing for at most 25 s and lasting at
    most 900 s, with asynchronous answering-machine detection, status
    and detection callbacks both to this service's [/call-status]. *)
Definition standard_options (h : Host) (o : CallOptions.t) : Prop :=
  CallOptions.from o = OUTGOING_TWILIO_PHONE_NUMBER h
  ∧ CallOptions.to o ≠ ""
  ∧ CallOptions.timeout o = 25
  ∧ CallOptions.timeLimit o = 900
  ∧ CallOptions.statusCallback o = call_status_url h
  ∧ CallOptions.statusCallbackEvent o = ["initiated"; "ringing"; "answered"; "completed"]
  ∧ CallOptions.machineDetection o = "Enable"
  ∧ CallOptions.asyncAmd o = true
  ∧ CallOptions.asyncAmdStatusCallback o = call_status_url h.

(** A queue entry names a destination and a contact, dials its
    destination, and is in one of the three states the code writes. *)
Definition entry_wf (h : Host) (r : Queue.row) : Prop :=
  Queue.phone_number r ≠ ""
  ∧ Queue.contact_id r ≠ ""
  ∧ standard_options h (Queue.call_options_json r)
  ∧ CallOptions.to (Queue.call_options_json r) = Queue.phone_number r
  ∧ (Queue.status r = "pending" ∨ Queue.status r = "processing"
     ∨ Queue.status r = "failed").

(** A tracked call names a destination and a contact; its status is the
    one it was stored with and its latch is 0 or 1. *)
Definition tracked_wf (r : Calls.row) : Prop :=
  truthy (Calls.phone r) = true
  ∧ truthy (Calls.contactId r) = true
  ∧ Calls.status r = Some "initiated"
  ∧ (Calls.retry_scheduled r = 0 ∨ Calls.retry_scheduled r = 1).

Definition wf (h : Host) (w : World) : Prop :=
  Forall (entry_wf h) (call_queue w)
  ∧ map_Forall (λ _, tracked_wf) (calls w)
  ∧ Forall (standard_options h) (calls_created (trace w)).

(** A command that keeps the store well formed; what a well-formed store
    answers; a program of such commands. *)
Definition cmd_wf (h : Host) (c : Cmd) : Prop :=
  match c with
  | DbInsertQueue r => entry_wf h r
  | DbReplaceCall _ r => tracked_wf r
  | DbUpdateCall _ (patch_retry_scheduled v) => v = 1
  | TwilioCreate o => standard_options h o
  | _ => True
  end.

Definition answer_wf (h : Host) (c : Cmd) : answer c → Prop :=
  match c with
  | DbGetCall _ => λ x, ∀ r, x = Some r → tracked_wf r
  | DbSelectDue _ _ => λ x, Forall (entry_wf h) x
  | _ => λ _, True
  end.

Fixpoint guarded {A : Type} (h : Host) (Q : A → Prop) (p : prog A) : Prop :=
  match p with
  | Ret a => Q a
  | Vis c k => cmd_wf h c ∧ ∀ x, answer_wf h c x → guarded h Q (k x)
  end.

(** ** Vocabulary of the bridge properties *)

(** The frames sent to the agent, in order; how often the agent socket
    was told to close; how often it opened. *)
Definition agent_frames (es : list Bridge.effect) : list Bridge.frame :=
  omap (λ e, match e with Bridge.to_agent f => Some f | _ => None end) es.

Definition carrier_frames (es : list Bridge.effect) : list Bridge.frame :=
  omap (λ e, match e with Bridge.to_carrier f => Some f | _ => None end) es.

Definition agent_closes (es : list Bridge.effect) : nat :=
  length (omap (λ e, match e with Bridge.close_agent => Some () | _ => None end) es).

Definition agent_opens (es : list Bridge.event) : nat :=
  length (omap (λ e, match e with Bridge.agent_open => Some () | _ => None end) es).

Definition is_media (f : Bridge.frame) : bool :=
  match f with
  | Bridge.media _ _ => true
  | _ => false
  end.

(** The audio sent to the carrier. *)
Definition media_sent (es : list Bridge.effect) : list Bridge.frame :=
  filter (λ f, is_media f = true) (carrier_frames es).

(** A host whose carrier is unreachable: listing and creating calls
    throw. *)
Definition carrier_down_host : Host :=
  {| tz := cetZone;
     PUBLIC_URL := "https://caller.example";
     routePrefix := "/outgoing";
     OUTGOING_TWILIO_PHONE_NUMBER := "+390200000000";
     MAX_ACTIVE := 3;
     encodeURIComponent := λ s, s;
     twilio_create := λ _ _, thrown "connect ETIMEDOUT";
     twilio_fetch := λ _ _, thrown "connect ETIMEDOUT";
     twilio_complete := λ _ _, thrown "connect ETIMEDOUT";
     twilio_active := λ _, thrown "connect ETIMEDOUT";
     signed_url := λ _, returned "wss://agent.example/signed" |}.

(** A queue entry for Mario, due at ten, and a store that holds it and
    one entry more, for Lucia, due a minute later. *)
Definition mario_job : Queue.row :=
  {| Queue.queue_id := 1;
     Queue.contact_id := "c1";
     Queue.phone_number := "+390123456789";
     Queue.first_name := Some "Mario";
     Queue.full_name := Some "Mario Rossi";
     Queue.email := None;
     Queue.full_address := Some "";
     Queue.retry_stage := 0;
     Queue.status := "pending";
     Queue.scheduled_at := utcDate 2025 3 14 10 0 0;
     Queue.first_attempt_timestamp := Some (utcDate 2025 3 14 10 0 0);
     Queue.last_attempt_at := None;
     Queue.last_error := None;
     Queue.call_options_json :=
       call_options demo_host "+390123456789"
         (outbound_twiml_url demo_host "firstName=Mario");
     Queue.initial_signed_url := Some "wss://agent.example/signed";
     Queue.sequence := 0 |}.

Definition lucia_job : Queue.row :=
  {| Queue.queue_id := 2;
     Queue.contact_id := "c2";
     Queue.phone_number := "+390987654321";
     Queue.first_name := Some "Lucia";
     Queue.full_name := Some "Lucia Bianchi";
     Queue.email := None;
     Queue.full_address := Some "";
     Queue.retry_stage := 3;
     Queue.status := "pending";
     Queue.scheduled_at := utcDate 2025 3 14 10 1 0;
     Queue.first_attempt_timestamp := Some (utcDate 2025 3 14 8 0 0);
     Queue.last_attempt_at := None;
     Queue.last_error := None;
     Queue.call_options_json :=
       call_options demo_host "+390987654321"
         (outbound_twiml_url demo_host "firstName=Lucia");
     Queue.initial_signed_url := Some "wss://agent.example/signed";
     Queue.sequence := 1 |}.

Definition two_jobs_world : World :=
  {| call_queue := [lucia_job; mario_job]; last_queue_id := 2; calls := ∅;
     clock := utcDate 2025 3 14 10 5 0; trace := []; next_sequence := 2 |}.

(** A host whose carrier lists its calls but refuses every new one. *)
Definition refusing_host : Host :=
  {| tz := cetZone;
     PUBLIC_URL := "https://caller.example";
     routePrefix := "/outgoing";
     OUTGOING_TWILIO_PHONE_NUMBER := "+390200000000";
     MAX_ACTIVE := 3;
     encodeURIComponent := λ s, s;
     twilio_create := λ _ _, thrown "connect ETIMEDOUT";
     twilio_fetch := λ _ _, thrown "connect ETIMEDOUT";
     twilio_complete := λ _ _, thrown "connect ETIMEDOUT";
     twilio_active := λ _, returned 1;
     signed_url := λ _, returned "wss://agent.example/signed" |}.




(** The store once a retry for [CA1] has been scheduled. *)
Definition latched_world : World :=
  {| call_queue := []; last_queue_id := 1;
     calls := {[ "CA1" := Calls.with_retry_scheduled 1 (mario_row 0) ]};
     clock := utcDate 2025 3 14 10 15 0; trace := []; next_sequence := 1 |}.

(** The entry [scheduleRetry] inserts at 10:15 UTC for Mario's fourth
    attempt ([retry_count] 3) on a host at UTC+1: stage 4, at the next
    9:00 on the wall clock. *)
Definition mario_retry : Queue.row :=
  {| Queue.queue_id := 0;
     Queue.contact_id := "c1";
     Queue.phone_number := "+390123456789";
     Queue.first_name := Some "Mario";
     Queue.full_name := Some "Mario Rossi";
     Queue.email := Some "m@x";
     Queue.full_address := Some "";
     Queue.retry_stage := 4;
     Queue.status := "pending";
     Queue.scheduled_at := utcDate 2025 3 15 8 0 0;
     Queue.first_attempt_timestamp := Some (utcDate 2025 3 14 10 0 0);
     Queue.last_attempt_at := None;
     Queue.last_error := None;
     Queue.call_options_json :=
       call_options demo_host "+390123456789"
         (outbound_twiml_url demo_host "firstName=Mario");
     Queue.initial_signed_url := Some "wss://agent.example/signed";
     Queue.sequence := 0 |}.

(** The store after Mario's first call was initiated, and the row that
    tracks the call. *)
Definition first_call_world : World := act demo_host act_tick one_job_world.
Definition first_call_row : Calls.row :=
  default (mario_row 0) (calls first_call_world !! "CA11").

(** ** outgoing-call.js: the route prefix *)

(** The character class of the first [replace]: the single and the double
    quote, by their codes 39 and 34. *)
Definition is_quote (c : ascii) : bool :=
  ((nat_of_ascii c =? 39) || (nat_of_ascii c =? 34))%nat.

(** The first [replace]: every quote character is removed. *)
Fixpoint remove_quotes (s : string) : string :=
  match s with
  | EmptyString => EmptyString
  | String c s' => if is_quote c then remove_quotes s' else String c (remove_quotes s')
  end.

(** [s.startsWith(c)] for a one-character [c]. *)
Definition starts_with (c : ascii) (s : string) : bool :=
  match s with
  | String c' _ => Ascii.eqb c' c
  | EmptyString => false
  end.

(** The second [replace], of every run of slashes by one slash: of each
    run the last slash is kept. *)
Fixpoint squeeze_slashes (s : string) : string :=
  match s with
  | EmptyString => EmptyString
  | String c s' =>
      if Ascii.eqb c "/" && starts_with "/" s' then squeeze_slashes s'
      else String c (squeeze_slashes s')
  end.

(** The prefix the routes are registered under, from the value of
    [OUTGOING_ROUTE_PREFIX]. *)
Definition cleanRoutePrefix (OUTGOING_ROUTE_PREFIX : option string) : string :=
  let routePrefix :=
    remove_quotes (if truthy OUTGOING_ROUTE_PREFIX
                   then default "" OUTGOING_ROUTE_PREFIX else "/outgoing") in
  let routePrefix :=
    if negb (starts_with "/" routePrefix) && negb (starts_with "*" routePrefix)
    then String "/" routePrefix else routePrefix in
  squeeze_slashes routePrefix.

Fixpoint all_chars (P : ascii → bool) (s : string) : bool :=
  match s with
  | EmptyString => true
  | String c s' => P c && all_chars P s'
  end.

Fixpoint has_double_slash (s : string) : bool :=
  match s with
  | EmptyString => false
  | String c s' => Ascii.eqb c "/" && starts_with "/" s' || has_double_slash s'
  end.

(** ** Calendar facts *)

Section Calendar.

Ltac div_lia :=
  unfold msPerDay, msPerHour, msPerMinute, msPerSecond in *;
  Z.to_euclidean_division_equations; lia.

Lemma YearFromTime_spec t :
  DayFromYear (YearFromTime t) ≤ Day t < DayFromYear (YearFromTime t + 1).
Proof.
  unfold YearFromTime. generalize (Day t). intros d. cbv zeta.
  repeat case_match; rewrite ?Z.leb_le, ?Z.leb_gt in *;
    unfold DayFromYear in *; div_lia.
Qed.

Lemma MonthFromTime_range t : 0 ≤ MonthFromTime t ≤ 11.
Proof. unfold MonthFromTime. cbv zeta. repeat case_match; lia. Qed.

(** [d.setDate(d.getDate() + 1)] moves the local calendar day forward by
    one and keeps the time within the day, across month and year ends. *)
Lemma MakeDay_next_date lt :
  MakeDay (YearFromTime lt) (MonthFromTime lt) (DateFromTime lt + 1)
  = Day lt + 1.
Proof.
  pose proof (MonthFromTime_range lt) as Hm.
  unfold MakeDay, DateFromTime, DayWithinYear, InLeapYear.
  replace (MonthFromTime lt `div` 12) with 0 by div_lia.
  replace (MonthFromTime lt `mod` 12) with (MonthFromTime lt) by div_lia.
  rewrite Z.add_0_r. lia.
Qed.

Lemma setDate_getDate_succ z t :
  setDate z t (getDate z t + 1)
  = UTC z (MakeDate (Day (LocalTime z t) + 1) (TimeWithinDay (LocalTime z t))).
Proof. unfold setDate, getDate. cbv zeta. by rewrite MakeDay_next_date. Qed.

End Calendar.

Example utcDate_epoch : utcDate 1970 1 1 0 0 0 = 0.
Proof. reflexivity. Qed.

Example utcDate_2025_03_14 : utcDate 2025 3 14 10 15 0 = 1741947300000.
Proof. reflexivity. Qed.

Example calendar_2024_02_29 :
  let t := utcDate 2024 2 29 23 59 59 in
  (YearFromTime t, MonthFromTime t, DateFromTime t, HourFromTime t) = (2024, 1, 29, 23).
Proof. reflexivity. Qed.

Example calendar_known_instants :
  (λ t, (YearFromTime t, MonthFromTime t + 1, DateFromTime t))
    <$> [946684799000; 951782400000; 1735603200000; -86400000; -2203891200000]
  = [(1999, 12, 31); (2000, 2, 29); (2024, 12, 31); (1969, 12, 31); (1900, 3, 1)].
Proof. reflexivity. Qed.

Example setDate_month_end :
  setDate utcZone (utcDate 2025 1 31 9 0 0) (getDate utcZone (utcDate 2025 1 31 9 0 0) + 1)
  = utcDate 2025 2 1 9 0 0.
Proof. reflexivity. Qed.

(** ** The next occurrence of an hour *)

Section NextTime.

Variables (z : Zone) (H back : Z).

(** The hour exists on the dial, the local clock never jumps back by
    more than [back], and H:00 is neither skipped nor repeated in [z]. *)
Hypothesis H_range : 0 ≤ H < 24.
Hypothesis back_small : 0 ≤ back ≤ H * msPerHour ∧ back < (24 - H) * msPerHour.
Hypothesis local_back :
  ∀ a b, a ≤ b → LocalTime z a ≤ LocalTime z b + back.
Hypothesis hour_exists :
  ∀ l, TimeWithinDay l = H * msPerHour → LocalTime z (UTC z l) = l.
Hypothesis hour_unique :
  ∀ u, on_the_hour z H u → UTC z (LocalTime z u) = u.

Ltac div_lia :=
  unfold msPerDay, msPerHour, msPerMinute, msPerSecond in *;
  Z.to_euclidean_division_equations; lia.

Lemma TimeWithinDay_at d : TimeWithinDay (MakeDate d (H * msPerHour)) = H * msPerHour.
Proof. unfold TimeWithinDay, MakeDate. div_lia. Qed.

Lemma Day_at d : Day (MakeDate d (H * msPerHour)) = d.
Proof. unfold Day, MakeDate. div_lia. Qed.

Lemma local_of_slot d :
  LocalTime z (UTC z (MakeDate d (H * msPerHour))) = MakeDate d (H * msPerHour).
Proof. apply hour_exists, TimeWithinDay_at. Qed.

Lemma MakeTime_hour : MakeTime H 0 0 0 = H * msPerHour.
Proof. unfold MakeTime. lia. Qed.

(** The two values [next_time] can take: H:00 of the local day of [now],
    or of the day after. *)
Lemma next_time_cases now :
  let today := UTC z (MakeDate (Day (LocalTime z now)) (H * msPerHour)) in
  let tomorrow := UTC z (MakeDate (Day (LocalTime z now) + 1) (H * msPerHour)) in
  (now < today ∧ next_time z H now = today) ∨
  (today ≤ now ∧ next_time z H now = tomorrow).
Proof.
  intros today tomorrow. unfold next_time, setHours. cbv zeta.
  rewrite MakeTime_hour. fold today.
  destruct (now >=? today) eqn:E.
  - right. split; [lia|]. rewrite setDate_getDate_succ.
    unfold today. by rewrite local_of_slot, Day_at, TimeWithinDay_at.
  - left. split; [lia|done].
Qed.

Lemma slot_of_on_the_hour u :
  on_the_hour z H u →
  u = UTC z (MakeDate (Day (LocalTime z u)) (H * msPerHour)).
Proof.
  intros Hu. rewrite <- (hour_unique u Hu) at 1. f_equal.
  unfold on_the_hour, TimeWithinDay in Hu. unfold MakeDate, Day. div_lia.
Qed.

Lemma Day_bounds t : MakeDate (Day t) 0 ≤ t < MakeDate (Day t + 1) 0.
Proof. unfold MakeDate, Day. div_lia. Qed.

Lemma next_time_after now : now < next_time z H now.
Proof.
  destruct (next_time_cases now) as [[Hlt ->]|[Hle ->]]; [done|].
  set (r := UTC z _). destruct (Z.lt_ge_cases now r) as [|Hge]; [done|].
  apply local_back in Hge. unfold r in Hge. rewrite local_of_slot in Hge.
  pose proof (Day_bounds (LocalTime z now)). unfold MakeDate in *. lia.
Qed.

Lemma next_time_on_the_hour now : on_the_hour z H (next_time z H now).
Proof.
  unfold on_the_hour.
  destruct (next_time_cases now) as [[_ ->]|[_ ->]];
    by rewrite local_of_slot, TimeWithinDay_at.
Qed.

Lemma slot_monotone d1 d2 :
  d1 ≤ d2 →
  UTC z (MakeDate d1 (H * msPerHour)) ≤ UTC z (MakeDate d2 (H * msPerHour)).
Proof.
  intros Hd. destruct (Z.eq_dec d1 d2) as [->|Hne]; [done|].
  set (a := UTC z (MakeDate d1 _)). set (b := UTC z (MakeDate d2 _)).
  destruct (Z.le_gt_cases a b) as [|Hgt]; [done|].
  assert (b ≤ a) as Hba by lia. apply local_back in Hba.
  unfold a, b in Hba. rewrite !local_of_slot in Hba.
  unfold MakeDate, msPerDay, msPerHour in *. lia.
Qed.

Lemma next_time_least now u :
  now < u → on_the_hour z H u → next_time z H now ≤ u.
Proof.
  intros Hlt Hu. pose proof (slot_of_on_the_hour u Hu) as Eu.
  set (du := Day (LocalTime z u)) in *. set (dn := Day (LocalTime z now)).
  assert (LocalTime z u = MakeDate du (H * msPerHour)) as Lu.
  { rewrite Eu. apply local_of_slot. }
  assert (dn ≤ du) as Hdays.
  { assert (now ≤ u) as Hle by lia. apply local_back in Hle.
    pose proof (Day_bounds (LocalTime z now)) as Hb. fold dn in Hb.
    rewrite Lu in Hle. unfold MakeDate, msPerDay, msPerHour in *. lia. }
  destruct (next_time_cases now) as [[_ ->]|[Hle ->]]; fold dn.
  - rewrite Eu. by apply slot_monotone.
  - rewrite Eu. apply slot_monotone.
    destruct (Z.eq_dec dn du) as [E|]; [|lia].
    fold dn in Hle. rewrite E, <- Eu in Hle. lia.
Qed.

End NextTime.



(** Europe/Rome is such a zone for every hour from 3 to 22, with a
    fall-back of one hour: the clock changes between 02:00 and 03:00. *)
Example summer_2025_bounds :
  summer_2025_start = utcDate 2025 3 30 1 0 0
  ∧ summer_2025_end = utcDate 2025 10 26 1 0 0.
Proof. split; reflexivity. Qed.

Lemma rome2025_falls_back_one_hour a b :
  a ≤ b → LocalTime rome2025Zone a ≤ LocalTime rome2025Zone b + msPerHour.
Proof.
  intros Hab. unfold LocalTime, rome2025Zone, msPerHour. simpl.
  repeat case_match; lia.
Qed.

Lemma rome2025_hour_exists H l :
  3 ≤ H < 24 → TimeWithinDay l = H * msPerHour →
  LocalTime rome2025Zone (UTC rome2025Zone l) = l.
Proof.
  intros HH Hl. unfold LocalTime, UTC, rome2025Zone. simpl.
  unfold TimeWithinDay, msPerDay, msPerHour, summer_2025_start, summer_2025_end in *.
  repeat case_match;
    rewrite ?andb_true_iff, ?andb_false_iff, ?Z.leb_le, ?Z.leb_gt, ?Z.ltb_lt, ?Z.ltb_ge in *;
    Z.to_euclidean_division_equations; lia.
Qed.

Lemma rome2025_hour_unique H u :
  3 ≤ H < 24 → on_the_hour rome2025Zone H u →
  UTC rome2025Zone (LocalTime rome2025Zone u) = u.
Proof.
  intros HH Hu. unfold on_the_hour, LocalTime, UTC, rome2025Zone in *. simpl in *.
  unfold TimeWithinDay, msPerDay, msPerHour, summer_2025_start, summer_2025_end in *.
  repeat case_match;
    rewrite ?andb_true_iff, ?andb_false_iff, ?Z.leb_le, ?Z.leb_gt, ?Z.ltb_lt, ?Z.ltb_ge in *;
    Z.to_euclidean_division_equations; lia.
Qed.

(** So in Rome, for the three hours of the ladder, [next_time] is the
    first H:00:00.000 on the wall clock strictly after [now]. *)
Lemma next_time_in_rome H now :
  H = 9 ∨ H = 14 ∨ H = 19 →
  let r := next_time rome2025Zone H now in
  now < r ∧ on_the_hour rome2025Zone H r
  ∧ (∀ u, now < u → on_the_hour rome2025Zone H u → r ≤ u).
Proof.
  intros HH r. subst r.
  assert (3 ≤ H < 24) as Hr by lia.
  assert (0 ≤ msPerHour ≤ H * msPerHour ∧ msPerHour < (24 - H) * msPerHour) as Hb
    by (unfold msPerHour; lia).
  split; [|split].
  - eapply (next_time_after rome2025Zone H msPerHour); eauto using
      rome2025_falls_back_one_hour, rome2025_hour_exists; lia.
  - eapply (next_time_on_the_hour rome2025Zone H); eauto using rome2025_hour_exists; lia.
  - intros u. eapply (next_time_least rome2025Zone H msPerHour); eauto using
      rome2025_falls_back_one_hour, rome2025_hour_exists, rome2025_hour_unique; lia.
Qed.

(** Across the change to summer time the next 9:00 comes 23 hours after
    the last; in summer Rome is at UTC+2. *)
Example next_time_rome_spring_forward :
  next_time rome2025Zone 9 (utcDate 2025 3 29 8 0 0) = utcDate 2025 3 30 7 0 0.
Proof. reflexivity. Qed.

Example next_time_rome_summer :
  next_time rome2025Zone 9 (utcDate 2025 7 1 10 15 0) = utcDate 2025 7 2 7 0 0.
Proof. reflexivity. Qed.

(** The scenario of the specification, on a host at UTC+1 (Europe/Rome on
    that date), and the same on a host at UTC. *)
Example next_time_rome_winter :
  next_time cetZone 9 (utcDate 2025 3 14 10 15 0) = utcDate 2025 3 15 8 0 0.
Proof. reflexivity. Qed.

Example next_time_utc_host :
  next_time utcZone 9 (utcDate 2025 3 14 10 15 0) = utcDate 2025 3 15 9 0 0.
Proof. reflexivity. Qed.

Example next_time_same_day :
  next_time cetZone 14 (utcDate 2025 3 14 10 15 0) = utcDate 2025 3 14 13 0 0.
Proof. reflexivity. Qed.



(** ** Running programs *)

Local Open Scope prog_scope.

Lemma run_bind {A B} h (p : prog A) (f : A → prog B) w :
  run h (bind p f) w = run h (f (run h p w).2) (run h p w).1.
Proof.
  revert w. induction p as [a|c k IH]; intros w; simpl; [done|]. apply IH.
Qed.

Lemma run_perform h c w : run h (perform c) w = exec h c w.
Proof. simpl. by destruct (exec h c w). Qed.

Lemma run_for_each_cons {A} h (x : A) l body w :
  run h (for_each (x :: l) body) w
  = run h (for_each l body) (run h (body x) w).1.
Proof. simpl. by rewrite run_bind. Qed.

(** Symbolic execution: split sequences, then let the commands compute. *)
Ltac run_once :=
  rewrite ?run_bind;
  cbn [run exec perform fst snd answer
       dbGetCall dbReplaceCall dbUpdateCall dbInsertQueue dbSelectDue
       dbMarkProcessing dbMarkFailed dbDeleteQueue newDate sleep twilioCreate
       twilioFetch twilioComplete twilioListActive fetchSignedUrl slack
       freshSequence
       call_queue last_queue_id calls clock trace next_sequence
       log set_queue set_calls set_clock insert_queue take_sequence].
Ltac run_step := run_once; repeat (progress run_once).

Lemma notifications_app tr1 tr2 :
  notifications (tr1 ++ tr2) = notifications tr1 ++ notifications tr2.
Proof. unfold notifications. by rewrite omap_app. Qed.

Lemma queue_inserts_app tr1 tr2 :
  queue_inserts (tr1 ++ tr2) = queue_inserts tr1 ++ queue_inserts tr2.
Proof. unfold queue_inserts. by rewrite omap_app. Qed.

Lemma calls_created_app tr1 tr2 :
  calls_created (tr1 ++ tr2) = calls_created tr1 ++ calls_created tr2.
Proof. unfold calls_created. by rewrite omap_app. Qed.

(** *** The instant a retry is scheduled at *)

Lemma run_scheduled_at_base h z options config w :
  let r := run h (scheduled_at_base z options config) w in
  call_queue r.1 = call_queue w ∧ calls r.1 = calls w
  ∧ last_queue_id r.1 = last_queue_id w ∧ clock r.1 = clock w
  ∧ next_sequence r.1 = next_sequence w
  ∧ trace r.1 = trace w ++ [Clock; Clock]
  ∧ r.2 = if forceImmediate options then clock w
          else match config with
               | immediate => clock w
               | delay hours => clock w + hours * 60 * 60 * 1000
               | next_time_at hour => next_time z hour (clock w)
               end.
Proof.
  unfold scheduled_at_base.
  destruct (forceImmediate options); [|destruct config];
    run_step; rewrite <- ?app_assoc; done.
Qed.

(** ** scheduleRetry *)

Lemma truthy_or_null v : truthy (or_null v) = truthy v.
Proof. unfold or_null. by destruct (truthy v) eqn:E. Qed.

Lemma truthy_js_or a b : truthy (js_or a b) = truthy a || truthy b.
Proof. unfold js_or. by destruct (truthy a) eqn:E. Qed.

Lemma same_store_refl w : same_store w w.
Proof. by repeat split. Qed.

Lemma same_store_log c w : same_store w (log c w).
Proof. by repeat split. Qed.

Lemma same_store_trans w1 w2 w3 :
  same_store w1 w2 → same_store w2 w3 → same_store w1 w3.
Proof. unfold same_store. intros (?&?&?&?&?) (?&?&?&?&?). repeat split; congruence. Qed.

(** The ladder is exhausted: one notification, nothing stored. *)
Lemma scheduleRetry_exhausted h call sid options w :
  MAX_TOTAL_ATTEMPTS - 1 ≤ attempt_of call →
  let w' := (run h (scheduleRetry h call sid options) w).1 in
  same_store w w'
  ∧ trace w' = trace w ++ timestamp_read call
                ++ [Slack (NonFatal "Outgoing Call: Max Attempts Reached")].
Proof.
  intros Hi. unfold scheduleRetry, timestamp_read. fold (attempt_of call).
  destruct (attempt_of call >=? MAX_TOTAL_ATTEMPTS - 1) eqn:E; [|lia].
  destruct (CallData.first_attempt_timestamp call); run_step; rewrite ?E; run_step;
    rewrite <- ?app_assoc; by repeat split.
Qed.

(** Phone or contact id missing: one notification, nothing stored. *)
Lemma scheduleRetry_missing_data h call sid options w :
  attempt_of call < MAX_TOTAL_ATTEMPTS - 1 →
  has_destination call && has_contact call = false →
  let w' := (run h (scheduleRetry h call sid options) w).1 in
  same_store w w'
  ∧ trace w' = trace w ++ timestamp_read call ++ [Clock; Clock]
                ++ [Slack (NonFatal "Outgoing Call: Retry Scheduling Skipped - Missing Data")].
Proof.
  intros Hi Hmiss. unfold scheduleRetry, timestamp_read. fold (attempt_of call).
  destruct (attempt_of call >=? MAX_TOTAL_ATTEMPTS - 1) eqn:E; [lia|].
  unfold has_destination, has_contact in Hmiss.
  rewrite !truthy_or_null, !truthy_js_or.
  set (cfg := schedule_config _).
  assert (negb (truthy (CallData.phone call) || truthy (CallData.to call))
          || negb (truthy (CallData.contactId call) || truthy (CallData.contact_id call))
          = true) as ->.
  { destruct (_ || _), (_ || _); done. }
  destruct (CallData.first_attempt_timestamp call); run_step; rewrite ?E;
    match goal with |- context [run h (scheduled_at_base ?z ?o ?c) ?w0] =>
      destruct (run_scheduled_at_base h z o c w0) as (Hq&Hc&Hl&Hk&Hn&Ht&_);
      destruct (run h (scheduled_at_base z o c) w0) as [w1 t1]
    end; simpl in *; rewrite Ht, <- ?app_assoc; by repeat split.
Qed.

Lemma or_null_truthy v : truthy v = true → Some (default "" (or_null v)) = v.
Proof. unfold or_null. intros E. rewrite E. destruct v; [done|discriminate]. Qed.

(** Otherwise exactly one row is inserted. *)
Lemma scheduleRetry_inserts h call sid options w :
  attempt_of call < MAX_TOTAL_ATTEMPTS - 1 →
  has_destination call && has_contact call = true →
  let w' := (run h (scheduleRetry h call sid options) w).1 in
  ∃ r, is_retry_row h call options (clock w) r
    ∧ call_queue w' = call_queue w ++ [Queue.with_queue_id (last_queue_id w + 1) r]
    ∧ last_queue_id w' = last_queue_id w + 1
    ∧ calls w' = calls w ∧ clock w' = clock w
    ∧ next_sequence w' = next_sequence w
    ∧ trace w' = trace w ++ timestamp_read call ++ [Clock; Clock] ++ [DbInsertQueue r].
Proof.
  intros Hi Hok. unfold scheduleRetry, timestamp_read. fold (attempt_of call).
  destruct (attempt_of call >=? MAX_TOTAL_ATTEMPTS - 1) eqn:E; [lia|].
  unfold has_destination, has_contact in Hok.
  apply andb_true_iff in Hok as [Hto Hid].
  rewrite <- truthy_js_or in Hto, Hid.
  rewrite !truthy_or_null, Hto, Hid.
  replace (attempt_of call + 1 - 1) with (attempt_of call) by lia.
  destruct (CallData.first_attempt_timestamp call) as [t0|] eqn:Ef; run_step; rewrite ?E;
    match goal with |- context [run h (scheduled_at_base ?z ?o ?c) ?w0] =>
      destruct (run_scheduled_at_base h z o c w0) as (Hq&Hc&Hl&Hk&Hn&Ht&Hr);
      destruct (run h (scheduled_at_base z o c) w0) as [w1 t1]
    end; simpl in *;
    (eexists; split; [|rewrite Hq, Hc, Hl, Hk, Hn, Ht, <- ?app_assoc; repeat split; reflexivity]);
    unfold is_retry_row, retry_instant; simpl; rewrite Ef, Hr, !or_null_truthy by done;
    by repeat split.
Qed.

Lemma timestamp_read_clock call : Forall (λ c, c = Clock) (timestamp_read call).
Proof. unfold timestamp_read. destruct (CallData.first_attempt_timestamp call); by repeat constructor. Qed.

Lemma notifications_reads reads :
  Forall (λ c, c = Clock) reads → notifications reads = [].
Proof. induction 1 as [|c l -> _ IH]; [done|]. apply IH. Qed.

Lemma queue_inserts_reads reads :
  Forall (λ c, c = Clock) reads → queue_inserts reads = [].
Proof. induction 1 as [|c l -> _ IH]; [done|]. apply IH. Qed.



(** C10. When neither [phone] nor [to], or neither [contactId] nor
    [contact_id], holds a non-empty value, [scheduleRetry] inserts no
    queue entry and leaves the tables as they were; all it does is read
    the clock and send one notification. *)
Theorem scheduleRetry_without_phone_or_contact_inserts_nothing h call sid options w :
  (truthy (CallData.phone call) = false ∧ truthy (CallData.to call) = false)
  ∨ (truthy (CallData.contactId call) = false
     ∧ truthy (CallData.contact_id call) = false) →
  let w' := (run h (scheduleRetry h call sid options) w).1 in
  same_store w w'
  ∧ queue_inserts (trace w') = queue_inserts (trace w)
  ∧ ∃ reads,
      Forall (λ c, c = Clock) reads
      ∧ trace w' = trace w ++ reads ++
          [Slack (NonFatal
             (if attempt_of call >=? MAX_TOTAL_ATTEMPTS - 1
              then "Outgoing Call: Max Attempts Reached"
              else "Outgoing Call: Retry Scheduling Skipped - Missing Data"))].
Proof.
  intros Hmiss w'. subst w'.
  assert (has_destination call && has_contact call = false) as Hdata.
  { unfold has_destination, has_contact.
    destruct Hmiss as [[-> ->]|[-> ->]]; [done|]. by rewrite andb_false_r. }
  destruct (attempt_of call >=? MAX_TOTAL_ATTEMPTS - 1) eqn:E.
  - destruct (scheduleRetry_exhausted h call sid options w) as [Hs Htr]; [lia|].
    split; [done|]. rewrite Htr, !queue_inserts_app.
    rewrite (queue_inserts_reads _ (timestamp_read_clock call)).
    split; [by cbn; rewrite ?app_nil_r|].
    exists (timestamp_read call). split; [apply timestamp_read_clock|done].
  - destruct (scheduleRetry_missing_data h call sid options w) as [Hs Htr]; [lia|done|].
    split; [done|]. rewrite Htr, !queue_inserts_app.
    rewrite (queue_inserts_reads _ (timestamp_read_clock call)).
    split; [by cbn; rewrite ?app_nil_r|].
    exists (timestamp_read call ++ [Clock; Clock]). split.
    + apply Forall_app. split; [apply timestamp_read_clock|by repeat constructor].
    + by rewrite <- !app_assoc.
Qed.


Lemma scheduleRetry_without_phone_or_contact_inserts_nothing_witness :
  let call := CallData.of_row (Calls.with_retry_scheduled 0
                {| Calls.phone := None; Calls.contactId := Some "c1";
                   Calls.retry_count := 2; Calls.status := None;
                   Calls.created_at := None; Calls.signedUrl := None;
                   Calls.fullName := None; Calls.firstName := None;
                   Calls.email := None; Calls.answeredBy := None;
                   Calls.conversationId := None; Calls.full_address := None;
                   Calls.first_attempt_timestamp := Some 1000;
                   Calls.retry_scheduled := 0; Calls.sequence := 0 |}) in
  let w := one_call_world 2 in
  let w' := (run demo_host (scheduleRetry demo_host call (Some "CA1")
                  {| reason := None; forceImmediate := false |}) w).1 in
  same_store w w'
  ∧ queue_inserts (trace w') = queue_inserts (trace w)
  ∧ ∃ reads,
      Forall (λ c, c = Clock) reads
      ∧ trace w' = trace w ++ reads ++
          [Slack (NonFatal
             (if attempt_of call >=? MAX_TOTAL_ATTEMPTS - 1
              then "Outgoing Call: Max Attempts Reached"
              else "Outgoing Call: Retry Scheduling Skipped - Missing Data"))].
Proof.
  intros call w.
  apply (scheduleRetry_without_phone_or_contact_inserts_nothing demo_host call
           (Some "CA1") {| reason := None; forceImmediate := false |} w).
  left. split; reflexivity.
Defined.

(** All three cases at once. *)
Lemma scheduleRetry_summary h call sid options w :
  let w' := (run h (scheduleRetry h call sid options) w).1 in
  ∃ new,
    retries_scheduled h call options (clock w) new
    ∧ queue_inserts (trace w') = queue_inserts (trace w) ++ new
    ∧ call_queue w' = call_queue w ++ (Queue.with_queue_id (last_queue_id w + 1) <$> new)
    ∧ last_queue_id w' = last_queue_id w + Z.of_nat (length new)
    ∧ calls w' = calls w ∧ clock w' = clock w
    ∧ next_sequence w' = next_sequence w
    ∧ calls_created (trace w') = calls_created (trace w)
    ∧ ∃ reads title,
        Forall (λ c, c = Clock) reads
        ∧ trace w' = trace w ++ reads
            ++ match new with
               | [] => [Slack (NonFatal title)]
               | r :: _ => [DbInsertQueue r]
               end.
Proof.
  cbv zeta. unfold retries_scheduled.
  destruct (attempt_of call <? MAX_TOTAL_ATTEMPTS - 1) eqn:Ei;
    [destruct (has_destination call && has_contact call) eqn:Hd|].
  - destruct (scheduleRetry_inserts h call sid options w) as
      (r & Hr & Hq & Hl & Hc & Hk & Hn & Ht); [lia|done|].
    exists [r]. cbn [andb]. rewrite Hd.
    rewrite Ht, !queue_inserts_app, !calls_created_app.
    rewrite (queue_inserts_reads _ (timestamp_read_clock call)).
    assert (calls_created (timestamp_read call) = []) as ->.
    { unfold timestamp_read. by destruct (CallData.first_attempt_timestamp call). }
    simpl. rewrite app_nil_r.
    repeat split; eauto; try lia.
    exists (timestamp_read call ++ [Clock; Clock]), "".
    split; [|by rewrite <- !app_assoc].
    apply Forall_app. split; [apply timestamp_read_clock|by repeat constructor].
  - destruct (scheduleRetry_missing_data h call sid options w) as
      ((Hq & Hc & Hl & Hk & Hn) & Ht); [lia|done|].
    exists []. cbn [andb]. rewrite Hd.
    rewrite Ht, !queue_inserts_app, !calls_created_app.
    rewrite (queue_inserts_reads _ (timestamp_read_clock call)).
    assert (calls_created (timestamp_read call) = []) as ->.
    { unfold timestamp_read. by destruct (CallData.first_attempt_timestamp call). }
    simpl. rewrite !app_nil_r, Z.add_0_r.
    repeat split; eauto.
    eexists (timestamp_read call ++ [Clock; Clock]), _.
    split; [|by rewrite <- !app_assoc].
    apply Forall_app. split; [apply timestamp_read_clock|by repeat constructor].
  - destruct (scheduleRetry_exhausted h call sid options w) as
      ((Hq & Hc & Hl & Hk & Hn) & Ht); [lia|].
    exists []. simpl.
    rewrite Ht, !queue_inserts_app, !calls_created_app.
    rewrite (queue_inserts_reads _ (timestamp_read_clock call)).
    assert (calls_created (timestamp_read call) = []) as ->.
    { unfold timestamp_read. by destruct (CallData.first_attempt_timestamp call). }
    simpl. rewrite !app_nil_r, Z.add_0_r.
    repeat split; eauto.
    eexists (timestamp_read call), _. split; [apply timestamp_read_clock|done].
Qed.

(** ** The status callback *)

Lemma is_string_Some v s : is_string v s = true ↔ v = Some s.
Proof.
  destruct v as [s'|]; simpl; [|by split].
  rewrite String.eqb_eq. split; congruence.
Qed.

Lemma truthy_Some s : truthy (Some s) = true ↔ s ≠ "".
Proof.
  simpl. destruct (String.eqb_spec s ""); simpl; split; congruence.
Qed.

Lemma run_getCallData h sid w :
  run h (getCallData sid) w
  = if truthy sid
    then (log (DbGetCall (default "" sid)) w,
          CallData.of_row <$> calls w !! default "" sid)
    else (w, None).
Proof. unfold getCallData. by destruct (truthy sid). Qed.

Lemma run_updateCallData h sid p w :
  run h (updateCallData sid p) w
  = if truthy sid
    then (set_calls (alter (apply_patch p) (default "" sid) (calls w))
            (log (DbUpdateCall (default "" sid) p) w), ())
    else (w, ()).
Proof. unfold updateCallData. by destruct (truthy sid). Qed.

(** Once the flag is set, a callback is acknowledged and does nothing
    but look the row up. *)
Lemma call_status_latched h req sid row w :
  CallSid req = Some sid → sid ≠ "" →
  calls w !! sid = Some row → Calls.retry_scheduled row ≠ 0 →
  run h (call_status h req) w
  = (log (DbGetCall sid) w, {| code := 200; body := "OK. Retry already handled." |}).
Proof.
  intros Hsid Hne Hrow Hflag. unfold call_status.
  rewrite run_bind, run_getCallData, Hsid.
  rewrite (proj2 (truthy_Some sid)) by done. simpl. rewrite Hrow. simpl.
  unfold handle_status. simpl.
  destruct (Z.eqb_spec (Calls.retry_scheduled row) 0); [done|]. done.
Qed.

(** C8. A callback for a call-id with no row looks the row up, waits
    2000 ms, looks it up once more, and then drops the event: it answers
    200, sends one notification and leaves both tables as they were. *)
Theorem call_status_unknown_call_is_dropped h req w :
  (∀ sid, CallSid req = Some sid → calls w !! sid = None) →
  let r := run h (call_status h req) w in
  let lookup :=
    if truthy (CallSid req) then [DbGetCall (default "" (CallSid req))] else [] in
  r.2 = {| code := 200;
           body := "OK. No call data found in calls table after retry." |}
  ∧ call_queue r.1 = call_queue w ∧ calls r.1 = calls w
  ∧ last_queue_id r.1 = last_queue_id w
  ∧ clock r.1 = clock w + 2000
  ∧ trace r.1 = trace w ++ lookup ++ [Sleep 2000] ++ lookup
                 ++ [Slack (NonFatal "Outgoing Call: Status Data Missing")].
Proof.
  intros Habsent. unfold call_status. cbv zeta.
  rewrite run_bind, run_getCallData.
  destruct (truthy (CallSid req)) eqn:Et.
  - destruct (CallSid req) as [sid|] eqn:Es; [|done].
    cbn [fst snd default from_option id]. rewrite (Habsent sid eq_refl).
    cbn [fmap option_fmap option_map]. run_step.
    rewrite run_getCallData, Et.
    cbn [fst snd default from_option id calls set_clock log].
    rewrite (Habsent sid eq_refl). cbn [fmap option_fmap option_map].
    run_step. rewrite <- !app_assoc. by repeat split.
  - cbn [fst snd]. run_step. rewrite run_getCallData, Et.
    cbn [fst snd]. run_step. rewrite <- !app_assoc. by repeat split.
Qed.

(** The wait is there for the queue processor: a row written while the
    handler sleeps is found by the second lookup, and the callback is
    handled as if the row had been there. *)
Lemma call_status_finds_a_row_written_during_the_wait h req sid w :
  CallSid req = Some sid → sid ≠ "" → calls w !! sid = None →
  let after_lookup := step h (call_status h req) w in
  let after_wait := step h after_lookup.2 after_lookup.1 in
  clock after_wait.1 = clock w + 2000
  ∧ ∀ w' row, calls w' !! sid = Some row →
      run h after_wait.2 w'
      = run h (handle_status h req (CallData.of_row row)) (log (DbGetCall sid) w').
Proof.
  intros Hsid Hne Habsent. unfold call_status, getCallData.
  rewrite Hsid, (proj2 (truthy_Some sid)) by done.
  cbn [bind dbGetCall perform step exec fst snd default from_option id calls log].
  rewrite Habsent. cbn [fmap option_fmap option_map bind sleep perform step exec
                        fst snd clock set_clock log].
  split; [done|]. intros w' row Hrow.
  cbn [run dbGetCall perform exec fst snd calls log]. by rewrite Hrow.
Qed.

Lemma call_status_unknown_call_is_dropped_witness :
  let req := {| CallSid := Some "CA404"; CallStatus := Some "ringing";
                AnsweredBy := None; To := Some "+390123456789" |} in
  let r := run demo_host (call_status demo_host req) (empty_world 1000) in
  r.2 = {| code := 200;
           body := "OK. No call data found in calls table after retry." |}
  ∧ call_queue r.1 = [] ∧ calls r.1 = ∅ ∧ last_queue_id r.1 = 0
  ∧ clock r.1 = 1000 + 2000
  ∧ trace r.1 = [] ++ [DbGetCall "CA404"] ++ [Sleep 2000] ++ [DbGetCall "CA404"]
                 ++ [Slack (NonFatal "Outgoing Call: Status Data Missing")].
Proof.
  intros req.
  apply (call_status_unknown_call_is_dropped demo_host req (empty_world 1000)).
  intros sid _. reflexivity.
Defined.

(** The two preparatory steps of the handler touch the row of the call
    and nothing else. *)

Lemma run_record_answeredBy h req call sid w :
  CallSid req = Some sid → sid ≠ "" →
  let w' := (run h (record_answeredBy req call) w).1 in
  same_store (set_calls (answeredBy_recorded req call sid (calls w)) w) w'
  ∧ queue_inserts (trace w') = queue_inserts (trace w)
  ∧ notifications (trace w') = notifications (trace w)
  ∧ calls_created (trace w') = calls_created (trace w).
Proof.
  intros Hsid Hne. unfold record_answeredBy, answeredBy_recorded.
  destruct (truthy (AnsweredBy req) && _).
  - rewrite run_updateCallData, Hsid, (proj2 (truthy_Some sid)) by done.
    cbn. rewrite queue_inserts_app, notifications_app, calls_created_app.
    cbn. by rewrite !app_nil_r.
  - cbn. by repeat split.
Qed.

Lemma run_end_call h sid w :
  sid ≠ "" →
  let w' := (run h (end_call_after_machine_detection (Some sid)) w).1 in
  same_store
    (set_calls (alter (apply_patch (patch_retry_scheduled 1)) sid (calls w)) w) w'
  ∧ queue_inserts (trace w') = queue_inserts (trace w)
  ∧ calls_created (trace w') = calls_created (trace w).
Proof.
  intros Hne. unfold end_call_after_machine_detection.
  rewrite run_bind, run_updateCallData, (proj2 (truthy_Some sid)) by done.
  run_step. cbn [default from_option id].
  destruct (twilio_fetch h _ sid) as [st|msg]; cbn [fst snd];
    [destruct (negb (includes terminal_statuses (Some st)));
      [run_step; destruct (twilio_complete h _ sid)|]|];
    run_step; rewrite ?queue_inserts_app, ?calls_created_app; cbn;
    rewrite ?app_nil_r; by repeat split.
Qed.

Lemma answeredBy_recorded_lookup req call sid m row :
  m !! sid = Some row →
  ∃ row', answeredBy_recorded req call sid m !! sid = Some row'
    ∧ Calls.retry_scheduled row' = Calls.retry_scheduled row.
Proof.
  intros Hrow. unfold answeredBy_recorded. destruct (_ && _).
  - rewrite lookup_alter_eq, Hrow. by eexists.
  - by eexists.
Qed.

(** Both retry branches: the flag is set, then [scheduleRetry] runs once. *)
Lemma handle_status_schedules h req sid row w :
  CallSid req = Some sid → sid ≠ "" →
  calls w !! sid = Some row → Calls.retry_scheduled row = 0 →
  let call := CallData.of_row row in
  isMachineDetected req call && negb (includes terminal_statuses (CallStatus req)) = true
  ∨ isRetryableFailure req call = true →
  let r := run h (handle_status h req call) w in
  code r.2 = 200
  ∧ (∃ row', calls r.1 !! sid = Some row' ∧ Calls.retry_scheduled row' = 1)
  ∧ ∃ why new,
      retries_scheduled h call {| reason := why; forceImmediate := false |}
        (clock w) new
      ∧ queue_inserts (trace r.1) = queue_inserts (trace w) ++ new.
Proof.
  intros Hsid Hne Hrow Hflag call Hclass. cbv zeta.
  unfold handle_status. cbn [CallData.retry_scheduled CallData.of_row call].
  fold call. rewrite Hflag. cbn [default from_option id Z.eqb negb].
  rewrite run_bind.
  destruct (run_record_answeredBy h req call sid w Hsid Hne)
    as ((Hq1 & Hc1 & Hl1 & Hk1 & Hn1) & Hi1 & _ & _).
  set (w1 := (run h (record_answeredBy req call) w).1) in *.
  cbn [calls clock set_calls] in Hc1, Hk1.
  destruct (answeredBy_recorded_lookup req call sid _ _ Hrow) as (row1 & Hrow1 & _).
  rewrite <- Hc1 in Hrow1.
  destruct (isMachineDetected req call && negb _) eqn:Em.
  - rewrite run_bind, Hsid.
    destruct (run_end_call h sid w1 Hne) as ((_ & Hc2 & _ & Hk2 & _) & Hi2 & _).
    set (w2 := (run h (end_call_after_machine_detection (Some sid)) w1).1) in *.
    cbn [calls clock set_calls] in Hc2, Hk2.
    rewrite run_bind.
    destruct (scheduleRetry_summary h call (Some sid)
                {| reason := Some "machine_detected"; forceImmediate := false |} w2)
      as (new & Hnew & Hi3 & _ & _ & Hc3 & _).
    cbn [run fst snd code]. split; [done|]. split.
    + rewrite Hc3, Hc2, lookup_alter_eq, Hrow1. by eexists.
    + exists (Some "machine_detected"), new.
      rewrite Hi3, Hi2, Hi1, <- Hk1, <- Hk2. done.
  - destruct Hclass as [|Hretry]; [done|]. rewrite Hretry.
    rewrite run_bind, run_updateCallData, Hsid, (proj2 (truthy_Some sid)) by done.
    cbn [fst snd default from_option id].
    rewrite run_bind.
    match goal with |- context [run h (scheduleRetry h call ?s ?o) ?w0] =>
      destruct (scheduleRetry_summary h call s o w0)
        as (new & Hnew & Hi3 & _ & _ & Hc3 & _)
    end.
    cbn [run fst snd code]. split; [done|]. split.
    + rewrite Hc3. cbn [calls set_calls log].
      rewrite lookup_alter_eq, Hrow1. by eexists.
    + exists (Some "retryable_failure"), new.
      rewrite Hi3. cbn [trace set_calls log clock] in *.
      rewrite queue_inserts_app, Hi1, <- Hk1. cbn. by rewrite app_nil_r.
Qed.

(** A completed call that no machine answered: acknowledged, one positive
    notification, nothing scheduled. *)
Lemma handle_status_human h req sid row w :
  CallSid req = Some sid → sid ≠ "" →
  calls w !! sid = Some row → Calls.retry_scheduled row = 0 →
  let call := CallData.of_row row in
  CallStatus req = Some "completed" → isMachineDetected req call = false →
  let r := run h (handle_status h req call) w in
  r.2 = {| code := 200; body := "OK. Human answered, no retry." |}
  ∧ queue_inserts (trace r.1) = queue_inserts (trace w)
  ∧ call_queue r.1 = call_queue w
  ∧ (∃ row', calls r.1 !! sid = Some row' ∧ Calls.retry_scheduled row' = 0)
  ∧ notifications (trace r.1)
    = notifications (trace w) ++ [Positive "Outgoing Call: Successful Human Connection"].
Proof.
  intros Hsid Hne Hrow Hflag call Hst Hm. cbv zeta.
  unfold handle_status. cbn [CallData.retry_scheduled CallData.of_row call].
  fold call. rewrite Hflag. cbn [default from_option id Z.eqb negb].
  rewrite run_bind.
  destruct (run_record_answeredBy h req call sid w Hsid Hne)
    as ((Hq1 & Hc1 & Hl1 & Hk1 & Hn1) & Hi1 & Hno1 & _).
  set (w1 := (run h (record_answeredBy req call) w).1) in *.
  cbn [calls call_queue set_calls] in Hc1, Hq1.
  destruct (answeredBy_recorded_lookup req call sid _ _ Hrow) as (row1 & Hrow1 & Hf1).
  rewrite <- Hc1 in Hrow1.
  unfold isRetryableFailure. rewrite Hm, Hst. cbn -[w1].
  rewrite notifications_app, queue_inserts_app, Hno1, Hi1, Hq1. cbn.
  rewrite app_nil_r. repeat split; try done.
  exists row1. split; [done|congruence].
Qed.

Lemma call_status_found h req sid row w :
  CallSid req = Some sid → sid ≠ "" → calls w !! sid = Some row →
  run h (call_status h req) w
  = run h (handle_status h req (CallData.of_row row)) (log (DbGetCall sid) w).
Proof.
  intros Hsid Hne Hrow. unfold call_status.
  rewrite run_bind, run_getCallData, Hsid, (proj2 (truthy_Some sid)) by done.
  cbn [fst snd default from_option id]. by rewrite Hrow.
Qed.

Lemma retryable_classification req call :
  includes ["no-answer"; "busy"; "failed"] (CallStatus req) = true
  ∨ includes ["completed"; "canceled"] (CallStatus req) = true
    ∧ isMachineDetected req call = true →
  isRetryableFailure req call = true.
Proof.
  unfold isRetryableFailure. intros [H|[-> ->]]; [|done].
  destruct (CallStatus req) as [st|]; [|done]. simpl in *.
  destruct (String.eqb st "no-answer"), (String.eqb st "busy"),
    (String.eqb st "failed"); rewrite ?orb_true_r; done.
Qed.

(** C4, as amended.  For a callback whose row exists with the latch unset:
    a status among no-answer, busy, failed, or completed or canceled with a
    machine classification, sets [retry_scheduled] and runs the retry
    scheduler once, which inserts one queue entry when the row's retry
    count is below 9 and it carries a phone and a contact id, and none
    otherwise; a completed status without machine classification is
    acknowledged with one positive notification and no retry. *)
Theorem call_status_retries_or_acknowledges h req sid row w :
  CallSid req = Some sid → sid ≠ "" →
  calls w !! sid = Some row → Calls.retry_scheduled row = 0 →
  let call := CallData.of_row row in
  let r := run h (call_status h req) w in
  (includes ["no-answer"; "busy"; "failed"] (CallStatus req) = true
   ∨ includes ["completed"; "canceled"] (CallStatus req) = true
     ∧ isMachineDetected req call = true →
   code r.2 = 200
   ∧ (∃ row', calls r.1 !! sid = Some row' ∧ Calls.retry_scheduled row' = 1)
   ∧ ∃ why new,
       retries_scheduled h call {| reason := why; forceImmediate := false |}
         (clock w) new
       ∧ queue_inserts (trace r.1) = queue_inserts (trace w) ++ new)
  ∧ (CallStatus req = Some "completed" ∧ isMachineDetected req call = false →
     r.2 = {| code := 200; body := "OK. Human answered, no retry." |}
     ∧ queue_inserts (trace r.1) = queue_inserts (trace w)
     ∧ call_queue r.1 = call_queue w
     ∧ (∃ row', calls r.1 !! sid = Some row' ∧ Calls.retry_scheduled row' = 0)
     ∧ notifications (trace r.1)
       = notifications (trace w)
         ++ [Positive "Outgoing Call: Successful Human Connection"]).
Proof.
  intros Hsid Hne Hrow Hflag call r. subst r call.
  rewrite (call_status_found h req sid row w) by done.
  split.
  - intros Hclass.
    destruct (handle_status_schedules h req sid row (log (DbGetCall sid) w))
      as (Hcode & Hset & why & new & Hnew & Hins); try done.
    { right. by apply retryable_classification. }
    split; [done|]. split; [done|]. exists why, new. split; [done|].
    rewrite Hins. cbn [trace log]. rewrite queue_inserts_app. cbn.
    by rewrite app_nil_r.
  - intros [Hst Hm].
    destruct (handle_status_human h req sid row (log (DbGetCall sid) w))
      as (Hreply & Hins & Hq & Hset & Hnote); try done.
    cbn [trace log call_queue] in *.
    rewrite queue_inserts_app in Hins. rewrite notifications_app in Hnote.
    cbn in Hins, Hnote. rewrite app_nil_r in Hins, Hnote. done.
Qed.

Lemma call_status_retries_or_acknowledges_witness :
  let w := one_call_world 0 in
  let req := status_callback "no-answer" None in
  let call := CallData.of_row (mario_row 0) in
  let r := run demo_host (call_status demo_host req) w in
  code r.2 = 200
  ∧ (∃ row', calls r.1 !! "CA1" = Some row' ∧ Calls.retry_scheduled row' = 1)
  ∧ ∃ why new,
      retries_scheduled demo_host call {| reason := why; forceImmediate := false |}
        (clock w) new
      ∧ queue_inserts (trace r.1) = queue_inserts (trace w) ++ new.
Proof.
  intros w req call.
  apply (call_status_retries_or_acknowledges demo_host req "CA1" (mario_row 0) w).
  - reflexivity.
  - intros E. discriminate E.
  - reflexivity.
  - reflexivity.
  - left. reflexivity.
Defined.

(** The scenario "no-answer, then the first rung": one new entry, attempt
    1, due at once, with the first-attempt timestamp of the sequence. *)
Example no_answer_schedules_first_retry :
  let r := run demo_host (call_status demo_host (status_callback "no-answer" None))
             (one_call_world 0) in
  (λ q, (Queue.queue_id q, Queue.retry_stage q, Queue.status q, Queue.scheduled_at q,
         Queue.first_attempt_timestamp q)) <$> call_queue r.1
  = [(2, 1, "pending", utcDate 2025 3 14 10 15 0, Some (utcDate 2025 3 14 10 0 0))]
  ∧ Calls.retry_scheduled <$> calls r.1 !! "CA1" = Some 1.
Proof. by vm_compute. Qed.

(** The scenario "machine detected mid-ring": the flag is set, the carrier
    is told to end the call, one entry for attempt 1 is queued. *)
Example machine_detected_mid_ring :
  let r := run demo_host
             (call_status demo_host (status_callback "ringing" (Some "machine_start")))
             (one_call_world 0) in
  body r.2 = "OK. Machine detected, call ended, retry scheduled."
  ∧ (λ row, (Calls.answeredBy row, Calls.retry_scheduled row)) <$> calls r.1 !! "CA1"
    = Some (Some "machine_start", 1)
  ∧ omap (λ c, match c with TwilioComplete s => Some s | _ => None end) (trace r.1)
    = ["CA1"]
  ∧ Queue.retry_stage <$> queue_inserts (trace r.1) = [1].
Proof. by vm_compute. Qed.

(** C4, as stated, fails: a failed call at retry count 9 sets the flag but
    schedules no retry. *)
Lemma exhausted_ladder_schedules_no_retry :
  let w := one_call_world 9 in
  let r := run demo_host (call_status demo_host (status_callback "failed" None)) w in
  calls w !! "CA1" = Some (mario_row 9)
  ∧ Calls.retry_scheduled (mario_row 9) = 0
  ∧ Calls.retry_scheduled <$> calls r.1 !! "CA1" = Some 1
  ∧ queue_inserts (trace r.1) = []
  ∧ call_queue r.1 = [].
Proof. by vm_compute. Qed.

(** ** Requests that overlap *)

(** One after the other, the second callback finds the flag and schedules
    nothing. *)
Example callbacks_in_turn_schedule_one_retry :
  let w1 := act demo_host (act_call_status completed_by_machine) (one_call_world 0) in
  let w2 := act demo_host (act_call_status amd_callback) w1 in
  Queue.retry_stage <$> queue_inserts (trace w1) = [1]
  ∧ queue_inserts (trace w2) = queue_inserts (trace w1)
  ∧ call_queue w2 = call_queue w1.
Proof. by vm_compute. Qed.

(** C2: the defect.  Two callbacks for the same call-id whose handlers
    both read the row before either has written the flag each find the
    latch unset, each set it, and each insert a retry: two queue entries
    for one carrier-call-id.  Each handler did write the flag before its
    own insert. *)
Theorem racing_callbacks_schedule_two_retries :
  let '(w, a, b) :=
    interleave demo_host both_read_first
      (call_status demo_host completed_by_machine)
      (call_status demo_host amd_callback) (one_call_world 0) in
  finished a = Some {| code := 200; body := "OK. Retryable failure, retry scheduled." |}
  ∧ finished b
    = Some {| code := 200; body := "OK. Machine detected, call ended, retry scheduled." |}
  ∧ (λ q, (Queue.queue_id q, Queue.retry_stage q, Queue.status q)) <$> call_queue w
    = [(2, 1, "pending"); (3, 1, "pending")]
  ∧ omap (λ c, match c with
               | DbGetCall s => Some ("read " +:+ s)
               | DbUpdateCall s (patch_retry_scheduled _) => Some ("flag " +:+ s)
               | DbInsertQueue _ => Some "insert"
               | _ => None
               end) (trace w)
    = ["read CA1"; "read CA1"; "flag CA1"; "insert"; "flag CA1"; "insert"].
Proof. by vm_compute. Qed.

(** The guarded [UPDATE] reports how many rows it changed. *)
Lemma mark_processing_count h id now w :
  (exec h (DbMarkProcessing id now) w).2
  = Z.of_nat (length (filter (λ r, claims id r = true) (call_queue w))).
Proof. reflexivity. Qed.

(** Whatever that count, [process_job] goes on to create the call. *)
Lemma process_job_creates_the_call h job w :
  calls_created (trace (run h (process_job job) w).1)
  = calls_created (trace w) ++ [Queue.call_options_json job].
Proof.
  unfold process_job. run_step.
  destruct (twilio_create h _ _) as [sid|msg]; run_step.
  - unfold setCallData. destruct (truthy (Some sid)) eqn:Et; run_step;
      rewrite run_getCallData, Et; cbn [fst snd];
      [destruct (_ !! _)|]; cbn [fmap option_fmap option_map]; run_step;
      rewrite !calls_created_app; cbn; by rewrite ?app_nil_r.
  - rewrite !calls_created_app. cbn. by rewrite ?app_nil_r.
Qed.

(** C6: the defect.  The transition out of pending is one [UPDATE] guarded
    by [status = 'pending'], but its count of changed rows is dropped: when
    two runs of the processor overlap and both select the same pending
    entry, the second run's [UPDATE] changes no row and the run creates
    the carrier call all the same.  One queue entry, two calls. *)
Theorem overlapping_runs_initiate_an_entry_twice :
  let '(w, a, b) :=
    interleave demo_host both_select_first
      (processCallQueue demo_host) (processCallQueue demo_host) one_job_world in
  (λ q, (Queue.queue_id q, Queue.status q)) <$> call_queue one_job_world
    = [(1, "pending")]
  ∧ finished a = Some () ∧ finished b = Some ()
  ∧ omap (λ c, match c with
               | DbSelectDue _ _ => Some "select"
               | DbMarkProcessing id _ => Some ("update " +:+ pretty id)
               | TwilioCreate o => Some ("create " +:+ CallOptions.to o)
               | DbDeleteQueue id => Some ("delete " +:+ pretty id)
               | _ => None
               end) (trace w)
    = [ "select"; "select";
        "update 1"; "create +390123456789"; "delete 1";
        "update 1"; "create +390123456789"; "delete 1" ]
  ∧ (let before_second_update :=
       (interleave demo_host (take 14 both_select_first)
          (processCallQueue demo_host) (processCallQueue demo_host)
          one_job_world).1.1 in
     (exec demo_host (DbMarkProcessing 1 (clock before_second_update))
        before_second_update).2 = 0)
  ∧ length (calls_created (trace w)) = 2%nat
  ∧ size (calls w) = 2%nat.
Proof. by vm_compute. Qed.

(** ** The media bridge *)

Lemma drop_effects_emit es s :
  drop (length (Bridge.effects s)) (Bridge.effects (Bridge.emit es s)) = es.
Proof. simpl. by rewrite drop_app_length. Qed.

(** C9, as amended.  The carrier side closes the agent side: on a stop
    event, and on the close of the carrier socket, the agent socket is
    closed if it is open (and left alone otherwise).  The agent side does
    not close the carrier side: when the agent socket closes, the carrier
    socket keeps its state and is not told to close; only a notification
    is sent, for close codes other than 1000. *)
Theorem bridge_teardown_is_one_way s :
  (if Bridge.is_open (Bridge.elevenLabsWs s)
   then Bridge.agent_closed s (Bridge.handle s Bridge.carrier_stop)
        ∧ Bridge.elevenLabsWs (Bridge.handle s Bridge.carrier_stop)
          = Some Bridge.CLOSING
   else Bridge.handle s Bridge.carrier_stop = s)
  ∧ (if Bridge.is_open (Bridge.elevenLabsWs s)
     then Bridge.agent_closed s (Bridge.handle s Bridge.carrier_close)
          ∧ Bridge.elevenLabsWs (Bridge.handle s Bridge.carrier_close)
            = Some Bridge.CLOSING
     else Bridge.handle s Bridge.carrier_close = Bridge.set_ws Bridge.CLOSED s)
  ∧ ∀ code,
      let s' := Bridge.handle s (Bridge.agent_close code) in
      Bridge.ws s' = Bridge.ws s
      ∧ Bridge.elevenLabsWs s' = Some Bridge.CLOSED
      ∧ drop (length (Bridge.effects s)) (Bridge.effects s')
        = if code =? 1000 then []
          else [Bridge.notify (NonFatal "ElevenLabs: WebSocket Unexpected Close")].
Proof.
  split; [|split].
  - simpl. destruct (Bridge.is_open (Bridge.elevenLabsWs s)); [|done].
    split; [|done]. unfold Bridge.agent_closed, Bridge.close_elevenLabsWs.
    simpl. rewrite drop_app_length. by apply list_elem_of_singleton.
  - simpl. destruct (Bridge.is_open (Bridge.elevenLabsWs s)); [|done].
    split; [|done]. unfold Bridge.agent_closed, Bridge.close_elevenLabsWs.
    simpl. rewrite drop_app_length. by apply list_elem_of_singleton.
  - intros code. simpl. destruct (code =? 1000); simpl.
    + split; [done|]. split; [done|]. by rewrite drop_all.
    + split; [done|]. split; [done|]. by rewrite drop_app_length.
Qed.

(** No listener ever closes the carrier socket. *)
Lemma no_listener_closes_the_carrier s e :
  Bridge.close_carrier ∉ drop (length (Bridge.effects s))
                              (Bridge.effects (Bridge.handle s e)).
Proof.
  destruct e; simpl; repeat (case_match; simpl);
    rewrite <- ?app_assoc, ?drop_all, ?drop_app_length; simpl; intros Hin;
    repeat (apply elem_of_cons in Hin as [Hin|Hin]; [discriminate|]);
    by apply elem_of_nil in Hin.
Qed.

(** C9, as stated, fails.  A live bridge, both sockets open: the agent
    socket closes, with whatever code, and the carrier socket is neither
    closed nor told to close. *)
Lemma agent_close_leaves_the_carrier_open :
  let live :=
    Bridge.handle_all Bridge.initial
      [ Bridge.carrier_start "MZ1" "CA1" (returned "wss://agent.example/signed");
        Bridge.agent_open ] in
  Bridge.ws live = Bridge.OPEN
  ∧ Bridge.elevenLabsWs live = Some Bridge.OPEN
  ∧ ∀ code, ¬ Bridge.carrier_closed live (Bridge.handle live (Bridge.agent_close code)).
Proof.
  intros live. split; [done|]. split; [done|].
  intros code [H|[H|H]].
  - simpl in H. by destruct (code =? 1000).
  - simpl in H. by destruct (code =? 1000).
  - by apply no_listener_closes_the_carrier in H.
Qed.

(** ** Invariants: the attempt counter and the first-attempt timestamp *)

Section Consistency.

Variables (h : Host) (F : nat → Z).

Lemma with_queue_id_ok n id r : queue_row_ok F n r → queue_row_ok F n (Queue.with_queue_id id r).
Proof. done. Qed.

Lemma with_attempt_ok n st t r : queue_row_ok F n r → queue_row_ok F n (Queue.with_attempt st t r).
Proof. done. Qed.

Lemma with_error_ok n st e r : queue_row_ok F n r → queue_row_ok F n (Queue.with_error st e r).
Proof. done. Qed.

Lemma apply_patch_ok n p r : call_row_ok F n r → call_row_ok F n (apply_patch p r).
Proof. by destruct p. Qed.

Lemma insert_by_scheduled_at_Forall (P : Queue.row → Prop) r l :
  P r → Forall P l → Forall P (insert_by_scheduled_at r l).
Proof.
  intros Hr. induction 1 as [|x l Hx Hl IH]; simpl; [by repeat constructor|].
  destruct (_ <=? _); repeat constructor; done.
Qed.

Lemma select_due_Forall (P : Queue.row → Prop) now limit q :
  Forall P q → Forall P (select_due now limit q).
Proof.
  intros Hq. unfold select_due. apply Forall_take.
  assert (Forall P (filter (λ r, is_due now r = true) q)) as Hf.
  { rewrite Forall_forall in Hq |- *. intros x Hx.
    apply list_elem_of_filter in Hx as [_ Hx]. by apply Hq. }
  induction Hf as [|x l Hx Hl IH]; simpl; [constructor|].
  by apply insert_by_scheduled_at_Forall.
Qed.

Lemma mark_processing_Forall n id now q :
  Forall (queue_row_ok F n) q → Forall (queue_row_ok F n) (mark_processing id now q).
Proof.
  unfold mark_processing. induction 1; simpl; constructor; [|done].
  by destruct (claims id x).
Qed.

Lemma mark_failed_Forall n id msg q :
  Forall (queue_row_ok F n) q → Forall (queue_row_ok F n) (mark_failed id msg q).
Proof.
  unfold mark_failed. induction 1; simpl; constructor; [|done].
  by destruct (_ =? id).
Qed.

Lemma delete_queue_Forall (P : Queue.row → Prop) id q :
  Forall P q → Forall P (delete_queue id q).
Proof.
  unfold delete_queue. rewrite !Forall_forall. intros Hq x Hx.
  apply list_elem_of_filter in Hx as [_ Hx]. by apply Hq.
Qed.

Lemma alter_Forall (P : Calls.row → Prop) f sid (m : gmap string Calls.row) :
  (∀ r, P r → P (f r)) → map_Forall (λ _, P) m → map_Forall (λ _, P) (alter f sid m).
Proof.
  intros Hf Hm k r Hk. apply lookup_alter_Some in Hk as [(_ & r0 & Hr0 & ->)|[_ Hk]].
  - apply Hf. by eapply Hm.
  - by eapply Hm.
Qed.

(** The rows a command adds to the two histories. *)
Lemma queue_inserts_log c w :
  queue_inserts (trace (log c w))
  = queue_inserts (trace w) ++ match c with DbInsertQueue r => [r] | _ => [] end.
Proof. simpl. rewrite queue_inserts_app. by destruct c. Qed.

Lemma call_writes_log c w :
  call_writes (trace (log c w))
  = call_writes (trace w) ++ match c with DbReplaceCall _ r => [r] | _ => [] end.
Proof. simpl. unfold call_writes. rewrite omap_app. by destruct c. Qed.

Lemma consistent_log c w :
  consistent F w → cmd_ok F (next_sequence w) c → consistent F (log c w).
Proof.
  intros (Hq & Hc & Hi & Hw) Hok. unfold consistent.
  rewrite queue_inserts_log, call_writes_log. cbn [call_queue calls next_sequence log].
  refine (conj Hq (conj Hc (conj _ _))).
  - apply Forall_app. split; [done|].
    destruct c; simpl; by constructor.
  - apply Forall_app. split; [done|].
    destruct c; simpl; by constructor.
Qed.

(** One command keeps the store consistent and answers in order. *)
Lemma exec_consistent c w :
  consistent F w → cmd_ok F (next_sequence w) c →
  consistent F (exec h c w).1
  ∧ next_sequence (exec h c w).1 = next_sequence w
  ∧ answer_ok F (next_sequence w) c (exec h c w).2.
Proof.
  intros Hw Hok. pose proof (consistent_log c w Hw Hok) as (Hq & Hc & Hi & Hwr).
  cbn [call_queue calls next_sequence log] in Hq, Hc.
  destruct c; cbn [exec fst snd answer_ok]; try (by destruct Hok);
    (split; [unfold consistent; cbn [call_queue calls next_sequence trace log
               set_queue set_calls set_clock insert_queue];
             refine (conj _ (conj _ (conj Hi Hwr)))
            |split; [done|]]); try done.
  - (* DbGetCall *) intros r Hr. by eapply (Hc callSid).
  - (* DbReplaceCall *) by apply map_Forall_insert_2.
  - (* DbUpdateCall *) apply alter_Forall; [|done]. intros r0. apply apply_patch_ok.
  - (* DbInsertQueue *) apply Forall_app. split; [done|]. by apply Forall_singleton.
  - (* DbSelectDue *) by apply select_due_Forall.
  - (* DbMarkProcessing *) by apply mark_processing_Forall.
  - (* DbMarkFailed *) by apply mark_failed_Forall.
  - (* DbDeleteQueue *) by apply delete_queue_Forall.
Qed.

Lemma safe_run {A} n (Q : A → Prop) (p : prog A) w :
  safe F n Q p → consistent F w → next_sequence w = n →
  consistent F (run h p w).1 ∧ next_sequence (run h p w).1 = n ∧ Q (run h p w).2.
Proof.
  revert w. induction p as [a|c k IH]; intros w Hs Hw Hn; simpl in *; [done|].
  destruct Hs as [Hc Hk]. subst n.
  destruct (exec_consistent c w Hw Hc) as (Hw' & Hn' & Ha).
  apply IH; [by apply Hk|done|done].
Qed.

Lemma safe_bind {A B} n (Q : A → Prop) (R : B → Prop) (p : prog A) (f : A → prog B) :
  safe F n Q p → (∀ a, Q a → safe F n R (f a)) → safe F n R (bind p f).
Proof.
  induction p as [a|c k IH]; simpl; [by auto|].
  intros [Hc Hk] Hf. split; [done|]. intros x Hx. apply IH; [by apply Hk|done].
Qed.

Lemma safe_weaken {A} n (Q R : A → Prop) (p : prog A) :
  (∀ a, Q a → R a) → safe F n Q p → safe F n R p.
Proof.
  intros HQR. induction p as [a|c k IH]; simpl; [by auto|].
  intros [Hc Hk]. split; [done|]. intros x Hx. by apply IH, Hk.
Qed.

End Consistency.

(** *** The handlers issue only commands that are in order *)

Section Safety.

Variables (h : Host) (F : nat → Z) (n : nat).

Local Abbreviation any := (λ _, True).

Lemma safe_scheduled_at_base z options config :
  safe F n any (scheduled_at_base z options config).
Proof.
  unfold scheduled_at_base. destruct (forceImmediate options); [|destruct config];
    simpl; repeat split; done.
Qed.

Lemma safe_scheduleRetry call sid options :
  call_data_ok F n call → safe F n any (scheduleRetry h call sid options).
Proof.
  intros ((c & Hc & Hrange) & (Hfat & Hseq)). unfold scheduleRetry.
  rewrite Hfat, Hc. cbn [bind default from_option id].
  destruct (c >=? MAX_TOTAL_ATTEMPTS - 1) eqn:E; [by simpl|].
  eapply safe_bind; [apply safe_scheduled_at_base|]. intros t _.
  destruct (negb _ || negb _); [by simpl|].
  simpl. split; [|done]. split; [|done].
  unfold stage_ok. simpl. unfold MAX_TOTAL_ATTEMPTS in *. lia.
Qed.

Lemma safe_updateCallData sid p : safe F n any (updateCallData sid p).
Proof. unfold updateCallData. by destruct (truthy sid). Qed.

Lemma of_row_ok r : call_row_ok F n r → call_data_ok F n (CallData.of_row r).
Proof. intros [Hc Hs]. split; [|done]. by eexists. Qed.

Lemma safe_getCallData sid :
  safe F n (λ r, ∀ call, r = Some call → call_data_ok F n call) (getCallData sid).
Proof.
  unfold getCallData. destruct (truthy sid); [|done].
  simpl. split; [done|]. intros x Hx call Hcall.
  destruct x as [r|]; [|done]. injection Hcall as <-. by apply of_row_ok, Hx.
Qed.

Lemma safe_end_call sid : safe F n any (end_call_after_machine_detection sid).
Proof.
  unfold end_call_after_machine_detection.
  eapply safe_bind; [apply safe_updateCallData|]. intros _ _.
  simpl. split; [done|]. intros [st|msg] _; [|by simpl].
  destruct (negb _); [|done]. simpl. split; [done|]. by intros [[]|].
Qed.

Lemma safe_record_answeredBy req call : safe F n any (record_answeredBy req call).
Proof.
  unfold record_answeredBy. destruct (_ && _); [apply safe_updateCallData|done].
Qed.

Lemma safe_handle_status req call :
  call_data_ok F n call → safe F n any (handle_status h req call).
Proof.
  intros Hcall. unfold handle_status. destruct (negb _); [done|].
  eapply safe_bind; [apply safe_record_answeredBy|]. intros _ _.
  destruct (_ && negb _).
  { eapply safe_bind; [apply safe_end_call|]. intros _ _.
    eapply safe_bind; [by apply safe_scheduleRetry|]. done. }
  destruct (isRetryableFailure req call).
  { eapply safe_bind; [apply safe_updateCallData|]. intros _ _.
    eapply safe_bind; [by apply safe_scheduleRetry|]. done. }
  destruct (_ && negb _); [by simpl|].
  by destruct (_ && negb _).
Qed.

Lemma safe_call_status req : safe F n any (call_status h req).
Proof.
  unfold call_status.
  eapply safe_bind; [apply safe_getCallData|]. intros [call|] Hcall.
  { by apply safe_handle_status, Hcall. }
  simpl. split; [done|]. intros _ _.
  eapply safe_bind; [apply safe_getCallData|]. intros [call|] Hlate.
  { by apply safe_handle_status, Hlate. }
  by simpl.
Qed.

Lemma safe_process_job job :
  queue_row_ok F n job → safe F n any (process_job job).
Proof.
  intros [Hst Hfat]. unfold process_job.
  simpl. split; [done|]. intros now _. split; [done|]. intros _ _.
  split; [done|]. intros [sid|msg] _; [|by simpl].
  simpl. split; [done|]. intros created_at _.
  eapply safe_bind with (Q := any).
  { unfold setCallData. destruct (truthy (Some sid)); [|done].
    simpl. split; [|done]. split; done. }
  intros _ _. eapply safe_bind; [apply safe_getCallData|].
  intros [call|] _; by simpl.
Qed.

Lemma safe_for_each jobs :
  Forall (queue_row_ok F n) jobs → safe F n any (for_each jobs process_job).
Proof.
  induction 1 as [|job jobs Hjob _ IH]; [done|].
  cbn [for_each]. eapply safe_bind; [by apply safe_process_job|]. by intros _ _.
Qed.

Lemma safe_processCallQueue : safe F n any (processCallQueue h).
Proof.
  unfold processCallQueue, countActiveTwilioCalls.
  simpl. split; [done|]. intros [active|msg] _; simpl;
    (destruct (_ <=? 0); [done|]; simpl; split; [done|]; intros now _;
     split; [done|]; intros jobs Hjobs; by apply safe_for_each).
Qed.

End Safety.

(** *** A new sequence *)

Lemma stamped_extend F F' n s t :
  (∀ s', (s' < n)%nat → F' s' = F s') →
  stamped F n s t → stamped F' (S n) s t.
Proof. intros Hagree [-> Hs]. split; [|lia]. by rewrite Hagree. Qed.

Lemma consistent_extend F F' w w' :
  (∀ s, (s < next_sequence w)%nat → F' s = F s) →
  next_sequence w' = S (next_sequence w) →
  consistent F w →
  Forall (queue_row_ok F' (next_sequence w')) (call_queue w)
  ∧ map_Forall (λ _, call_row_ok F' (next_sequence w')) (calls w)
  ∧ Forall (queue_row_ok F' (next_sequence w')) (queue_inserts (trace w))
  ∧ Forall (call_row_ok F' (next_sequence w')) (call_writes (trace w)).
Proof.
  intros Hagree -> (Hq & Hc & Hi & Hw).
  assert (∀ r, queue_row_ok F (next_sequence w) r
               → queue_row_ok F' (S (next_sequence w)) r) as Hqr.
  { intros r [? ?]. split; [done|]. by eapply stamped_extend. }
  assert (∀ r, call_row_ok F (next_sequence w) r
               → call_row_ok F' (S (next_sequence w)) r) as Hcr.
  { intros r [? ?]. split; [done|]. by eapply stamped_extend. }
  refine (conj _ (conj _ (conj _ _))).
  - eapply Forall_impl; [exact Hq|done].
  - intros k r Hk. by apply Hcr, (Hc k).
  - eapply Forall_impl; [exact Hi|done].
  - eapply Forall_impl; [exact Hw|done].
Qed.

Lemma outbound_call_consistent h F b w :
  consistent F w → ∃ F', consistent F' (run h (outbound_call h b) w).1.
Proof.
  intros Hw. unfold outbound_call. cbv zeta.
  destruct (negb _ || negb _).
  { exists F. run_step. by apply consistent_log. }
  unfold getSignedUrl. run_step.
  destruct (signed_url h _) as [url|msg]; run_step.
  2: { exists F. by do 3 (apply consistent_log; [|done]). }
  set (n := next_sequence w).
  exists (λ s, if decide (s = n) then clock w else F s).
  match goal with |- consistent ?F' ?w' =>
    destruct (consistent_extend F F' w w') as (Hq & Hc & Hi & Hwr);
      [intros s Hs; by rewrite decide_False by (unfold n; lia)|done|done|]
  end.
  cbn [next_sequence log insert_queue take_sequence] in Hq, Hc, Hi, Hwr.
  unfold consistent.
  cbn [call_queue calls trace next_sequence log insert_queue take_sequence].
  rewrite !queue_inserts_app. unfold call_writes. rewrite !omap_app. cbn [omap].
  rewrite !app_nil_r.
  assert (∀ r, Queue.retry_stage r = 0
               → Queue.first_attempt_timestamp r = Some (clock w)
               → Queue.sequence r = n
               → queue_row_ok (λ s, if decide (s = n) then clock w else F s) (S n) r)
    as Hnew.
  { intros r H0 Ht Hs. split; [unfold stage_ok; by rewrite H0|].
    split; [|lia]. by rewrite Hs, decide_True. }
  refine (conj _ (conj Hc (conj _ Hwr))).
  - apply Forall_app. split; [done|]. apply Forall_singleton. by apply Hnew.
  - apply Forall_app. split; [done|]. apply Forall_singleton. by apply Hnew.
Qed.

(** Every store the service can reach is consistent. *)
Lemma reachable_consistent h w : reachable h w → ∃ F, consistent F w.
Proof.
  induction 1 as [t|w a _ [F Hw]].
  - exists (λ _, 0). unfold consistent. simpl.
    refine (conj _ (conj _ (conj _ _))); by constructor.
  - destruct a as [b|req| |ms]; simpl.
    + by eapply outbound_call_consistent.
    + exists F.
      by destruct (safe_run h F (next_sequence w) (λ _, True) (call_status h req) w
                     (safe_call_status h F _ req) Hw eq_refl).
    + exists F.
      by destruct (safe_run h F (next_sequence w) (λ _, True) (processCallQueue h) w
                     (safe_processCallQueue h F _) Hw eq_refl).
    + by exists F.
Qed.

Example mario_fails_once_history :
  (λ r, (Queue.retry_stage r, Queue.first_attempt_timestamp r, Queue.sequence r))
    <$> queue_inserts (trace mario_fails_once)
  = [ (0, Some (utcDate 2025 3 14 10 0 0), 0%nat);
      (1, Some (utcDate 2025 3 14 10 0 0), 0%nat) ]
  ∧ (λ r, (Calls.retry_count r, Calls.first_attempt_timestamp r, Calls.sequence r))
      <$> call_writes (trace mario_fails_once)
    = [ (0, Some (utcDate 2025 3 14 10 0 0), 0%nat);
        (1, Some (utcDate 2025 3 14 10 0 0), 0%nat) ]
  ∧ call_queue mario_fails_once = [].
Proof. by vm_compute. Qed.

(** C5. Called with a retry count of 9 or more (MAX_TOTAL_ATTEMPTS is
    10), [scheduleRetry] inserts no queue entry and sends the "max
    attempts reached" notification instead; and every queue entry ever
    inserted, by the ingress or by [scheduleRetry], has an attempt index
    between 0 and 9. *)
Theorem retries_stop_at_the_last_rung h :
  (∀ call sid options w,
     MAX_TOTAL_ATTEMPTS - 1 ≤ attempt_of call →
     let w' := (run h (scheduleRetry h call sid options) w).1 in
     same_store w w'
     ∧ queue_inserts (trace w') = queue_inserts (trace w)
     ∧ notifications (trace w')
       = notifications (trace w) ++ [NonFatal "Outgoing Call: Max Attempts Reached"])
  ∧ (∀ w, reachable h w →
       Forall (λ r, 0 ≤ Queue.retry_stage r ≤ MAX_TOTAL_ATTEMPTS - 1)
         (queue_inserts (trace w))
       ∧ Forall (λ r, 0 ≤ Queue.retry_stage r ≤ MAX_TOTAL_ATTEMPTS - 1)
           (call_queue w)).
Proof.
  split.
  - intros call sid options w Hi w'. subst w'.
    destruct (scheduleRetry_exhausted h call sid options w Hi) as [Hs Ht].
    split; [done|]. rewrite Ht, !queue_inserts_app, !notifications_app.
    rewrite (queue_inserts_reads _ (timestamp_read_clock call)).
    rewrite (notifications_reads _ (timestamp_read_clock call)).
    simpl. by rewrite app_nil_r.
  - intros w Hw. destruct (reachable_consistent h w Hw) as (F & Hq & _ & Hi & _).
    split; (eapply Forall_impl; [eassumption|]); by intros r [? _].
Qed.

Lemma retries_stop_at_the_last_rung_witness :
  (let w := one_call_world 9 in
   let w' := (run demo_host
                (scheduleRetry demo_host (CallData.of_row (mario_row 9)) (Some "CA1")
                   {| reason := Some "retryable_failure"; forceImmediate := false |})
                w).1 in
   same_store w w'
   ∧ queue_inserts (trace w') = queue_inserts (trace w)
   ∧ notifications (trace w')
     = notifications (trace w) ++ [NonFatal "Outgoing Call: Max Attempts Reached"])
  ∧ Forall (λ r, 0 ≤ Queue.retry_stage r ≤ MAX_TOTAL_ATTEMPTS - 1)
      (queue_inserts (trace mario_fails_once)).
Proof.
  split.
  - apply (proj1 (retries_stop_at_the_last_rung demo_host)). vm_compute. discriminate.
  - apply (proj2 (retries_stop_at_the_last_rung demo_host)).
    unfold mario_fails_once, one_job_world. repeat constructor.
Defined.

(** C7. Each retry sequence has one first-attempt timestamp: the ingress
    fixes it with the initial entry, the queue processor copies it into
    every CallState row it writes, [scheduleRetry] copies it into every
    entry it inserts, and nothing rewrites it.  So every queue entry and
    every CallState row of a sequence, those ever written and those in
    the tables, carry the same one. *)
Theorem first_attempt_timestamp_is_constant h w :
  reachable h w →
  ∃ F : nat → Z,
    Forall (λ r, Queue.first_attempt_timestamp r = Some (F (Queue.sequence r)))
      (queue_inserts (trace w))
    ∧ Forall (λ r, Calls.first_attempt_timestamp r = Some (F (Calls.sequence r)))
        (call_writes (trace w))
    ∧ Forall (λ r, Queue.first_attempt_timestamp r = Some (F (Queue.sequence r)))
        (call_queue w)
    ∧ map_Forall (λ _ r, Calls.first_attempt_timestamp r = Some (F (Calls.sequence r)))
        (calls w).
Proof.
  intros Hw. destruct (reachable_consistent h w Hw) as (F & Hq & Hc & Hi & Hwr).
  exists F. refine (conj _ (conj _ (conj _ _))).
  - eapply Forall_impl; [exact Hi|]. by intros r [_ [? _]].
  - eapply Forall_impl; [exact Hwr|]. by intros r [_ [? _]].
  - eapply Forall_impl; [exact Hq|]. by intros r [_ [? _]].
  - intros k r Hk. by destruct (Hc k r Hk) as [_ [? _]].
Qed.

Lemma first_attempt_timestamp_is_constant_witness :
  ∃ F : nat → Z,
    Forall (λ r, Queue.first_attempt_timestamp r = Some (F (Queue.sequence r)))
      (queue_inserts (trace mario_fails_once))
    ∧ Forall (λ r, Calls.first_attempt_timestamp r = Some (F (Calls.sequence r)))
        (call_writes (trace mario_fails_once))
    ∧ Forall (λ r, Queue.first_attempt_timestamp r = Some (F (Queue.sequence r)))
        (call_queue mario_fails_once)
    ∧ map_Forall (λ _ r, Calls.first_attempt_timestamp r = Some (F (Calls.sequence r)))
        (calls mario_fails_once).
Proof.
  apply (first_attempt_timestamp_is_constant demo_host mario_fails_once).
  unfold mario_fails_once, one_job_world. repeat constructor.
Defined.

(** ** Footprints *)

Lemma trace_exec h c w : trace (exec h c w).1 = trace w ++ [c].
Proof. by destruct c. Qed.

Lemma run_extends {A} h (p : prog A) w :
  ∃ new, trace (run h p w).1 = trace w ++ new.
Proof.
  revert w. induction p as [a|c k IH]; intros w; simpl.
  - exists []. by rewrite app_nil_r.
  - destruct (IH (exec h c w).2 (exec h c w).1) as [new E].
    exists (c :: new). by rewrite E, trace_exec, <- app_assoc.
Qed.

Lemma run_issued {A} h (p : prog A) w :
  trace (run h p w).1 = trace w ++ issued h p w.
Proof.
  unfold issued. destruct (run_extends h p w) as [new E].
  by rewrite E, drop_app_length.
Qed.

Lemma issued_Vis {A} h c (k : answer c → prog A) w :
  issued h (Vis c k) w = c :: issued h (k (exec h c w).2) (exec h c w).1.
Proof.
  apply (app_inv_head (trace w)). rewrite <- run_issued. simpl.
  by rewrite run_issued, trace_exec, <- app_assoc.
Qed.

Lemma issued_bind {A B} h (p : prog A) (f : A → prog B) w :
  issued h (bind p f) w
  = issued h p w ++ issued h (f (run h p w).2) (run h p w).1.
Proof.
  revert w. induction p as [a|c k IH]; intros w.
  - simpl. unfold issued at 2. simpl. by rewrite drop_all.
  - cbn [bind]. rewrite !issued_Vis, IH. done.
Qed.

Lemma emits_run {A} (P : Cmd → Prop) (Q : A → Prop) (p : prog A) h w :
  emits P Q p → Forall P (issued h p w) ∧ Q (run h p w).2.
Proof.
  revert w. induction p as [a|c k IH]; intros w Hp.
  - unfold issued. simpl. by rewrite drop_all.
  - destruct Hp as [Hc Hk]. rewrite issued_Vis. simpl.
    destruct (IH (exec h c w).2 (exec h c w).1 (Hk _)) as [Hi Hq].
    split; [by constructor|done].
Qed.

Lemma emits_bind {A B} (P : Cmd → Prop) (Q : A → Prop) (R : B → Prop)
    (p : prog A) (f : A → prog B) :
  emits P Q p → (∀ a, Q a → emits P R (f a)) → emits P R (bind p f).
Proof.
  induction p as [a|c k IH]; simpl; [by auto|].
  intros [Hc Hk] Hf. split; [done|]. intros x. by apply IH.
Qed.

Lemma emits_weaken {A} (P P' : Cmd → Prop) (Q Q' : A → Prop) (p : prog A) :
  (∀ c, P c → P' c) → (∀ a, Q a → Q' a) → emits P Q p → emits P' Q' p.
Proof.
  intros HP HQ. induction p as [a|c k IH]; simpl; [by auto|].
  intros [Hc Hk]. split; [by auto|]. intros x. by apply IH.
Qed.

(** A property of the store that each command of a class keeps is kept by
    every program that issues only commands of the class. *)
Lemma emits_keeps {A} (P : Cmd → Prop) (Q : A → Prop) (I : World → Prop) h
    (p : prog A) w :
  (∀ c w, P c → I w → I (exec h c w).1) →
  emits P Q p → I w → I (run h p w).1.
Proof.
  intros Hstep. revert w. induction p as [a|c k IH]; intros w Hp Hw; simpl; [done|].
  destruct Hp as [Hc Hk]. apply IH; [done|]. by apply Hstep.
Qed.

(** *** The status handler *)

Lemma emits_scheduled_at_base P z options config :
  P Clock → emits P (λ _, True) (scheduled_at_base z options config).
Proof.
  intros HP. unfold scheduled_at_base.
  destruct (forceImmediate options); [|destruct config]; simpl; repeat split; done.
Qed.

Lemma emits_scheduleRetry h call sid options :
  emits status_command (λ _, True) (scheduleRetry h call sid options).
Proof.
  unfold scheduleRetry.
  eapply emits_bind with (Q := λ _, True).
  { by destruct (CallData.first_attempt_timestamp call). }
  intros t _. destruct (_ >=? _); [by simpl|].
  eapply emits_bind; [by apply emits_scheduled_at_base|]. intros s _.
  destruct (negb _ || negb _); by simpl.
Qed.

Lemma emits_getCallData sid :
  emits status_command (λ _, True) (getCallData sid).
Proof. unfold getCallData. by destruct (truthy sid). Qed.

Lemma emits_updateCallData sid p :
  emits status_command (λ _, True) (updateCallData sid p).
Proof. unfold updateCallData. by destruct (truthy sid). Qed.

Lemma emits_end_call sid :
  emits status_command (λ _, True) (end_call_after_machine_detection sid).
Proof.
  unfold end_call_after_machine_detection.
  eapply emits_bind; [apply emits_updateCallData|]. intros _ _.
  simpl. split; [done|]. intros [st|msg]; [|by simpl].
  destruct (negb _); [|done]. simpl. split; [done|]. by intros [[]|].
Qed.

Lemma emits_handle_status h req call :
  emits status_command (λ r, code r = 200) (handle_status h req call).
Proof.
  unfold handle_status. destruct (negb _); [done|].
  eapply emits_bind with (Q := λ _, True).
  { unfold record_answeredBy. destruct (_ && _); [apply emits_updateCallData|done]. }
  intros _ _. destruct (_ && negb _).
  { eapply emits_bind; [apply emits_end_call|]. intros _ _.
    eapply emits_bind; [apply emits_scheduleRetry|]. done. }
  destruct (isRetryableFailure req call).
  { eapply emits_bind; [apply emits_updateCallData|]. intros _ _.
    eapply emits_bind; [apply emits_scheduleRetry|]. done. }
  destruct (_ && negb _); [by simpl|]. by destruct (_ && negb _).
Qed.

Lemma emits_call_status h req :
  emits status_command (λ r, code r = 200) (call_status h req).
Proof.
  unfold call_status.
  eapply emits_bind; [apply emits_getCallData|]. intros [call|] _.
  { apply emits_handle_status. }
  simpl. split; [done|]. intros _.
  eapply emits_bind; [apply emits_getCallData|]. intros [call|] _.
  { apply emits_handle_status. }
  by simpl.
Qed.

(** What the commands of the status handler leave alone. *)
Lemma status_command_keeps h D q c w :
  status_command c →
  dom (calls w) = D ∧ q `prefix_of` call_queue w →
  dom (calls (exec h c w).1) = D ∧ q `prefix_of` call_queue (exec h c w).1.
Proof.
  intros Hc [Hd Hq]. destruct c; try done; simpl.
  - split; [|done]. by rewrite dom_alter_L.
  - split; [done|]. by apply prefix_app_r.
Qed.

Lemma calls_created_none (P : Cmd → Prop) cmds :
  (∀ o, ¬ P (TwilioCreate o)) → Forall P cmds → calls_created cmds = [].
Proof.
  intros HP. induction 1 as [|c l Hc _ IH]; [done|].
  destruct c; simpl; try done. by destruct (HP options).
Qed.

Lemma queue_inserts_none (P : Cmd → Prop) cmds :
  (∀ r, ¬ P (DbInsertQueue r)) → Forall P cmds → queue_inserts cmds = [].
Proof.
  intros HP. induction 1 as [|c l Hc _ IH]; [done|].
  destruct c; simpl; try done. by destruct (HP r).
Qed.


(** X2. The status handler never places a call, never creates or deletes
    a row of [calls] and never removes or rewrites a queue entry: it
    issues only lookups and patches of [calls], inserts into
    [call_queue], clock reads, the sleep, the carrier's fetch and complete
    and notifications; the call-ids tracked stay the same and the queue
    it found is a prefix of the queue it leaves. *)
Theorem status_handler_footprint h req w :
  let w' := (run h (call_status h req) w).1 in
  Forall status_command (issued h (call_status h req) w)
  ∧ dom (calls w') = dom (calls w)
  ∧ call_queue w `prefix_of` call_queue w'
  ∧ calls_created (trace w') = calls_created (trace w).
Proof.
  pose proof (emits_call_status h req) as He.
  destruct (emits_run _ _ _ h w He) as [Hi _]. cbv zeta.
  split; [done|].
  destruct (emits_keeps status_command (λ r, code r = 200)
              (λ w', dom (calls w') = dom (calls w)
                     ∧ call_queue w `prefix_of` call_queue w') h
              (call_status h req) w) as [Hd Hq];
    [intros c w0 Hc Hw0; by apply status_command_keeps|exact He|done|].
  split; [done|]. split; [done|].
  rewrite run_issued, calls_created_app.
  rewrite (calls_created_none status_command (issued h (call_status h req) w));
    [by rewrite app_nil_r| |done].
  intros o Ho. exact Ho.
Qed.

(** ** The queue processor *)

Lemma emits_process_job job :
  emits processor_command (λ _, True) (process_job job).
Proof.
  unfold process_job. simpl. split; [done|]. intros now. split; [done|]. intros _.
  split; [done|]. intros [sid|msg]; [|by simpl].
  simpl. split; [done|]. intros created_at.
  eapply emits_bind with (Q := λ _, True).
  { unfold setCallData. by destruct (truthy (Some sid)). }
  intros _ _. eapply emits_bind with (Q := λ _, True).
  { unfold getCallData. by destruct (truthy (Some sid)). }
  intros [call|] _; by simpl.
Qed.

Lemma emits_for_each jobs :
  emits processor_command (λ _, True) (for_each jobs process_job).
Proof.
  induction jobs as [|job jobs IH]; [done|]. cbn [for_each].
  eapply emits_bind; [apply emits_process_job|]. by intros _ _.
Qed.

Lemma emits_processCallQueue h :
  emits processor_command (λ _, True) (processCallQueue h).
Proof.
  unfold processCallQueue, countActiveTwilioCalls. simpl. split; [done|].
  intros [active|msg]; simpl;
    (destruct (_ <=? 0); [done|]; simpl; split; [done|]; intros now;
     split; [done|]; intros jobs; apply emits_for_each).
Qed.

Lemma mark_processing_ids id now q :
  Queue.queue_id <$> mark_processing id now q = Queue.queue_id <$> q.
Proof.
  unfold mark_processing. induction q as [|r q IH]; [done|].
  simpl. f_equal; [by destruct (claims id r)|done].
Qed.

Lemma mark_failed_ids id msg q :
  Queue.queue_id <$> mark_failed id msg q = Queue.queue_id <$> q.
Proof.
  unfold mark_failed. induction q as [|r q IH]; [done|].
  simpl. f_equal; [by destruct (_ =? id)|done].
Qed.

Lemma delete_queue_ids id q :
  Queue.queue_id <$> delete_queue id q `sublist_of` Queue.queue_id <$> q.
Proof. unfold delete_queue. apply fmap_sublist, sublist_filter. Qed.

Lemma processor_command_keeps h ids L c w :
  processor_command c →
  Queue.queue_id <$> call_queue w `sublist_of` ids ∧ last_queue_id w = L →
  Queue.queue_id <$> call_queue (exec h c w).1 `sublist_of` ids
  ∧ last_queue_id (exec h c w).1 = L.
Proof.
  intros Hc [Hs Hl]. destruct c; try done; simpl; (split; [|done]).
  - by rewrite mark_processing_ids.
  - by rewrite mark_failed_ids.
  - etrans; [apply delete_queue_ids|done].
Qed.

(** X3. The queue processor never schedules anything: a run inserts no
    queue entry, patches no row of [calls] (it never sets a latch) and
    never asks the carrier to end a call, whatever the carrier answers;
    the entries it leaves are entries it found, in their order, and no
    queue id is consumed.  An initiation that fails uses no rung of the
    ladder. *)
Theorem processor_schedules_nothing h w :
  let w' := (run h (processCallQueue h) w).1 in
  Forall processor_command (issued h (processCallQueue h) w)
  ∧ queue_inserts (trace w') = queue_inserts (trace w)
  ∧ Queue.queue_id <$> call_queue w' `sublist_of` Queue.queue_id <$> call_queue w
  ∧ last_queue_id w' = last_queue_id w.
Proof.
  pose proof (emits_processCallQueue h) as He.
  destruct (emits_run _ _ _ h w He) as [Hi _]. cbv zeta.
  split; [done|].
  destruct (emits_keeps processor_command (λ _, True)
              (λ w', Queue.queue_id <$> call_queue w'
                       `sublist_of` Queue.queue_id <$> call_queue w
                     ∧ last_queue_id w' = last_queue_id w) h
              (processCallQueue h) w) as [Hs Hl];
    [intros c w0 Hc Hw0; by apply processor_command_keeps|exact He|done|].
  split; [|done].
  rewrite run_issued, queue_inserts_app.
  rewrite (queue_inserts_none processor_command (issued h (processCallQueue h) w));
    [by rewrite app_nil_r| |done].
  intros r Hr. exact Hr.
Qed.

(** *** One run of the processor *)

Lemma for_each_calls_created h jobs w :
  calls_created (trace (run h (for_each jobs process_job) w).1)
  = calls_created (trace w) ++ (Queue.call_options_json <$> jobs).
Proof.
  revert w. induction jobs as [|job jobs IH]; intros w.
  - simpl. by rewrite app_nil_r.
  - rewrite run_for_each_cons, IH, process_job_creates_the_call.
    by rewrite <- app_assoc.
Qed.

Lemma run_processCallQueue_full h w :
  available_slots h w ≤ 0 →
  run h (processCallQueue h) w = (log TwilioListActive w, ()).
Proof.
  unfold available_slots, processCallQueue, countActiveTwilioCalls. intros Hs.
  run_step. destruct (twilio_active h _) as [n|msg]; run_step;
    (destruct (_ <=? 0) eqn:E; [done|lia]).
Qed.

Lemma run_processCallQueue_free h w :
  0 < available_slots h w →
  run h (processCallQueue h) w
  = run h (for_each (select_due (clock w) (available_slots h w) (call_queue w))
             process_job)
      (log (DbSelectDue (clock w) (available_slots h w))
         (log Clock (log TwilioListActive w))).
Proof.
  unfold available_slots, processCallQueue, countActiveTwilioCalls. intros Hs.
  run_step. destruct (twilio_active h _) as [n|msg]; run_step;
    (destruct (_ <=? 0) eqn:E; [lia|]); by run_step.
Qed.

Lemma calls_created_issued {A} h (p : prog A) w :
  calls_created (trace (run h p w).1)
  = calls_created (trace w) ++ calls_created (issued h p w).
Proof. by rewrite run_issued, calls_created_app. Qed.

Lemma tick_calls_created h w :
  calls_created (issued h (processCallQueue h) w)
  = if decide (0 < available_slots h w)
    then Queue.call_options_json
           <$> select_due (clock w) (available_slots h w) (call_queue w)
    else [].
Proof.
  apply (app_inv_head (calls_created (trace w))).
  rewrite <- calls_created_issued. destruct (decide _) as [Hs|Hs].
  - rewrite run_processCallQueue_free, for_each_calls_created by done.
    cbn [trace log]. rewrite !calls_created_app. cbn. by rewrite !app_nil_r.
  - rewrite run_processCallQueue_full by lia. cbn [fst trace log].
    rewrite calls_created_app. done.
Qed.

Lemma insert_by_scheduled_at_perm r l : insert_by_scheduled_at r l ≡ₚ r :: l.
Proof.
  induction l as [|x l IH]; [done|]. simpl. destruct (_ <=? _); [done|].
  rewrite IH. apply Permutation_swap.
Qed.

Lemma sort_by_scheduled_at_perm l : foldr insert_by_scheduled_at [] l ≡ₚ l.
Proof.
  induction l as [|x l IH]; [done|]. simpl.
  by rewrite insert_by_scheduled_at_perm, IH.
Qed.

Lemma insert_by_scheduled_at_sorted r l :
  StronglySorted not_after l → StronglySorted not_after (insert_by_scheduled_at r l).
Proof.
  induction 1 as [|x l Hl IH Hx]; simpl; [by repeat constructor|].
  destruct (Queue.scheduled_at r <=? Queue.scheduled_at x) eqn:E.
  - constructor; [by constructor|]. constructor; [unfold not_after; lia|].
    eapply Forall_impl; [exact Hx|]. unfold not_after. intros y Hy. lia.
  - constructor; [done|]. rewrite insert_by_scheduled_at_perm.
    constructor; [unfold not_after; lia|done].
Qed.

Lemma sort_by_scheduled_at_sorted l :
  StronglySorted not_after (foldr insert_by_scheduled_at [] l).
Proof.
  induction l as [|x l IH]; simpl; [constructor|].
  by apply insert_by_scheduled_at_sorted.
Qed.

Lemma select_due_length now limit q :
  length (select_due now limit q)
  = (Z.to_nat limit `min` length (filter (λ r, is_due now r = true) q))%nat.
Proof.
  unfold select_due. by rewrite length_take, sort_by_scheduled_at_perm.
Qed.

Lemma select_due_spec now limit q :
  let jobs := select_due now limit q in
  StronglySorted not_after jobs
  ∧ Forall (λ j, j ∈ q ∧ Queue.status j = "pending" ∧ Queue.scheduled_at j ≤ now) jobs
  ∧ ∀ r, r ∈ q → is_due now r = true → r ∉ jobs → Forall (λ j, not_after j r) jobs.
Proof.
  cbv zeta. unfold select_due.
  set (due := filter (λ r, is_due now r = true) q).
  pose proof (sort_by_scheduled_at_sorted due) as Hs.
  pose proof (sort_by_scheduled_at_perm due) as Hp.
  set (l := foldr insert_by_scheduled_at [] due) in *.
  rewrite <- (take_drop (Z.to_nat limit) l) in Hs. refine (conj _ (conj _ _)).
  - by apply StronglySorted_app_1_l in Hs.
  - apply Forall_forall. intros j Hj.
    assert (j ∈ due) as Hd.
    { rewrite <- Hp. rewrite <- (take_drop (Z.to_nat limit) l). set_solver. }
    apply list_elem_of_filter in Hd as [Hd Hq]. split; [done|].
    unfold is_due in Hd. apply andb_true_iff in Hd as [H1 H2].
    apply String.eqb_eq in H1. split; [done|lia].
  - intros r Hq Hd Hn. apply Forall_forall. intros j Hj.
    eapply StronglySorted_app_1_elem_of; [exact Hs|exact Hj|].
    assert (r ∈ l) as Hl.
    { rewrite Hp. by apply list_elem_of_filter. }
    rewrite <- (take_drop (Z.to_nat limit) l) in Hl.
    apply elem_of_app in Hl as [Hl|Hl]; [done|done].
Qed.

(** X4. A run of the processor never goes over the concurrency cap: the
    calls it asks the carrier to create are at most [MAX_ACTIVE] minus the
    calls the carrier listed as active (none when that is not positive or
    the listing failed). *)
Theorem tick_respects_the_cap h w :
  (length (calls_created (issued h (processCallQueue h) w))
   ≤ Z.to_nat (available_slots h w))%nat.
Proof.
  rewrite tick_calls_created. destruct (decide _); [|simpl; lia].
  rewrite length_fmap, select_due_length. lia.
Qed.

(** X5. The processor fails closed.  When the carrier cannot list its
    active calls, or lists as many as the cap allows, the run ends after
    the listing: the queue is not read, no entry is marked, no call is
    created, the store is as it was. *)
Theorem tick_is_fail_closed h w :
  match twilio_active h (length (trace w)) with
  | returned active => MAX_ACTIVE h ≤ active
  | thrown _ => True
  end →
  issued h (processCallQueue h) w = [TwilioListActive]
  ∧ same_store w (run h (processCallQueue h) w).1.
Proof.
  intros Hfull.
  assert (available_slots h w ≤ 0) as Hs.
  { unfold available_slots. destruct (twilio_active h _); lia. }
  unfold issued. rewrite run_processCallQueue_full by done.
  cbn [fst trace log]. rewrite drop_app_length. split; [done|].
  apply same_store_log.
Qed.

Lemma tick_is_fail_closed_witness :
  issued carrier_down_host (processCallQueue carrier_down_host) one_job_world
  = [TwilioListActive]
  ∧ same_store one_job_world
      (run carrier_down_host (processCallQueue carrier_down_host) one_job_world).1.
Proof. apply (tick_is_fail_closed carrier_down_host one_job_world). exact I. Defined.

(** X6. With free slots, a run of the processor asks the carrier for the
    calls of the entries its [SELECT] returns, one call per entry and in
    that order: entries of the queue that are pending and due, earliest
    [scheduled_at] first, as many as there are slots (or due entries); a
    due entry that is left out is scheduled no earlier than any entry
    taken. *)
Theorem tick_initiates_due_entries_earliest_first h w :
  0 < available_slots h w →
  let jobs := select_due (clock w) (available_slots h w) (call_queue w) in
  calls_created (issued h (processCallQueue h) w) = Queue.call_options_json <$> jobs
  ∧ StronglySorted not_after jobs
  ∧ Forall (λ j, j ∈ call_queue w ∧ Queue.status j = "pending"
                 ∧ Queue.scheduled_at j ≤ clock w) jobs
  ∧ length jobs
    = (Z.to_nat (available_slots h w)
       `min` length (filter (λ r, is_due (clock w) r = true) (call_queue w)))%nat
  ∧ ∀ r, r ∈ call_queue w → is_due (clock w) r = true → r ∉ jobs →
         Forall (λ j, not_after j r) jobs.
Proof.
  intros Hs jobs. subst jobs.
  destruct (select_due_spec (clock w) (available_slots h w) (call_queue w))
    as (Hsorted & Hdue & Hleast).
  refine (conj _ (conj Hsorted (conj Hdue (conj _ Hleast)))).
  - rewrite tick_calls_created. by destruct (decide _).
  - apply select_due_length.
Qed.

Lemma tick_initiates_due_entries_earliest_first_witness :
  0 < available_slots demo_host one_job_world
  ∧ calls_created (issued demo_host (processCallQueue demo_host) one_job_world)
    = Queue.call_options_json
        <$> select_due (clock one_job_world)
              (available_slots demo_host one_job_world) (call_queue one_job_world).
Proof.
  split; [by vm_compute|].
  apply (tick_initiates_due_entries_earliest_first demo_host one_job_world).
  by vm_compute.
Defined.

(** *** One job *)

Lemma delete_after_mark_processing id now q :
  delete_queue id (mark_processing id now q) = delete_queue id q.
Proof.
  unfold delete_queue, mark_processing. induction q as [|r q IH]; [done|].
  cbn [map]. rewrite !filter_cons, IH. unfold claims.
  destruct (Queue.queue_id r =? id) eqn:E; cbn [andb].
  - destruct (String.eqb _ _); cbn [Queue.with_attempt Queue.queue_id];
      repeat case_decide; try done; lia.
  - done.
Qed.

Lemma create_index (tr : list Cmd) a b :
  length ((tr ++ [a]) ++ [b]) = S (S (length tr)).
Proof. rewrite !length_app. simpl. lia. Qed.

Lemma run_process_job_accepted h job sid w :
  twilio_create h (S (S (length (trace w)))) (Queue.call_options_json job)
  = returned sid →
  sid ≠ "" →
  let w' := (run h (process_job job) w).1 in
  calls w' = <[sid := initiated_row job (clock w)]> (calls w)
  ∧ call_queue w' = filter (λ r, Queue.queue_id r ≠ Queue.queue_id job) (call_queue w)
  ∧ notifications (trace w') = notifications (trace w)
  ∧ queue_inserts (trace w') = queue_inserts (trace w).
Proof.
  intros Hc Hsid. apply truthy_Some in Hsid. cbv zeta.
  unfold process_job. run_step. rewrite create_index, Hc. run_step.
  unfold setCallData. rewrite Hsid. run_step.
  rewrite run_getCallData, Hsid. cbn [fst snd default log calls set_calls].
  rewrite lookup_insert_eq. cbn [fmap option_fmap option_map]. run_step.
  rewrite delete_after_mark_processing.
  rewrite !notifications_app, !queue_inserts_app. cbn. by rewrite !app_nil_r.
Qed.

(** X7. A job whose call the carrier accepts.  The entry leaves the queue
    (the other entries stay as they are) and [calls] gets, under the id
    the carrier gave, the row of the attempt: the job's destination and
    contact, [retry_count] the job's retry stage, the job's first-attempt
    timestamp, status [initiated] and the retry latch unset.  No event is
    sent and no queue entry added. *)
Theorem accepted_job_becomes_a_call h job sid w :
  twilio_create h (S (S (length (trace w)))) (Queue.call_options_json job)
  = returned sid →
  sid ≠ "" →
  let w' := (run h (process_job job) w).1 in
  calls w' = <[sid := initiated_row job (clock w)]> (calls w)
  ∧ call_queue w' = filter (λ r, Queue.queue_id r ≠ Queue.queue_id job) (call_queue w)
  ∧ notifications (trace w') = notifications (trace w)
  ∧ queue_inserts (trace w') = queue_inserts (trace w).
Proof. apply run_process_job_accepted. Qed.

Lemma accepted_job_becomes_a_call_witness :
  let w' := (run demo_host (process_job mario_job) two_jobs_world).1 in
  calls w' = {[ "CA2" := initiated_row mario_job (clock two_jobs_world) ]}
  ∧ call_queue w' = [lucia_job].
Proof.
  cbv zeta.
  destruct (accepted_job_becomes_a_call demo_host mario_job "CA2" two_jobs_world)
    as (Hcalls & Hqueue & _); [by vm_compute|by vm_compute|].
  split; [rewrite Hcalls; by vm_compute|rewrite Hqueue; by vm_compute].
Defined.

Lemma mark_failed_rows id message q r :
  r ∈ mark_failed id message q → Queue.queue_id r = id →
  Queue.status r = "failed" ∧ Queue.last_error r = Some message.
Proof.
  unfold mark_failed. intros Hr Hid. apply list_elem_of_fmap in Hr as (r0 & -> & _).
  destruct (Queue.queue_id r0 =? id) eqn:E; [done|]. lia.
Qed.

Lemma mark_failed_others id message q :
  filter (λ r, Queue.queue_id r ≠ id) (mark_failed id message q)
  = filter (λ r, Queue.queue_id r ≠ id) q.
Proof.
  unfold mark_failed. induction q as [|r q IH]; [done|].
  cbn [map]. rewrite !filter_cons, IH.
  destruct (Queue.queue_id r =? id) eqn:E; [|done].
  cbn [Queue.with_error Queue.queue_id]. repeat case_decide; try done; lia.
Qed.

Lemma mark_processing_others id now q :
  filter (λ r, Queue.queue_id r ≠ id) (mark_processing id now q)
  = filter (λ r, Queue.queue_id r ≠ id) q.
Proof.
  unfold mark_processing, claims. induction q as [|r q IH]; [done|].
  cbn [map]. rewrite !filter_cons, IH.
  destruct (Queue.queue_id r =? id) eqn:E; cbn [andb]; [|done].
  destruct (String.eqb _ _); [|done].
  cbn [Queue.with_attempt Queue.queue_id]. repeat case_decide; try done; lia.
Qed.

(** X8. A job whose call the carrier refuses.  Every entry with the job's
    id ends [failed] with the carrier's message as [last_error] (a fixed
    text when the message is empty); the other entries, and [calls], are
    as they were.  The failure uses no rung of the ladder: no entry is
    added, and no event is sent. *)
Theorem refused_job_is_marked_failed h job message w :
  twilio_create h (S (S (length (trace w)))) (Queue.call_options_json job)
  = thrown message →
  let w' := (run h (process_job job) w).1 in
  calls w' = calls w
  ∧ Queue.queue_id <$> call_queue w' = Queue.queue_id <$> call_queue w
  ∧ (∀ r, r ∈ call_queue w' → Queue.queue_id r = Queue.queue_id job →
          Queue.status r = "failed"
          ∧ Queue.last_error r = Some (error_message message))
  ∧ filter (λ r, Queue.queue_id r ≠ Queue.queue_id job) (call_queue w')
    = filter (λ r, Queue.queue_id r ≠ Queue.queue_id job) (call_queue w)
  ∧ queue_inserts (trace w') = queue_inserts (trace w)
  ∧ notifications (trace w') = notifications (trace w).
Proof.
  intros Hc. cbv zeta. unfold process_job. run_step.
  rewrite create_index, Hc. run_step.
  refine (conj eq_refl (conj _ (conj _ (conj _ _)))).
  - by rewrite mark_failed_ids, mark_processing_ids.
  - intros r. apply mark_failed_rows.
  - by rewrite mark_failed_others, mark_processing_others.
  - rewrite !notifications_app, !queue_inserts_app. cbn. by rewrite !app_nil_r.
Qed.

Lemma refused_job_is_marked_failed_witness :
  call_queue (run carrier_down_host (process_job mario_job) two_jobs_world).1
  = [lucia_job;
     Queue.with_error "failed" "connect ETIMEDOUT"
       (Queue.with_attempt "processing" (clock two_jobs_world) mario_job)].
Proof.
  destruct (refused_job_is_marked_failed carrier_down_host mario_job
              "connect ETIMEDOUT" two_jobs_world) as (_ & _ & _ & _ & _);
    [by vm_compute|]. by vm_compute.
Defined.

Lemma settled_mark_processing h id now w :
  settled id (exec h (DbMarkProcessing id now) w).1.
Proof.
  intros r Hr Hid. cbn [exec fst call_queue set_queue log] in Hr.
  unfold mark_processing in Hr.
  apply list_elem_of_fmap in Hr as (r0 & -> & _). unfold claims in *.
  destruct (Queue.queue_id r0 =? id) eqn:E; cbn [andb] in *; [|lia].
  destruct (String.eqb (Queue.status r0) "pending") eqn:Es; [done|].
  by apply String.eqb_neq in Es.
Qed.

Lemma processor_command_keeps_settled h id c w :
  processor_command c → settled id w → settled id (exec h c w).1.
Proof.
  intros Hc Hw. destruct c; try done; simpl; try exact Hw; intros r Hr Hid;
    cbn [call_queue set_queue log] in Hr.
  - unfold mark_processing in Hr. apply list_elem_of_fmap in Hr as (r0 & -> & Hr0).
    destruct (claims _ r0); [done|]. by apply (Hw r0).
  - unfold mark_failed in Hr. apply list_elem_of_fmap in Hr as (r0 & -> & Hr0).
    destruct (_ =? _); [done|]. by apply (Hw r0).
  - unfold delete_queue in Hr. apply list_elem_of_filter in Hr as [_ Hr].
    by apply (Hw r).
Qed.

Lemma process_job_settles h job w :
  settled (Queue.queue_id job) (run h (process_job job) w).1.
Proof.
  pose proof (emits_process_job job) as He. unfold process_job in *.
  cbn [bind newDate perform dbMarkProcessing emits] in He.
  cbn [bind newDate perform dbMarkProcessing run].
  destruct He as [_ He]. destruct (He (exec h Clock w).2) as [_ He2].
  eapply (emits_keeps processor_command (λ _, True));
    [|exact (He2 (exec h (DbMarkProcessing _ _) (exec h Clock w).1).2)|].
  - intros c w0 Hc. by apply processor_command_keeps_settled.
  - apply settled_mark_processing.
Qed.

Lemma for_each_settles h jobs job w :
  job ∈ jobs →
  settled (Queue.queue_id job) (run h (for_each jobs process_job) w).1.
Proof.
  revert w. induction jobs as [|j jobs IH]; intros w Hj; [by apply elem_of_nil in Hj|].
  rewrite run_for_each_cons. apply elem_of_cons in Hj as [->|Hj]; [|by apply IH].
  eapply (emits_keeps processor_command (λ _, True)); [|apply emits_for_each|].
  - intros c w0 Hc. by apply processor_command_keeps_settled.
  - apply process_job_settles.
Qed.

(** X9. Whatever the carrier answers, a run of the processor leaves none
    of the entries it selected pending: each is gone (its call was
    created and recorded) or [failed], so a later run does not pick it up
    again. *)
Theorem tick_leaves_no_selected_entry_pending h w job r :
  job ∈ select_due (clock w) (available_slots h w) (call_queue w) →
  r ∈ call_queue (run h (processCallQueue h) w).1 →
  Queue.queue_id r = Queue.queue_id job →
  Queue.status r ≠ "pending".
Proof.
  intros Hjob. destruct (decide (0 < available_slots h w)) as [Hs|Hs].
  - rewrite run_processCallQueue_free by done.
    eapply for_each_settles in Hjob. apply Hjob.
  - unfold select_due in Hjob. replace (Z.to_nat _) with 0%nat in Hjob by lia.
    by apply elem_of_nil in Hjob.
Qed.

Lemma tick_leaves_no_selected_entry_pending_witness :
  Queue.status
    (Queue.with_error "failed" "connect ETIMEDOUT"
       (Queue.with_attempt "processing" (clock two_jobs_world) mario_job))
  ≠ "pending".
Proof.
  apply (tick_leaves_no_selected_entry_pending
           refusing_host two_jobs_world mario_job);
    [vm_compute; repeat constructor|vm_compute; repeat constructor|reflexivity].
Defined.

(** ** The ingress *)










Lemma emits_outbound_call h b :
  emits ingress_command (λ _, True) (outbound_call h b).
Proof.
  unfold outbound_call. cbv zeta. destruct (negb _ || negb _); [by simpl|].
  eapply emits_bind with (Q := λ _, True).
  { unfold getSignedUrl. simpl. split; [done|]. by intros [u|m]. }
  intros [u|m] _; by simpl.
Qed.

Lemma ingress_command_keeps h w0 c w :
  ingress_command c →
  calls w = calls w0 ∧ call_queue w0 `prefix_of` call_queue w →
  calls (exec h c w).1 = calls w0
  ∧ call_queue w0 `prefix_of` call_queue (exec h c w).1.
Proof.
  intros Hc [Hcalls Hq]. destruct c; try done; simpl; split; try done.
  by apply prefix_app_r.
Qed.

(** X13. The ingress only queues.  Whatever the request and whatever the
    agent provider answers, the handler asks the carrier for nothing (no
    call is placed by the request itself), never reads or writes
    [calls], and leaves the entries already in the queue as they are, in
    their places. *)
Theorem ingress_only_queues h b w :
  let w' := (run h (outbound_call h b) w).1 in
  Forall ingress_command (issued h (outbound_call h b) w)
  ∧ calls w' = calls w
  ∧ call_queue w `prefix_of` call_queue w'
  ∧ calls_created (trace w') = calls_created (trace w).
Proof.
  pose proof (emits_outbound_call h b) as He.
  destruct (emits_run _ _ _ h w He) as [Hi _]. cbv zeta.
  split; [done|].
  destruct (emits_keeps ingress_command (λ _, True)
              (λ w', calls w' = calls w ∧ call_queue w `prefix_of` call_queue w') h
              (outbound_call h b) w) as [Hcalls Hq];
    [intros c w0 Hc Hw0; by apply ingress_command_keeps|exact He|done|].
  refine (conj Hcalls (conj Hq _)).
  rewrite run_issued, calls_created_app.
  rewrite (calls_created_none ingress_command (issued h (outbound_call h b) w));
    [by rewrite app_nil_r| |done].
  intros o Ho. exact Ho.
Qed.

(** ** More on the status handler *)

Lemma issued_call_status_found h req sid row w :
  CallSid req = Some sid → sid ≠ "" → calls w !! sid = Some row →
  issued h (call_status h req) w
  = DbGetCall sid
      :: issued h (handle_status h req (CallData.of_row row)) (log (DbGetCall sid) w).
Proof.
  intros Hsid Hne Hrow. unfold issued at 1.
  rewrite (call_status_found h req sid row w Hsid Hne Hrow), run_issued.
  cbn [trace log]. by rewrite <- app_assoc, drop_app_length.
Qed.

(** X14. Once the retry latch of a call is set, a further callback for it
    does nothing but look the row up: it is acknowledged, nothing is
    written (not even a new answered-by classification), nothing is
    scheduled, no event is sent and the carrier is not contacted. *)
Theorem latched_callback_only_reads h req sid row w :
  CallSid req = Some sid → sid ≠ "" →
  calls w !! sid = Some row → Calls.retry_scheduled row ≠ 0 →
  issued h (call_status h req) w = [DbGetCall sid]
  ∧ same_store w (run h (call_status h req) w).1
  ∧ (run h (call_status h req) w).2
    = {| code := 200; body := "OK. Retry already handled." |}.
Proof.
  intros Hsid Hne Hrow Hflag. unfold issued.
  rewrite (call_status_latched h req sid row w Hsid Hne Hrow Hflag).
  cbn [fst snd trace log]. rewrite drop_app_length.
  refine (conj eq_refl (conj _ eq_refl)). apply same_store_log.
Qed.

Lemma latched_callback_only_reads_witness :
  issued demo_host (call_status demo_host (status_callback "failed" (Some "human")))
    latched_world
  = [DbGetCall "CA1"].
Proof.
  apply (latched_callback_only_reads demo_host
           (status_callback "failed" (Some "human")) "CA1"
           (Calls.with_retry_scheduled 1 (mario_row 0)) latched_world);
    by vm_compute.
Defined.

Lemma not_retryable req call :
  isMachineDetected req call = false →
  includes ["no-answer"; "busy"; "failed"] (CallStatus req) = false →
  isRetryableFailure req call = false.
Proof.
  intros Hm Hs. unfold isRetryableFailure. rewrite Hm, andb_false_r.
  destruct (CallStatus req) as [s|]; [|done]. cbn in *.
  by destruct (s =? "no-answer")%string, (s =? "busy")%string, (s =? "failed")%string.
Qed.

Lemma emits_record_answeredBy req call :
  emits quiet_command (λ _, True) (record_answeredBy req call).
Proof.
  unfold record_answeredBy, updateCallData.
  destruct (_ && _); [|done]. by destruct (truthy _).
Qed.

Lemma emits_handle_status_quiet h req call :
  isMachineDetected req call = false →
  includes ["no-answer"; "busy"; "failed"] (CallStatus req) = false →
  emits quiet_command (λ r, code r = 200) (handle_status h req call).
Proof.
  intros Hm Hs. unfold handle_status. destruct (negb _); [done|].
  rewrite Hm, (not_retryable req call Hm Hs). cbn [andb negb].
  eapply emits_bind; [apply emits_record_answeredBy|]. intros _ _.
  repeat (destruct (_ && _)); by simpl.
Qed.

(** X15. A callback that reports no machine and a status other than
    no-answer, busy or failed (a call that rings, is answered, or ends
    after a person picked up) schedules nothing: the queue is as it was,
    the retry latch of the call stays unset, the carrier is not
    contacted; at most the answered-by classification of the row is
    updated. *)
Theorem callback_without_failure_schedules_nothing h req sid row w :
  CallSid req = Some sid → sid ≠ "" →
  calls w !! sid = Some row → Calls.retry_scheduled row = 0 →
  isMachineDetected req (CallData.of_row row) = false →
  includes ["no-answer"; "busy"; "failed"] (CallStatus req) = false →
  let w' := (run h (call_status h req) w).1 in
  Forall quiet_command (issued h (call_status h req) w)
  ∧ call_queue w' = call_queue w
  ∧ last_queue_id w' = last_queue_id w
  ∧ calls w' = answeredBy_recorded req (CallData.of_row row) sid (calls w)
  ∧ ∃ row', calls w' !! sid = Some row' ∧ Calls.retry_scheduled row' = 0.
Proof.
  intros Hsid Hne Hrow Hflag Hm Hs. cbv zeta.
  rewrite (issued_call_status_found h req sid row w Hsid Hne Hrow).
  rewrite (call_status_found h req sid row w Hsid Hne Hrow).
  set (call := CallData.of_row row) in *. set (w0 := log (DbGetCall sid) w).
  destruct (emits_run _ _ _ h w0 (emits_handle_status_quiet h req call Hm Hs))
    as [Hi _].
  split; [by constructor|].
  assert (call_queue (run h (handle_status h req call) w0).1 = call_queue w
          ∧ last_queue_id (run h (handle_status h req call) w0).1 = last_queue_id w
          ∧ calls (run h (handle_status h req call) w0).1
            = answeredBy_recorded req call sid (calls w)) as (Hq & Hl & Hc).
  { unfold handle_status. subst call. cbn [CallData.retry_scheduled CallData.of_row].
    set (call := CallData.of_row row) in *.
    rewrite Hflag. cbn [default from_option id Z.eqb negb].
    rewrite Hm, (not_retryable req call Hm Hs). cbn [andb negb]. rewrite run_bind.
    destruct (run_record_answeredBy h req call sid w0 Hsid Hne)
      as ((Hq1 & Hc1 & Hl1 & _) & _).
    set (w1 := (run h (record_answeredBy req call) w0).1) in *.
    cbn [calls call_queue last_queue_id set_calls w0 log] in Hc1, Hq1, Hl1.
    repeat (destruct (_ && _)); run_step; by rewrite ?Hq1, ?Hl1, ?Hc1. }
  refine (conj Hq (conj Hl (conj Hc _))). rewrite Hc.
  destruct (answeredBy_recorded_lookup req call sid _ _ Hrow) as (row1 & Hrow1 & Hf1).
  exists row1. split; [done|congruence].
Qed.

Lemma callback_without_failure_schedules_nothing_witness :
  call_queue
    (run demo_host (call_status demo_host (status_callback "in-progress" (Some "human")))
       (one_call_world 2)).1
  = [].
Proof.
  apply (callback_without_failure_schedules_nothing demo_host
           (status_callback "in-progress" (Some "human")) "CA1" (mario_row 2)
           (one_call_world 2)); by vm_compute.
Defined.

Lemma scheduleRetry_is_local h call sid options :
  emits (λ c, is_carrier_command c = false) (λ _, True)
    (scheduleRetry h call sid options).
Proof.
  unfold scheduleRetry.
  eapply emits_bind with (Q := λ _, True).
  { by destruct (CallData.first_attempt_timestamp call). }
  intros t _. destruct (_ >=? _); [by simpl|].
  eapply emits_bind; [by apply emits_scheduled_at_base|]. intros s _.
  destruct (negb _ || negb _); by simpl.
Qed.

Lemma carrier_commands_none (P : Cmd → Prop) cmds :
  (∀ c, P c → is_carrier_command c = false) → Forall P cmds →
  carrier_commands cmds = [].
Proof.
  intros HP. unfold carrier_commands. induction 1 as [|c l Hc _ IH]; [done|].
  rewrite filter_cons, IH. rewrite (HP c Hc). by case_decide.
Qed.

Lemma carrier_commands_app tr1 tr2 :
  carrier_commands (tr1 ++ tr2) = carrier_commands tr1 ++ carrier_commands tr2.
Proof. apply filter_app. Qed.

Lemma end_call_carrier_commands h sid w outcome :
  sid ≠ "" → (∀ n, twilio_fetch h n sid = outcome) →
  carrier_commands (issued h (end_call_after_machine_detection (Some sid)) w)
  = TwilioFetch sid
      :: match outcome with
         | returned st =>
             if includes terminal_statuses (Some st) then [] else [TwilioComplete sid]
         | thrown _ => []
         end.
Proof.
  intros Hne Hfetch. unfold issued, end_call_after_machine_detection.
  rewrite run_bind, run_updateCallData, (proj2 (truthy_Some sid)) by done.
  run_step. cbn [default from_option id]. rewrite Hfetch.
  destruct outcome as [st|msg]; cbn [fst snd];
    [destruct (includes terminal_statuses (Some st)); cbn [negb];
      [|run_step; destruct (twilio_complete h _ sid) as [[]|msg]]|];
    run_step; rewrite <- ?app_assoc, drop_app_length; reflexivity.
Qed.

(** X16. A machine that picks up while the call is still in progress.
    For a tracked, unlatched call, a callback with a machine
    classification and a status that is not final sets the latch, asks
    the carrier for the state of the call and asks it to end the call
    exactly when that state is not final; and whatever the carrier
    answers (also when it throws) the retry is scheduled after that
    as for any failed attempt. *)
Theorem machine_mid_call_is_ended_and_retried h req sid row w outcome :
  CallSid req = Some sid → sid ≠ "" →
  calls w !! sid = Some row → Calls.retry_scheduled row = 0 →
  isMachineDetected req (CallData.of_row row) = true →
  includes terminal_statuses (CallStatus req) = false →
  (∀ n, twilio_fetch h n sid = outcome) →
  let call := CallData.of_row row in
  let w' := (run h (call_status h req) w).1 in
  carrier_commands (issued h (call_status h req) w)
  = TwilioFetch sid
      :: match outcome with
         | returned st =>
             if includes terminal_statuses (Some st) then [] else [TwilioComplete sid]
         | thrown _ => []
         end
  ∧ (∃ row', calls w' !! sid = Some row' ∧ Calls.retry_scheduled row' = 1)
  ∧ ∃ new,
      retries_scheduled h call
        {| reason := Some "machine_detected"; forceImmediate := false |} (clock w) new
      ∧ queue_inserts (trace w') = queue_inserts (trace w) ++ new.
Proof.
  intros Hsid Hne Hrow Hflag Hm Hs Hfetch. cbv zeta.
  set (call := CallData.of_row row) in *. split.
  - rewrite (issued_call_status_found h req sid row w Hsid Hne Hrow).
    fold call. set (w0 := log (DbGetCall sid) w).
    unfold handle_status. subst call.
    cbn [CallData.retry_scheduled CallData.of_row].
    set (call := CallData.of_row row) in *.
    rewrite Hflag. cbn [default from_option id Z.eqb negb].
    rewrite Hm, Hs. cbn [andb negb].
    rewrite issued_bind, issued_bind, issued_bind, Hsid.
    change (DbGetCall sid :: ?l) with ([DbGetCall sid] ++ l).
    rewrite !carrier_commands_app.
    rewrite (carrier_commands_none quiet_command (issued h (record_answeredBy _ _) w0));
      [|by intros []|apply (emits_run quiet_command (λ _, True)), emits_record_answeredBy].
    rewrite (end_call_carrier_commands h sid _ outcome Hne Hfetch).
    rewrite (carrier_commands_none (λ c, is_carrier_command c = false)
               (issued h (scheduleRetry _ _ _ _) _));
      [|done|apply (emits_run _ (λ _, True)), scheduleRetry_is_local].
    unfold issued at 1. cbn [run fst]. rewrite drop_all.
    cbn. by rewrite app_nil_r.
  - rewrite (call_status_found h req sid row w Hsid Hne Hrow). fold call.
    assert (Calls.retry_scheduled row = 0) as Hflag' by done.
    unfold handle_status. subst call.
    cbn [CallData.retry_scheduled CallData.of_row].
    set (call := CallData.of_row row) in *.
    rewrite Hflag. cbn [default from_option id Z.eqb negb].
    rewrite Hm, Hs. cbn [andb negb]. rewrite run_bind.
    set (w0 := log (DbGetCall sid) w).
    destruct (run_record_answeredBy h req call sid w0 Hsid Hne)
      as ((Hq1 & Hc1 & Hl1 & Hk1 & Hn1) & Hi1 & _ & _).
    set (w1 := (run h (record_answeredBy req call) w0).1) in *.
    cbn [calls clock set_calls w0 log trace] in Hc1, Hk1, Hi1.
    destruct (answeredBy_recorded_lookup req call sid _ _ Hrow) as (row1 & Hrow1 & _).
    rewrite <- Hc1 in Hrow1.
    rewrite run_bind, Hsid.
    destruct (run_end_call h sid w1 Hne) as ((_ & Hc2 & _ & Hk2 & _) & Hi2 & _).
    set (w2 := (run h (end_call_after_machine_detection (Some sid)) w1).1) in *.
    cbn [calls clock set_calls] in Hc2, Hk2.
    rewrite run_bind.
    destruct (scheduleRetry_summary h call (Some sid)
                {| reason := Some "machine_detected"; forceImmediate := false |} w2)
      as (new & Hnew & Hi3 & _ & _ & Hc3 & _).
    cbn [run fst snd]. split.
    + rewrite Hc3, Hc2, lookup_alter_eq, Hrow1. by eexists.
    + exists new. rewrite Hi3, Hi2, Hi1, queue_inserts_app. cbn.
      rewrite app_nil_r. split; [|done]. by rewrite <- Hk1, <- Hk2.
Qed.

Lemma machine_mid_call_is_ended_and_retried_witness :
  carrier_commands
    (issued demo_host
       (call_status demo_host (status_callback "in-progress" (Some "machine_start")))
       (one_call_world 2))
  = [TwilioFetch "CA1"; TwilioComplete "CA1"].
Proof.
  apply (machine_mid_call_is_ended_and_retried demo_host
           (status_callback "in-progress" (Some "machine_start")) "CA1"
           (mario_row 2) (one_call_world 2) (returned "in-progress"));
    by vm_compute.
Defined.

(** ** callDataDb.js *)



(** X18. [updateCallData] patches the row of the call id and nothing
    else: the rows of other ids, the set of ids, the queue and the clock
    are as before; when the id has no row the statement matches nothing
    and the store is unchanged (no row is created); when it has one,
    [getCallData] then returns the patched row. *)
Theorem updateCallData_patches_one_row h sid p w :
  sid ≠ "" →
  let w' := (run h (updateCallData (Some sid) p) w).1 in
  dom (calls w') = dom (calls w)
  ∧ (∀ sid', sid' ≠ sid → calls w' !! sid' = calls w !! sid')
  ∧ calls w' !! sid = apply_patch p <$> calls w !! sid
  ∧ (calls w !! sid = None → same_store w w')
  ∧ (run h (getCallData (Some sid)) w').2
    = CallData.of_row <$> (apply_patch p <$> calls w !! sid)
  ∧ call_queue w' = call_queue w ∧ clock w' = clock w.
Proof.
  intros Hne. apply truthy_Some in Hne. cbv zeta.
  rewrite run_getCallData, run_updateCallData, Hne.
  cbn [fst snd default from_option id calls set_calls log call_queue clock].
  refine (conj _ (conj _ (conj _ (conj _ (conj _ (conj eq_refl eq_refl)))))).
  - by rewrite dom_alter_L.
  - intros sid' Hsid'. by rewrite lookup_alter_ne.
  - by rewrite lookup_alter_eq.
  - intros Hnone. refine (conj eq_refl (conj _ (conj eq_refl (conj eq_refl eq_refl)))).
    cbn [calls set_calls]. apply map_eq. intros k.
    destruct (decide (k = sid)) as [->|Hk];
      [by rewrite lookup_alter_eq, Hnone|by rewrite lookup_alter_ne].
  - by rewrite lookup_alter_eq.
Qed.

Lemma updateCallData_patches_one_row_witness :
  (run demo_host (getCallData (Some "CA9"))
     (run demo_host (updateCallData (Some "CA9") (patch_retry_scheduled 1))
        (one_call_world 0)).1).2
  = None.
Proof.
  destruct (updateCallData_patches_one_row demo_host "CA9" (patch_retry_scheduled 1)
              (one_call_world 0)) as (_ & _ & _ & _ & -> & _); [done|].
  reflexivity.
Defined.

(** X19. Without a call id (missing or empty) the three functions of
    [callDataDb.js] do not touch the database: no statement is issued,
    [getCallData] returns null and the store is unchanged. *)
Theorem callDataDb_without_call_id_does_nothing h sid d p w :
  truthy sid = false →
  run h (getCallData sid) w = (w, None)
  ∧ run h (setCallData sid d) w = (w, ())
  ∧ run h (updateCallData sid p) w = (w, ())
  ∧ issued h (getCallData sid) w = []
  ∧ issued h (setCallData sid d) w = []
  ∧ issued h (updateCallData sid p) w = [].
Proof.
  intros Hsid. unfold issued, getCallData, setCallData, updateCallData.
  rewrite Hsid. cbn [run fst]. by rewrite drop_all.
Qed.

Lemma callDataDb_without_call_id_does_nothing_witness :
  run demo_host (getCallData (Some "")) (one_call_world 0) = (one_call_world 0, None).
Proof.
  apply (callDataDb_without_call_id_does_nothing demo_host (Some "")
           (CallData.of_row (mario_row 0)) (patch_retry_scheduled 1)
           (one_call_world 0)).
  reflexivity.
Defined.

(** ** When retries are scheduled *)

(** X20. [next_time] is monotone, and constant up to the slot it
    returns: asked again at any time before that slot it gives the same
    slot.  (In a zone as for [next_time_is_the_first_occurrence_after].) *)
Theorem next_time_is_monotone z H back now now' :
  0 ≤ H < 24 →
  0 ≤ back ≤ H * msPerHour ∧ back < (24 - H) * msPerHour →
  (∀ a b, a ≤ b → LocalTime z a ≤ LocalTime z b + back) →
  (∀ l, TimeWithinDay l = H * msPerHour → LocalTime z (UTC z l) = l) →
  (∀ u, on_the_hour z H u → UTC z (LocalTime z u) = u) →
  now ≤ now' →
  next_time z H now ≤ next_time z H now'
  ∧ (now' < next_time z H now → next_time z H now' = next_time z H now).
Proof.
  intros HH Hb Hback Hex Hun Hle.
  assert (∀ t, t < next_time z H t) as Hafter
    by (intros t; by eapply (next_time_after z H back)).
  assert (∀ t, on_the_hour z H (next_time z H t)) as Hon
    by (intros t; by eapply (next_time_on_the_hour z H back)).
  assert (∀ t u, t < u → on_the_hour z H u → next_time z H t ≤ u) as Hleast
    by (intros t u; by eapply (next_time_least z H back)).
  assert (next_time z H now ≤ next_time z H now') as Hmono.
  { apply Hleast; [|done]. specialize (Hafter now'). lia. }
  split; [done|]. intros Hlt.
  pose proof (Hleast now' (next_time z H now) Hlt (Hon now)). lia.
Qed.

Lemma next_time_is_monotone_witness :
  next_time cetZone 9 (utcDate 2025 3 14 10 15 0)
  ≤ next_time cetZone 9 (utcDate 2025 3 14 23 30 0).
Proof.
  apply (next_time_is_monotone cetZone 9 0).
  - lia.
  - unfold msPerHour. lia.
  - intros a b Hab. unfold LocalTime. simpl. lia.
  - intros l _. unfold LocalTime, UTC. simpl. lia.
  - intros u _. unfold LocalTime, UTC. simpl. lia.
  - by vm_compute.
Defined.

Lemma next_time_fixed_cases offset H now :
  0 ≤ H < 24 →
  let today := MakeDate (Day (now + offset)) (H * msPerHour) - offset in
  (now < today ∧ next_time (fixedZone offset) H now = today)
  ∨ (today ≤ now ∧ next_time (fixedZone offset) H now = today + msPerDay).
Proof.
  intros HH. cbv zeta.
  assert (0 ≤ 0 ≤ H * msPerHour ∧ 0 < (24 - H) * msPerHour) as Hb
    by (unfold msPerHour; lia).
  destruct (next_time_cases (fixedZone offset) H 0 HH Hb
              ltac:(intros l _; unfold LocalTime, UTC; simpl; lia) now)
    as [[Hlt E]|[Hle E]]; unfold LocalTime, UTC in *; simpl in *.
  - left. by rewrite E.
  - right. rewrite E. split; [done|]. unfold MakeDate. lia.
Qed.

Lemma next_time_fixed_bounds offset H now :
  0 ≤ H < 24 →
  now < next_time (fixedZone offset) H now ≤ now + msPerDay.
Proof.
  intros HH.
  assert (MakeDate (Day (now + offset)) 0 ≤ now + offset
          < MakeDate (Day (now + offset) + 1) 0) as Hday.
  { unfold MakeDate, Day, msPerDay. Z.to_euclidean_division_equations. lia. }
  destruct (next_time_fixed_cases offset H now HH) as [[Hlt ->]|[Hle ->]];
    unfold MakeDate, msPerDay, msPerHour in *; lia.
Qed.

(** X21. On a host at a fixed offset from UTC, the next occurrence of an
    hour is after [now] and at most 24 hours after it. *)
Theorem next_time_is_within_a_day offset H now :
  0 ≤ H < 24 →
  now < next_time (fixedZone offset) H now ≤ now + msPerDay.
Proof. apply next_time_fixed_bounds. Qed.

Lemma next_time_is_within_a_day_witness :
  let now := utcDate 2025 3 14 8 0 0 in
  now < next_time cetZone 9 now ≤ now + msPerDay.
Proof. apply (next_time_is_within_a_day msPerHour 9). lia. Defined.

Lemma schedule_config_cases i :
  schedule_config i = immediate ∨ schedule_config i = delay 1
  ∨ ∃ H, schedule_config i = next_time_at H ∧ (H = 9 ∨ H = 14 ∨ H = 19).
Proof.
  unfold schedule_config. destruct (i <? 0); [by left|].
  generalize (Z.to_nat i). intros n. unfold RETRY_SCHEDULE.
  do 9 (destruct n as [|n]; [cbn; eauto 10|]). by left.
Qed.

(** X22. A retry is never scheduled in the past, whatever the retry
    count: on a host at a fixed offset from UTC, or in Europe/Rome, the
    entry [scheduleRetry] inserts is scheduled at or after the time of
    the call, and at a fixed offset at most 24 hours after it. *)
Theorem retries_are_not_scheduled_in_the_past h offset call options now r :
  tz h = fixedZone offset ∨ tz h = rome2025Zone →
  is_retry_row h call options now r →
  now ≤ Queue.scheduled_at r
  ∧ (tz h = fixedZone offset → Queue.scheduled_at r ≤ now + msPerDay).
Proof.
  intros Hz (_ & _ & -> & _). unfold retry_instant.
  destruct (forceImmediate options); [unfold msPerDay; lia|].
  destruct (schedule_config_cases (attempt_of call)) as [->|[->|(H & -> & HH)]].
  - unfold msPerDay; lia.
  - unfold msPerDay; lia.
  - split.
    + destruct Hz as [->| ->].
      * pose proof (next_time_fixed_bounds offset H now). lia.
      * pose proof (next_time_in_rome H now HH) as [Hlt _]. lia.
    + intros ->. pose proof (next_time_fixed_bounds offset H now). lia.
Qed.

Lemma retries_are_not_scheduled_in_the_past_witness :
  utcDate 2025 3 14 10 15 0 ≤ Queue.scheduled_at mario_retry.
Proof.
  refine (proj1 (retries_are_not_scheduled_in_the_past demo_host msPerHour
                   (CallData.of_row (mario_row 3))
                   {| reason := Some "retryable_failure"; forceImmediate := false |}
                   (utcDate 2025 3 14 10 15 0) mario_retry _ _)).
  - by left.
  - by vm_compute.
Defined.

(** X23. The retry cycle.  The entry [scheduleRetry] queues for a failed
    attempt, once the processor has initiated it and the carrier has
    named the new call, is tracked as the next attempt of the same
    sequence: [getCallData] of the new call id gives retry count one
    more than the failed attempt's, the same destination and contact,
    the first-attempt timestamp of the sequence, no answered-by
    classification and the retry latch unset, so that the new call's
    own callbacks can schedule the attempt after it. *)
Theorem retry_entry_becomes_the_next_attempt h call sid options w :
  attempt_of call < MAX_TOTAL_ATTEMPTS - 1 →
  has_destination call && has_contact call = true →
  let w1 := (run h (scheduleRetry h call sid options) w).1 in
  ∃ entry,
    call_queue w1 = call_queue w ++ [entry]
    ∧ ∀ w2 sid2,
        twilio_create h (S (S (length (trace w2)))) (Queue.call_options_json entry)
        = returned sid2 →
        sid2 ≠ "" →
        let w3 := (run h (process_job entry) w2).1 in
        ∃ next,
          (run h (getCallData (Some sid2)) w3).2 = Some next
          ∧ CallData.retry_count next = Some (attempt_of call + 1)
          ∧ CallData.phone next = js_or (CallData.phone call) (CallData.to call)
          ∧ CallData.contactId next
            = js_or (CallData.contactId call) (CallData.contact_id call)
          ∧ CallData.first_attempt_timestamp next
            = Some (default (clock w) (CallData.first_attempt_timestamp call))
          ∧ CallData.answeredBy next = None
          ∧ CallData.retry_scheduled next = Some 0.
Proof.
  intros Hi Hok. cbv zeta.
  destruct (scheduleRetry_inserts h call sid options w Hi Hok)
    as (r & (Hstage & _ & _ & Hfat & _ & Hphone & Hcontact) & Hq & _).
  eexists. split; [exact Hq|]. intros w2 sid2 Hcreate Hsid2.
  destruct (run_process_job_accepted h _ sid2 w2 Hcreate Hsid2) as (Hcalls & _).
  rewrite run_getCallData, (proj2 (truthy_Some sid2)) by done.
  cbn [fst snd default from_option id calls log]. rewrite Hcalls, lookup_insert_eq.
  eexists. split; [reflexivity|].
  cbn [fmap option_fmap option_map CallData.of_row initiated_row
       CallData.retry_count CallData.phone CallData.contactId
       CallData.first_attempt_timestamp CallData.answeredBy
       CallData.retry_scheduled Calls.retry_count Calls.phone Calls.contactId
       Calls.first_attempt_timestamp Calls.answeredBy Calls.retry_scheduled
       Queue.with_queue_id Queue.retry_stage Queue.phone_number Queue.contact_id
       Queue.first_attempt_timestamp].
  rewrite Hstage, Hfat, Hphone, Hcontact. by repeat split.
Qed.

Lemma retry_entry_becomes_the_next_attempt_witness :
  ∃ entry,
    call_queue
      (run demo_host
         (scheduleRetry demo_host (CallData.of_row (mario_row 3)) (Some "CA1")
            {| reason := Some "retryable_failure"; forceImmediate := false |})
         (one_call_world 3)).1
    = [entry].
Proof.
  destruct (retry_entry_becomes_the_next_attempt demo_host
              (CallData.of_row (mario_row 3)) (Some "CA1")
              {| reason := Some "retryable_failure"; forceImmediate := false |}
              (one_call_world 3)) as (entry & Hq & _); [by vm_compute|done|].
  exists entry. exact Hq.
Defined.

(** ** Well-formedness of the reachable stores *)

Section WellFormed.

Variable h : Host.

Lemma exec_wf c w :
  cmd_wf h c → wf h w → wf h (exec h c w).1 ∧ answer_wf h c (exec h c w).2.
Proof.
  intros Hc (Hq & Hm & Ht). unfold wf.
  destruct c; cbn [exec fst snd answer_wf call_queue calls trace log set_calls
                   set_queue set_clock insert_queue take_sequence];
    rewrite ?calls_created_app; cbn [calls_created omap]; rewrite ?app_nil_r;
    cbn [cmd_wf] in Hc.
  - split; [done|]. intros r Hr. by apply (Hm callSid).
  - split; [|done]. split; [done|]. split; [|done]. by apply map_Forall_insert_2.
  - split; [|done]. split; [done|]. split; [|done].
    apply alter_Forall; [|done]. intros r (H1&H2&H3&H4).
    destruct p; [done| |done]. subst v.
    refine (conj H1 (conj H2 (conj H3 _))). by right.
  - split; [|done]. split; [|done]. apply Forall_app. split; [done|].
    constructor; [exact Hc|constructor].
  - split; [done|]. by apply select_due_Forall.
  - split; [|done]. split; [|done]. unfold mark_processing.
    apply Forall_fmap. eapply Forall_impl; [exact Hq|]. intros r Hr. cbn.
    destruct (claims _ r); [|done]. destruct Hr as (H1&H2&H3&H4&_).
    refine (conj H1 (conj H2 (conj H3 (conj H4 _)))). by right; left.
  - split; [|done]. split; [|done]. unfold mark_failed.
    apply Forall_fmap. eapply Forall_impl; [exact Hq|]. intros r Hr. cbn.
    destruct (_ =? _); [|done]. destruct Hr as (H1&H2&H3&H4&_).
    refine (conj H1 (conj H2 (conj H3 (conj H4 _)))). by right; right.
  - split; [|done]. split; [|done]. by apply delete_queue_Forall.
  - done.
  - done.
  - split; [|done]. split; [done|]. split; [done|].
    apply Forall_app. split; [done|]. constructor; [exact Hc|constructor].
  - done.
  - done.
  - done.
  - done.
  - done.
  - done.
Qed.

Lemma guarded_run {A} (Q : A → Prop) (p : prog A) w :
  guarded h Q p → wf h w → wf h (run h p w).1 ∧ Q (run h p w).2.
Proof.
  revert w. induction p as [a|c k IH]; intros w Hp Hw; simpl; [done|].
  destruct Hp as [Hc Hk]. destruct (exec_wf c w Hc Hw) as [Hw' Hx].
  apply IH; [by apply Hk|done].
Qed.

Lemma guarded_bind {A B} (Q : A → Prop) (R : B → Prop) (p : prog A) (f : A → prog B) :
  guarded h Q p → (∀ a, Q a → guarded h R (f a)) → guarded h R (bind p f).
Proof.
  induction p as [a|c k IH]; simpl; [by auto|].
  intros [Hc Hk] Hf. split; [done|]. intros x Hx. by apply IH; [apply Hk|].
Qed.

Local Abbreviation anything := (λ _, True).

Lemma truthy_default v : truthy v = true → default "" v ≠ "".
Proof. destruct v as [s|]; [|done]. intros Hs. by apply truthy_Some. Qed.

Lemma call_options_standard to url : to ≠ "" → standard_options h (call_options h to url).
Proof. intros Hto. by repeat split. Qed.

Lemma guarded_getCallData sid : guarded h anything (getCallData sid).
Proof. unfold getCallData. by destruct (truthy sid). Qed.

Lemma guarded_updateCallData sid p :
  cmd_wf h (DbUpdateCall (default "" sid) p) → guarded h anything (updateCallData sid p).
Proof. intros Hp. unfold updateCallData. by destruct (truthy sid). Qed.

Lemma guarded_scheduled_at_base z options config :
  guarded h anything (scheduled_at_base z options config).
Proof.
  unfold scheduled_at_base.
  destruct (forceImmediate options); [|destruct config]; simpl; repeat split; done.
Qed.

Lemma guarded_scheduleRetry call sid options :
  guarded h anything (scheduleRetry h call sid options).
Proof.
  unfold scheduleRetry.
  eapply guarded_bind with (Q := anything).
  { by destruct (CallData.first_attempt_timestamp call). }
  intros t _. destruct (_ >=? _); [by simpl|].
  eapply guarded_bind; [apply guarded_scheduled_at_base|]. intros s _.
  destruct (negb (truthy ?[a]) || negb (truthy ?[b])) eqn:E; [by simpl|].
  apply orb_false_iff in E as [E1 E2]. apply negb_false_iff in E1, E2.
  apply truthy_default in E1, E2.
  simpl. split; [|done].
  refine (conj E1 (conj E2 (conj _ (conj eq_refl _)))); [|by left].
  by apply call_options_standard.
Qed.

Lemma guarded_end_call sid :
  guarded h anything (end_call_after_machine_detection sid).
Proof.
  unfold end_call_after_machine_detection.
  eapply guarded_bind; [by apply guarded_updateCallData|]. intros _ _.
  simpl. split; [done|]. intros [st|msg] _; [|by simpl].
  destruct (negb _); [|done]. simpl. split; [done|]. by intros [[]|].
Qed.

Lemma guarded_record_answeredBy req call :
  guarded h anything (record_answeredBy req call).
Proof.
  unfold record_answeredBy. destruct (_ && _); [|done].
  by apply guarded_updateCallData.
Qed.

Lemma guarded_handle_status req call :
  guarded h anything (handle_status h req call).
Proof.
  unfold handle_status. destruct (negb _); [done|].
  eapply guarded_bind; [apply guarded_record_answeredBy|].
  intros _ _. destruct (_ && negb _).
  - eapply guarded_bind; [apply guarded_end_call|]. intros _ _.
    eapply guarded_bind; [apply guarded_scheduleRetry|]. by intros _ _.
  - destruct (isRetryableFailure req call).
    + eapply guarded_bind; [by apply guarded_updateCallData|]. intros _ _.
      eapply guarded_bind; [apply guarded_scheduleRetry|]. by intros _ _.
    + repeat (destruct (_ && _)); by simpl.
Qed.

Lemma guarded_call_status req : guarded h anything (call_status h req).
Proof.
  unfold call_status.
  eapply guarded_bind; [apply guarded_getCallData|]. intros [call|] _.
  { apply guarded_handle_status. }
  simpl. split; [done|]. intros _ _.
  eapply guarded_bind; [apply guarded_getCallData|]. intros [call|] _.
  { apply guarded_handle_status. }
  by simpl.
Qed.

Lemma guarded_outbound_call b : guarded h anything (outbound_call h b).
Proof.
  unfold outbound_call. cbv zeta.
  destruct (negb (truthy ?[a]) || negb (truthy ?[b])) eqn:E; [by simpl|].
  apply orb_false_iff in E as [E1 E2]. apply negb_false_iff in E1, E2.
  apply truthy_default in E1, E2.
  eapply guarded_bind with (Q := anything).
  { unfold getSignedUrl. simpl. split; [done|]. by intros [u|m]. }
  intros [u|m] _; [|by simpl].
  simpl. split; [done|]. intros t1 _. split; [done|]. intros t2 _.
  split; [done|]. intros n _. split; [|done].
  refine (conj E1 (conj E2 (conj _ (conj eq_refl _)))); [|by left].
  by apply call_options_standard.
Qed.

Lemma guarded_process_job job :
  entry_wf h job → guarded h anything (process_job job).
Proof.
  intros (Hphone & Hcontact & Hopts & _). unfold process_job.
  simpl. split; [done|]. intros now _. split; [done|]. intros _ _.
  split; [done|]. intros [sid|msg] _; [|by simpl].
  simpl. split; [done|]. intros created_at _.
  eapply guarded_bind with (Q := anything).
  { unfold setCallData. destruct (truthy (Some sid)); [|done].
    simpl. split; [|done]. refine (conj _ (conj _ (conj eq_refl _))).
    - by apply truthy_Some.
    - by apply truthy_Some.
    - by left. }
  intros _ _. eapply guarded_bind; [apply guarded_getCallData|].
  intros [call|] _; by simpl.
Qed.

Lemma guarded_for_each jobs :
  Forall (entry_wf h) jobs → guarded h anything (for_each jobs process_job).
Proof.
  induction 1 as [|job jobs Hjob _ IH]; [done|]. cbn [for_each].
  eapply guarded_bind; [by apply guarded_process_job|]. by intros _ _.
Qed.

Lemma guarded_processCallQueue : guarded h anything (processCallQueue h).
Proof.
  unfold processCallQueue, countActiveTwilioCalls. simpl. split; [done|].
  intros [active|msg] _; simpl;
    (destruct (_ <=? 0); [done|]; simpl; split; [done|]; intros now _;
     split; [done|]; intros jobs Hjobs; by apply guarded_for_each).
Qed.

Lemma reachable_wf w : reachable h w → wf h w.
Proof.
  induction 1 as [t|w a _ IH].
  - refine (conj _ (conj _ _)); [constructor|apply map_Forall_empty|constructor].
  - destruct a as [b|req| |ms]; cbn [act].
    + by apply (guarded_run anything), IH; [apply guarded_outbound_call].
    + by apply (guarded_run anything), IH; [apply guarded_call_status].
    + by apply (guarded_run anything), IH; [apply guarded_processCallQueue].
    + exact IH.
Qed.

End WellFormed.

(** X24. Every call the service ever asks the carrier to create, in any
    run of requests, callbacks and processor ticks from an empty store,
    is from the service's number to a non-empty destination, rings for at
    most 25 s and lasts at most 900 s, has asynchronous answering-machine
    detection enabled and sends its status and detection callbacks to
    this service's [/call-status]. *)
Theorem every_call_placed_is_standard h w :
  reachable h w → Forall (standard_options h) (calls_created (trace w)).
Proof. intros Hw. by destruct (reachable_wf h w Hw) as (_ & _ & Hc). Qed.

Lemma every_call_placed_is_standard_witness :
  Forall (standard_options demo_host) (calls_created (trace mario_fails_once)).
Proof.
  apply every_call_placed_is_standard.
  unfold mario_fails_once, one_job_world. repeat constructor.
Defined.

(** X25. In every reachable store, each queue entry names a destination
    and a contact, carries standard call options that dial its own
    destination, and is [pending], [processing] or [failed]; each tracked
    call names a destination and a contact, has status [initiated] and a
    retry latch of 0 or 1. *)
Theorem reachable_rows_are_well_formed h w :
  reachable h w →
  Forall (entry_wf h) (call_queue w) ∧ map_Forall (λ _, tracked_wf) (calls w).
Proof. intros Hw. by destruct (reachable_wf h w Hw) as (Hq & Hm & _). Qed.

Lemma reachable_rows_are_well_formed_witness :
  Forall (entry_wf demo_host) (call_queue mario_fails_once)
  ∧ map_Forall (λ _, tracked_wf) (calls mario_fails_once).
Proof.
  apply reachable_rows_are_well_formed.
  unfold mario_fails_once, one_job_world. repeat constructor.
Defined.

(** X26. In a reachable store the missing-data guard of [scheduleRetry]
    never fires: a callback reporting no-answer, busy or failed for a
    tracked call whose latch is unset and whose retry count is below 9
    queues exactly one retry, at the next stage and for the destination
    of the call. *)
Theorem failed_call_in_a_reachable_store_is_retried h req sid row w :
  reachable h w →
  CallSid req = Some sid → sid ≠ "" →
  calls w !! sid = Some row → Calls.retry_scheduled row = 0 →
  Calls.retry_count row < MAX_TOTAL_ATTEMPTS - 1 →
  includes ["no-answer"; "busy"; "failed"] (CallStatus req) = true →
  let w' := (run h (call_status h req) w).1 in
  ∃ r,
    queue_inserts (trace w') = queue_inserts (trace w) ++ [r]
    ∧ Queue.retry_stage r = Calls.retry_count row + 1
    ∧ Some (Queue.phone_number r) = Calls.phone row
    ∧ Some (Queue.contact_id r) = Calls.contactId row.
Proof.
  intros Hw Hsid Hne Hrow Hflag Hcount Hstatus. cbv zeta.
  destruct (reachable_wf h w Hw) as (_ & Hm & _).
  destruct (Hm sid row Hrow) as (Hphone & Hcontact & _).
  rewrite (call_status_found h req sid row w Hsid Hne Hrow).
  destruct (handle_status_schedules h req sid row (log (DbGetCall sid) w) Hsid Hne)
    as (_ & _ & why & new & Hnew & Hi); [done|done| |].
  { right. apply retryable_classification. by left. }
  unfold retries_scheduled, attempt_of, has_destination, has_contact in Hnew.
  cbn [CallData.of_row CallData.retry_count CallData.phone CallData.to
       CallData.contactId CallData.contact_id default from_option id] in Hnew.
  rewrite Hphone, Hcontact in Hnew. cbn [orb andb] in Hnew.
  destruct (Calls.retry_count row <? MAX_TOTAL_ATTEMPTS - 1) eqn:E; [|lia].
  destruct Hnew as (r & -> & Hstage & _ & _ & _ & _ & Hp & Hc).
  exists r. rewrite Hi. cbn [trace log]. rewrite queue_inserts_app. cbn.
  rewrite app_nil_r. split; [done|].
  unfold attempt_of in Hstage. cbn in Hstage, Hp, Hc.
  unfold js_or in Hp, Hc. rewrite Hphone in Hp. rewrite Hcontact in Hc.
  by repeat split.
Qed.

Lemma failed_call_in_a_reachable_store_is_retried_witness :
  ∃ r,
    queue_inserts
      (trace (run demo_host
                (call_status demo_host
                   {| CallSid := Some "CA11"; CallStatus := Some "failed";
                      AnsweredBy := None; To := Some "+390123456789" |})
                first_call_world).1)
    = queue_inserts (trace first_call_world) ++ [r]
    ∧ Queue.retry_stage r = 1.
Proof.
  destruct (failed_call_in_a_reachable_store_is_retried demo_host
              {| CallSid := Some "CA11"; CallStatus := Some "failed";
                 AnsweredBy := None; To := Some "+390123456789" |}
              "CA11" first_call_row first_call_world)
    as (r & Hi & Hstage & _); try by vm_compute.
  { unfold first_call_world, one_job_world. repeat constructor. }
  exists r. split; [exact Hi|]. rewrite Hstage. by vm_compute.
Defined.

(** ** More on the media bridge *)

Lemma handle_all_snoc s es e :
  Bridge.handle_all s (es ++ [e]) = Bridge.handle (Bridge.handle_all s es) e.
Proof. unfold Bridge.handle_all. by rewrite foldl_app. Qed.

Lemma agent_frames_app es1 es2 :
  agent_frames (es1 ++ es2) = agent_frames es1 ++ agent_frames es2.
Proof. unfold agent_frames. by rewrite omap_app. Qed.

Lemma carrier_frames_app es1 es2 :
  carrier_frames (es1 ++ es2) = carrier_frames es1 ++ carrier_frames es2.
Proof. unfold carrier_frames. by rewrite omap_app. Qed.

Ltac keep :=
  cbn [Bridge.elevenLabsWs Bridge.effects Bridge.set_ws Bridge.set_agent
       Bridge.emit Bridge.streamSid Bridge.ws Bridge.callSid];
  cbv beta iota;
  split; [first [eassumption | by intros [=] | intros ?; congruence]|eassumption].

Lemma initiation_first_step s e :
  let ok s :=
    (Bridge.is_open (Bridge.elevenLabsWs s) = true
     → agent_frames (Bridge.effects s) ≠ [])
    ∧ (agent_frames (Bridge.effects s) = []
       ∨ head (agent_frames (Bridge.effects s))
         = Some Bridge.conversation_initiation_client_data) in
  ok s → ok (Bridge.handle s e).
Proof.
  cbv zeta. intros [Hopen Hhead].
  assert (∀ f, Bridge.is_open (Bridge.elevenLabsWs s) = true →
               head (agent_frames (Bridge.effects s) ++ [f])
               = Some Bridge.conversation_initiation_client_data) as Hkeep.
  { intros f Ho. specialize (Hopen Ho). destruct Hhead as [|Hh]; [done|].
    by destruct (agent_frames (Bridge.effects s)). }
  assert (∀ f, head (agent_frames (Bridge.effects s)
                      ++ [Bridge.conversation_initiation_client_data; f])
               = Some Bridge.conversation_initiation_client_data
             ∧ head (agent_frames (Bridge.effects s)
                       ++ [Bridge.conversation_initiation_client_data])
               = Some Bridge.conversation_initiation_client_data) as Hinit.
  { intros f. destruct Hhead as [->|Hh]; [done|].
    by destruct (agent_frames (Bridge.effects s)). }
  assert (∀ l (f : Bridge.frame), l ++ [f] ≠ []) as Hsnoc by (by intros []).
  destruct e; cbn [Bridge.handle].
  - destruct signedUrl; cbn; rewrite !agent_frames_app; cbn; rewrite ?app_nil_r;
      keep.
  - destruct (Bridge.is_open (Bridge.elevenLabsWs s)) eqn:Ho; [|keep].
    cbn. rewrite agent_frames_app. cbn. split; [intros _; apply Hsnoc|].
    right. by apply Hkeep.
  - destruct (Bridge.is_open (Bridge.elevenLabsWs s)) eqn:Ho; [|keep].
    cbn. rewrite agent_frames_app. cbn. rewrite app_nil_r.
    keep.
  - keep.
  - cbn. destruct (Bridge.is_open (Bridge.elevenLabsWs s)) eqn:Ho;
      [|keep].
    cbn. rewrite agent_frames_app. cbn. rewrite app_nil_r.
    keep.
  - cbn. rewrite agent_frames_app. cbn. rewrite app_nil_r. keep.
  - cbn. rewrite agent_frames_app. cbn. split; [intros _; apply Hsnoc|].
    right. apply (Hinit Bridge.conversation_initiation_client_data).
  - destruct (Bridge.streamSid s) as [sid|], payload as [p|]; try keep.
    destruct (_ && _); [|keep]. destruct (Bridge.ws s); try keep.
    cbn. rewrite agent_frames_app. cbn. rewrite app_nil_r. keep.
  - destruct (Bridge.streamSid s) as [sid|]; [|keep].
    destruct (truthy _); [|keep].
    cbn. rewrite agent_frames_app. cbn. rewrite app_nil_r. keep.
  - destruct event_id as [i|]; [|keep].
    destruct (truthy (Some i)); cbn [andb]; [|keep].
    destruct (Bridge.is_open (Bridge.elevenLabsWs s)) eqn:Ho; [|keep].
    cbn. rewrite agent_frames_app. cbn. split; [intros _; apply Hsnoc|].
    right. by apply Hkeep.
  - cbn. rewrite agent_frames_app. cbn. rewrite app_nil_r. keep.
  - cbn. destruct (negb _); cbn; rewrite ?agent_frames_app; cbn;
      rewrite ?app_nil_r; (keep).
Qed.

(** X27. Whatever the carrier and the agent send, and in whatever order,
    the first frame the bridge sends to the agent is the conversation
    initiation: no audio and no pong goes out before it. *)
Theorem agent_hears_the_initiation_first es :
  let sent := agent_frames (Bridge.effects (Bridge.handle_all Bridge.initial es)) in
  sent = [] ∨ head sent = Some Bridge.conversation_initiation_client_data.
Proof.
  cbv zeta.
  enough ((Bridge.is_open (Bridge.elevenLabsWs (Bridge.handle_all Bridge.initial es)) = true
           → agent_frames (Bridge.effects (Bridge.handle_all Bridge.initial es)) ≠ [])
          ∧ (agent_frames (Bridge.effects (Bridge.handle_all Bridge.initial es)) = []
             ∨ head (agent_frames (Bridge.effects (Bridge.handle_all Bridge.initial es)))
               = Some Bridge.conversation_initiation_client_data)) as [_ H]
    by exact H.
  induction es as [|e es IH] using rev_ind.
  - cbn. split; [done|by left].
  - rewrite handle_all_snoc. by apply (initiation_first_step _ e).
Qed.

Lemma agent_closes_app es1 es2 :
  agent_closes (es1 ++ es2) = (agent_closes es1 + agent_closes es2)%nat.
Proof. unfold agent_closes. by rewrite omap_app, length_app. Qed.

Lemma agent_opens_cons e es :
  agent_opens (e :: es)
  = ((match e with Bridge.agent_open => 1 | _ => 0 end) + agent_opens es)%nat.
Proof. unfold agent_opens. by destruct e. Qed.

Ltac bridge_red :=
  cbn [Bridge.effects Bridge.emit Bridge.set_agent Bridge.set_ws
       Bridge.elevenLabsWs Bridge.close_elevenLabsWs Bridge.ws Bridge.streamSid
       Bridge.callSid].

Lemma closes_step s e :
  (agent_closes (Bridge.effects (Bridge.handle s e))
   + (if Bridge.is_open (Bridge.elevenLabsWs (Bridge.handle s e)) then 1 else 0)
   ≤ agent_closes (Bridge.effects s)
     + (if Bridge.is_open (Bridge.elevenLabsWs s) then 1 else 0)
     + match e with Bridge.agent_open => 1 | _ => 0 end)%nat.
Proof.
  destruct e; cbn [Bridge.handle]; bridge_red;
    destruct (Bridge.is_open (Bridge.elevenLabsWs s)) eqn:Ho;
    repeat match goal with
    | |- context [match ?x with _ => _ end] => destruct x eqn:?
    end;
    bridge_red; rewrite ?agent_closes_app, ?Ho; cbn;
    first [lia | cbn in *; congruence].
Qed.

Lemma closes_bound s es :
  (agent_closes (Bridge.effects (Bridge.handle_all s es))
   + (if Bridge.is_open (Bridge.elevenLabsWs (Bridge.handle_all s es)) then 1 else 0)
   ≤ agent_closes (Bridge.effects s)
     + (if Bridge.is_open (Bridge.elevenLabsWs s) then 1 else 0)
     + agent_opens es)%nat.
Proof.
  revert s. induction es as [|e es IH]; intros s.
  - cbn. lia.
  - cbn [Bridge.handle_all foldl]. specialize (IH (Bridge.handle s e)).
    unfold Bridge.handle_all in IH. pose proof (closes_step s e).
    rewrite agent_opens_cons. lia.
Qed.

(** X28. The bridge closes the agent socket at most once for each time
    it opened, whatever the events and their order: a stop event
    followed by the close of the carrier socket (or several stop events)
    does not close it twice. *)
Theorem agent_socket_is_closed_at_most_once es :
  (agent_closes (Bridge.effects (Bridge.handle_all Bridge.initial es))
   ≤ agent_opens es)%nat.
Proof. pose proof (closes_bound Bridge.initial es) as H. cbn in H. lia. Qed.

Lemma media_sent_app es1 es2 :
  media_sent (es1 ++ es2) = media_sent es1 ++ media_sent es2.
Proof. unfold media_sent. by rewrite carrier_frames_app, filter_app. Qed.

Lemma closed_carrier_step s e :
  Bridge.ws s ≠ Bridge.OPEN →
  Bridge.ws (Bridge.handle s e) ≠ Bridge.OPEN
  ∧ media_sent (Bridge.effects (Bridge.handle s e)) = media_sent (Bridge.effects s).
Proof.
  intros Hws. destruct e; cbn [Bridge.handle]; bridge_red;
    repeat match goal with
    | |- context [match ?x with _ => _ end] => destruct x eqn:?
    end;
    bridge_red; rewrite ?media_sent_app; cbn; rewrite ?app_nil_r;
    first [done | split; [congruence|done]].
Qed.

Lemma closed_carrier_stays_silent s es :
  Bridge.ws s ≠ Bridge.OPEN →
  media_sent (Bridge.effects (Bridge.handle_all s es)) = media_sent (Bridge.effects s).
Proof.
  revert s. induction es as [|e es IH]; intros s Hws; [done|].
  cbn [Bridge.handle_all foldl]. destruct (closed_carrier_step s e Hws) as [Hws' <-].
  by apply IH.
Qed.

(** X29. Once the carrier socket has closed, no more audio is sent to
    it: whatever happens before and after the close, the audio frames
    sent to the carrier are those sent before it. *)
Theorem no_audio_to_a_closed_carrier es1 es2 :
  media_sent (Bridge.effects
                (Bridge.handle_all Bridge.initial (es1 ++ Bridge.carrier_close :: es2)))
  = media_sent (Bridge.effects (Bridge.handle_all Bridge.initial es1)).
Proof.
  unfold Bridge.handle_all. rewrite foldl_app. cbn [foldl].
  fold (Bridge.handle_all Bridge.initial es1).
  set (s := Bridge.handle_all Bridge.initial es1).
  fold (Bridge.handle_all (Bridge.handle s Bridge.carrier_close) es2).
  rewrite closed_carrier_stays_silent.
  - cbn [Bridge.handle]. bridge_red. destruct (Bridge.is_open _); bridge_red; [|done].
    rewrite media_sent_app. cbn. by rewrite app_nil_r.
  - cbn [Bridge.handle]. bridge_red. by destruct (Bridge.is_open _).
Qed.

(** ** The route prefix *)

Lemma remove_quotes_clean s : all_chars (λ c, negb (is_quote c)) (remove_quotes s) = true.
Proof.
  induction s as [|c s IH]; [done|]. simpl.
  destruct (is_quote c) eqn:E; [done|]. simpl. by rewrite E.
Qed.

Lemma remove_quotes_id s :
  all_chars (λ c, negb (is_quote c)) s = true → remove_quotes s = s.
Proof.
  induction s as [|c s IH]; [done|]. simpl. intros H.
  apply andb_true_iff in H as [Hc Hs]. apply negb_true_iff in Hc.
  by rewrite Hc, IH.
Qed.

Lemma starts_with_squeeze c s :
  starts_with c (squeeze_slashes s) = starts_with c s.
Proof.
  induction s as [|a s IH]; [done|]. simpl.
  destruct (Ascii.eqb a "/") eqn:Ea; simpl; [|done].
  destruct (starts_with "/" s) eqn:Es; [|done]. simpl.
  apply Ascii.eqb_eq in Ea as ->. rewrite IH.
  destruct s as [|b s]; [done|]. simpl in *. apply Ascii.eqb_eq in Es as ->. done.
Qed.

Lemma squeeze_no_double s : has_double_slash (squeeze_slashes s) = false.
Proof.
  induction s as [|a s IH]; [done|]. simpl.
  destruct (Ascii.eqb a "/" && starts_with "/" s) eqn:E; [done|].
  simpl. by rewrite starts_with_squeeze, E, IH.
Qed.

Lemma squeeze_id s : has_double_slash s = false → squeeze_slashes s = s.
Proof.
  induction s as [|a s IH]; [done|]. simpl. intros H.
  apply orb_false_iff in H as [H1 H2]. by rewrite H1, IH.
Qed.

Lemma squeeze_clean P s : all_chars P s = true → all_chars P (squeeze_slashes s) = true.
Proof.
  induction s as [|a s IH]; [done|]. simpl. intros H.
  apply andb_true_iff in H as [Ha Hs].
  destruct (_ && _); [by apply IH|]. simpl. by rewrite Ha, IH.
Qed.

(** X30. The route prefix the routes are registered under, whatever the
    value of [OUTGOING_ROUTE_PREFIX]: it contains no quote character,
    starts with a slash or an asterisk, and has no two slashes in a row;
    it is [/outgoing] when the variable is unset or empty; and cleaning
    is idempotent (a prefix that is already clean is left as it is). *)
Theorem cleanRoutePrefix_is_clean env :
  let p := cleanRoutePrefix env in
  all_chars (λ c, negb (is_quote c)) p = true
  ∧ (starts_with "/" p || starts_with "*" p = true)
  ∧ has_double_slash p = false
  ∧ cleanRoutePrefix None = "/outgoing"
  ∧ cleanRoutePrefix (Some "") = "/outgoing"
  ∧ cleanRoutePrefix (Some p) = p.
Proof.
  cbv zeta.
  assert (∀ e, all_chars (λ c, negb (is_quote c)) (cleanRoutePrefix e) = true
               ∧ (starts_with "/" (cleanRoutePrefix e)
                  || starts_with "*" (cleanRoutePrefix e) = true)
               ∧ has_double_slash (cleanRoutePrefix e) = false) as Hclean.
  { intros e. unfold cleanRoutePrefix. cbv zeta.
    set (raw := remove_quotes _).
    assert (all_chars (λ c, negb (is_quote c)) raw = true) as Hraw
      by apply remove_quotes_clean.
    refine (conj _ (conj _ (squeeze_no_double _))).
    - apply squeeze_clean. destruct (_ && _); [|done]. simpl. by rewrite Hraw.
    - rewrite !starts_with_squeeze.
      destruct (starts_with "/" raw) eqn:E1; cbn [negb andb]; [by rewrite E1|].
      destruct (starts_with "*" raw) eqn:E2; cbn [negb]; [|done].
      by rewrite E1, E2. }
  destruct (Hclean env) as (Hq & Hs & Hd).
  refine (conj Hq (conj Hs (conj Hd (conj eq_refl (conj eq_refl _))))).
  set (p := cleanRoutePrefix env) in *. unfold cleanRoutePrefix at 1. cbv zeta.
  assert (truthy (Some p) = true) as ->.
  { destruct p; [done|]. done. }
  cbn [default from_option id]. rewrite (remove_quotes_id p Hq).
  apply orb_true_iff in Hs.
  assert (negb (starts_with "/" p) && negb (starts_with "*" p) = false) as ->.
  { destruct Hs as [-> | ->]; [done|]. by rewrite andb_false_r. }
  by apply squeeze_id.
Qed.
